(** * Pintos file layer: buffer cache and indexed inodes (filesys/inode.c)

    A shallow embedding of [src/filesys/inode.c].  The buffer cache is a
    list of [cache_block]s ordered by recency, the block device is a total
    function from sector numbers to sector contents, and the inode code is
    written in a small monad of cache and free-map calls that is run
    against that state.

    Conventions of the embedding:
    - [size_t], [block_sector_t] and [unsigned] are [Z] reduced modulo
      [2^32]; [int] and [off_t] are [Z] reduced to the signed 32-bit range.
    - A sector is a list of byte values; tables of sector numbers are
      stored little-endian, four bytes per entry, as on x86.
    - An array access outside the array is undefined behaviour in C, and a
      failed [ASSERT] stops the kernel; the embedding makes both the
      outcome [Undef], which no run survives.
    - The code is run by one thread, and the cache lock is held for the
      whole of a lookup; locks are not part of the state.
    - Several functions of the source hand a null destination to
      [cache_read] and then read the struct through that pointer.  The
      copy to the null destination is the call [NullStore] of the
      embedding, and an allocation is the call [Malloc].  A program has
      two executions.  [run_strict] is the code as written: the store
      through the null pointer is undefined behaviour, which no run
      survives, and an allocation succeeds or fails as its argument says.
      [run] is the same code where the bytes stored through the null
      pointer land in memory from which the code that follows reads them
      back, and where every allocation succeeds; it shows what the code
      computes beyond its first null store. *)

From Stdlib Require Import ZArith List Lia Bool.
Import ListNotations.
Open Scope Z_scope.

(** ** Machine integers *)

(** Modelled from the spec: [block_sector_t] ([devices/block.h]) and
    [off_t] ([filesys/off_t.h]) are not part of the sources; sector numbers
    are unsigned and byte lengths signed 32-bit integers, as [size_t] and
    [int] are on the 32-bit x86 that Pintos runs on. *)
Definition wrap_size_t (x : Z) : Z := x mod 2 ^ 32.

Definition wrap_int (x : Z) : Z := (x + 2 ^ 31) mod 2 ^ 32 - 2 ^ 31.

(** Modelled from the spec: the sector size of the block device
    ([devices/block.h], not part of the sources) is 512 bytes; the source
    relies on it when it clears a 128-entry table with
    [memset (buffer, 0, 512)]. *)
Definition BLOCK_SECTOR_SIZE : Z := 512.

(** Modelled from the spec: the macro [DIV_ROUND_UP] of [round.h] is not
    part of the sources; it is the rounding-up division
    [((X) + (STEP) - 1) / (STEP)], here on [int] operands. *)
Definition DIV_ROUND_UP (x step : Z) : Z :=
  Z.quot (wrap_int (x + step - 1)) step.

(** ** Sector counts (inode.c, lines 26-40) *)

Definition bytes_to_sectors (size : Z) : Z :=
  wrap_size_t (DIV_ROUND_UP size BLOCK_SECTOR_SIZE).

Definition bytes_to_blocks (size : Z) : Z :=
  let data_num := bytes_to_sectors size in
  if data_num <=? 12 then wrap_size_t (data_num + 1)
  else if data_num <=? 128 + 12 then wrap_size_t (data_num + 2)
  else wrap_size_t (data_num + wrap_size_t (data_num - 140) / 128 + 3).

(** The block count as the specification words it: the last case rounds
    the number of second-level index sectors up. *)
Definition ceil_div (a b : Z) : Z := (a + b - 1) / b.

Definition block_count_spec (byte_length : Z) : Z :=
  let data_sectors := ceil_div byte_length BLOCK_SECTOR_SIZE in
  if data_sectors <=? 12 then data_sectors + 1
  else if data_sectors <=? 140 then data_sectors + 2
  else data_sectors + 3 + ceil_div (data_sectors - 140) 128.

(** The request to the allocator as the specification words it: the
    sectors, data and index, that the new length needs and the old length
    did not. *)
Definition request_spec (old_length new_length : Z) : Z :=
  Z.max 0 (block_count_spec new_length - block_count_spec old_length).

(** ** Sector contents *)

Definition zeros : list Z := repeat 0 512.

Definition zero_words : list Z := repeat 0 128.

Definition byte_at (c : list Z) (n : nat) : Z := nth n c 0 mod 256.

(** Entry [i] of a sector read as [block_sector_t [128]]. *)
Definition word_at (c : list Z) (i : nat) : Z :=
  byte_at c (4 * i) + 256 * byte_at c (4 * i + 1)
  + 65536 * byte_at c (4 * i + 2) + 16777216 * byte_at c (4 * i + 3).

Definition read_words (c : list Z) : list Z := map (word_at c) (seq 0 128).

Definition le_bytes (w : Z) : list Z :=
  [w mod 256; (w / 256) mod 256; (w / 65536) mod 256; (w / 16777216) mod 256].

Definition words_to_bytes (ws : list Z) : list Z := flat_map le_bytes ws.

(** ** The buffer cache (inode.c, lines 52-200) *)

Record cache_block := mk_cache_block {
  content : list Z;
  is_dirty : bool;
  is_valid : bool;
  bst : Z;
  hit_cnt : Z;
  miss_cnt : Z
}.

Record world := mk_world {
  cache : list cache_block;
  disk : Z -> list Z;
  free_map : list Z;
  alloc_log : list Z
}.

Definition upd (f : Z -> list Z) (s : Z) (c : list Z) : Z -> list Z :=
  fun x => if x =? s then c else f x.

Definition new_cache_block : cache_block :=
  mk_cache_block zeros false false 0 0 0.

Definition cache_init : list cache_block := repeat new_cache_block 64.

(** Modelled from the spec: the block device ([devices/block.c], not part
    of the sources) reads and writes whole sectors by number. *)
Definition block_read (d : Z -> list Z) (s : Z) : list Z := d s.

Definition block_write (d : Z -> list Z) (s : Z) (c : list Z) : Z -> list Z :=
  upd d s c.

Definition matches (sec : Z) (b : cache_block) : bool :=
  is_valid b && (bst b =? sec).

(** The search loop of [find_block_and_acq_lock]: it stops at the first
    valid block holding [sec], or else at the last block of the list.  The
    result is the block, the blocks before and after it, and [not_found]. *)
Fixpoint cache_scan (sec : Z) (l : list cache_block)
  : option (list cache_block * cache_block * list cache_block * bool) :=
  match l with
  | [] => None
  | b :: rest =>
      if matches sec b then Some ([], b, rest, false)
      else match cache_scan sec rest with
           | None => Some ([], b, [], true)
           | Some (pre, b', post, nf) => Some (b :: pre, b', post, nf)
           end
  end.

(** [find_block_and_acq_lock]: the block found is moved to the front; on a
    miss it is written back if valid and dirty, and refilled from the
    device.  An empty cache leaves [b] uninitialised in the source. *)
Definition find_block_and_acq_lock (sec : Z) (reader : bool) (w : world)
  : option (cache_block * world) :=
  match cache_scan sec (cache w) with
  | None => None
  | Some (pre, b, post, not_found) =>
      if not_found then
        let d := if is_valid b && is_dirty b
                 then block_write (disk w) (bst b) (content b) else disk w in
        let b' := mk_cache_block (block_read d sec) false true sec
                    (hit_cnt b) (wrap_int (miss_cnt b + 1)) in
        Some (b', mk_world (b' :: pre ++ post) d (free_map w) (alloc_log w))
      else
        let b' := mk_cache_block (content b) (is_dirty b) (is_valid b) (bst b)
                    (wrap_int (hit_cnt b + 1)) (miss_cnt b) in
        Some (b', mk_world (b' :: pre ++ post) (disk w) (free_map w) (alloc_log w))
  end.

Definition cache_read (sec : Z) (w : world) : option (list Z * world) :=
  match find_block_and_acq_lock sec true w with
  | None => None
  | Some (b, w') => Some (content b, w')
  end.

Definition cache_write (src : list Z) (sec : Z) (w : world) : option world :=
  match find_block_and_acq_lock sec false w with
  | None => None
  | Some (b, w') =>
      let b' := mk_cache_block src true (is_valid b) (bst b)
                  (hit_cnt b) (miss_cnt b) in
      Some (mk_world (b' :: tl (cache w')) (disk w') (free_map w') (alloc_log w'))
  end.

(** [cache_destroy] writes every valid dirty block back and frees it. *)
Fixpoint cache_destroy (l : list cache_block) (d : Z -> list Z) : Z -> list Z :=
  match l with
  | [] => d
  | b :: rest =>
      cache_destroy rest
        (if is_valid b && is_dirty b then block_write d (bst b) (content b) else d)
  end.

Definition cache_reset (w : world) : world :=
  mk_world cache_init (cache_destroy (cache w) (disk w)) (free_map w) (alloc_log w).

Definition get_cache_hit_cnt (w : world) : Z :=
  fold_left (fun acc b => wrap_int (acc + hit_cnt b)) (cache w) 0.

Definition get_cache_miss_cnt (w : world) : Z :=
  fold_left (fun acc b => wrap_int (acc + miss_cnt b)) (cache w) 0.

(** ** The free map *)

(** Modelled from the spec: the free-space allocator ([filesys/free-map.c],
    not part of the sources).  [allocate_batch (count)] grants [count]
    sector numbers, not necessarily contiguous, or fails and grants none;
    [release] gives a sector back.  The state is the list of free sector
    numbers; [alloc_log] records the size of every request. *)
Definition free_map_allocate_non_consecutive (cnt : Z) (w : world)
  : option (list Z) * world :=
  let w' := mk_world (cache w) (disk w) (free_map w) (alloc_log w ++ [cnt]) in
  if cnt <=? Z.of_nat (length (free_map w)) then
    (Some (firstn (Z.to_nat cnt) (free_map w)),
     mk_world (cache w) (disk w) (skipn (Z.to_nat cnt) (free_map w))
       (alloc_log w ++ [cnt]))
  else (None, w').

Definition free_map_release (s : Z) (w : world) : world :=
  mk_world (cache w) (disk w) (s :: free_map w) (alloc_log w).

(** ** Programs over the cache and the free map *)

(** The inode code calls [cache_read], [cache_write], the allocator and
    [free_map_release]; [prog] is the tree of those calls, with [Undef] for
    an array access out of bounds or a failed assertion, [NullStore] for
    the [memcpy] of [cache_read] into a null destination, and [Malloc] for
    a call of [malloc] or [calloc], whose continuation is told whether the
    pointer returned is non-null. *)
Inductive prog (A : Type) : Type :=
| Ret (a : A)
| Undef
| CacheRead (sec : Z) (k : list Z -> prog A)
| CacheWrite (src : list Z) (sec : Z) (k : prog A)
| FreeMapAllocate (cnt : Z) (k : option (list Z) -> prog A)
| FreeMapRelease (sec : Z) (k : prog A)
| NullStore (k : prog A)
| Malloc (k : bool -> prog A).

Arguments Ret {A} a.
Arguments Undef {A}.
Arguments CacheRead {A} sec k.
Arguments CacheWrite {A} src sec k.
Arguments FreeMapAllocate {A} cnt k.
Arguments FreeMapRelease {A} sec k.
Arguments NullStore {A} k.
Arguments Malloc {A} k.

Fixpoint bind {A B : Type} (p : prog A) (f : A -> prog B) : prog B :=
  match p with
  | Ret a => f a
  | Undef => Undef
  | CacheRead s k => CacheRead s (fun c => bind (k c) f)
  | CacheWrite c s k => CacheWrite c s (bind k f)
  | FreeMapAllocate n k => FreeMapAllocate n (fun r => bind (k r) f)
  | FreeMapRelease s k => FreeMapRelease s (bind k f)
  | NullStore k => NullStore (bind k f)
  | Malloc k => Malloc (fun ok => bind (k ok) f)
  end.

Notation "x <- p ;; q" := (bind p (fun x => q))
  (at level 61, p at next level, right associativity).
Notation "' pat <- p ;; q" := (bind p (fun x => match x with pat => q end))
  (at level 61, pat pattern, p at next level, right associativity).
Notation "p ;;; q" := (bind p (fun _ => q))
  (at level 61, right associativity).

Definition p_cache_read (sec : Z) : prog (list Z) := CacheRead sec Ret.
Definition p_cache_write (src : list Z) (sec : Z) : prog unit :=
  CacheWrite src sec (Ret tt).
Definition p_free_map_allocate (cnt : Z) : prog (option (list Z)) :=
  FreeMapAllocate cnt Ret.
Definition p_free_map_release (sec : Z) : prog unit :=
  FreeMapRelease sec (Ret tt).
Definition p_malloc : prog bool := Malloc Ret.

(** [cache_read (dest, sec)] with [dest = NULL]: the block is looked up
    under its lock, and [memcpy] then stores its 512 bytes at the null
    destination. *)
Definition p_cache_read_null (sec : Z) : prog (list Z) :=
  CacheRead sec (fun c => NullStore (Ret c)).

(** Running a program against the cache, the device and the free map,
    with the stores through a null pointer carried out and every
    allocation granted. *)
Fixpoint run {A : Type} (p : prog A) (w : world) : option (A * world) :=
  match p with
  | Ret a => Some (a, w)
  | Undef => None
  | CacheRead s k =>
      match cache_read s w with
      | Some (c, w') => run (k c) w'
      | None => None
      end
  | CacheWrite c s k =>
      match cache_write c s w with
      | Some w' => run k w'
      | None => None
      end
  | FreeMapAllocate n k =>
      let (r, w') := free_map_allocate_non_consecutive n w in run (k r) w'
  | FreeMapRelease s k => run k (free_map_release s w)
  | NullStore k => run k w
  | Malloc k => run (k true) w
  end.

(** Running a program as it is written: a store through a null pointer
    is undefined behaviour, and [mem] is whether the allocation that the
    program makes is granted (a call of a function of the source
    allocates at most once). *)
Fixpoint run_strict {A : Type} (mem : bool) (p : prog A) (w : world)
  : option (A * world) :=
  match p with
  | Ret a => Some (a, w)
  | Undef => None
  | CacheRead s k =>
      match cache_read s w with
      | Some (c, w') => run_strict mem (k c) w'
      | None => None
      end
  | CacheWrite c s k =>
      match cache_write c s w with
      | Some w' => run_strict mem k w'
      | None => None
      end
  | FreeMapAllocate n k =>
      let (r, w') := free_map_allocate_non_consecutive n w in run_strict mem (k r) w'
  | FreeMapRelease s k => run_strict mem k (free_map_release s w)
  | NullStore _ => None
  | Malloc k => run_strict mem (k mem) w
  end.

(** The programs that store nothing through a null pointer. *)
Fixpoint null_free {A : Type} (p : prog A) : Prop :=
  match p with
  | Ret _ => True
  | Undef => True
  | CacheRead _ k => forall c, null_free (k c)
  | CacheWrite _ _ k => null_free k
  | FreeMapAllocate _ k => forall r, null_free (k r)
  | FreeMapRelease _ k => null_free k
  | NullStore _ => False
  | Malloc k => forall ok, null_free (k ok)
  end.

(** [arr[i]] and [arr[i] = v] on a C array held as a list. *)
Definition array_get (arr : list Z) (i : Z) : prog Z :=
  if (0 <=? i) && (i <? Z.of_nat (length arr))
  then Ret (nth (Z.to_nat i) arr 0) else Undef.

Fixpoint list_set (l : list Z) (n : nat) (v : Z) : list Z :=
  match l, n with
  | [], _ => []
  | _ :: t, O => v :: t
  | h :: t, S n' => h :: list_set t n' v
  end.

Definition array_set (arr : list Z) (i : Z) (v : Z) : list Z :=
  list_set arr (Z.to_nat i) v.

(** [for (int i = lo; i < lo + n; i++) body] with the loop state [s]. *)
Fixpoint for_loop {S : Type} (n : nat) (i : Z) (body : Z -> S -> prog S) (s : S)
  : prog S :=
  match n with
  | O => Ret s
  | Datatypes.S n' => s' <- body i s ;; for_loop n' (i + 1) body s'
  end.

(** ** On-disk and in-memory inodes (inode.c, lines 11-50) *)

Definition INODE_MAGIC : Z := 0x494e4f44.

Record inode_disk := mk_inode_disk {
  direct : list Z;
  indirect : Z;
  indirect_double : Z;
  d_length : Z;
  magic : Z;
  unused : list Z
}.

Record inode := mk_inode {
  sector : Z;
  open_cnt : Z;
  removed : bool;
  deny_write_cnt : Z
}.

(** A sector read as [struct inode_disk], and the struct as a sector. *)
Definition decode_inode_disk (c : list Z) : inode_disk :=
  let ws := read_words c in
  mk_inode_disk (firstn 12 ws) (nth 12 ws 0) (nth 13 ws 0)
    (wrap_int (nth 14 ws 0)) (nth 15 ws 0) (skipn 16 ws).

Definition encode_inode_disk (m : inode_disk) : list Z :=
  words_to_bytes
    (direct m ++ [indirect m; indirect_double m; d_length m; magic m] ++ unused m).

Definition set_direct (m : inode_disk) (d : list Z) : inode_disk :=
  mk_inode_disk d (indirect m) (indirect_double m) (d_length m) (magic m) (unused m).
Definition set_indirect (m : inode_disk) (s : Z) : inode_disk :=
  mk_inode_disk (direct m) s (indirect_double m) (d_length m) (magic m) (unused m).
Definition set_indirect_double (m : inode_disk) (s : Z) : inode_disk :=
  mk_inode_disk (direct m) (indirect m) s (d_length m) (magic m) (unused m).
Definition set_length (m : inode_disk) (n : Z) : inode_disk :=
  mk_inode_disk (direct m) (indirect m) (indirect_double m) n (magic m) (unused m).

(** ** Address translation (inode.c, lines 203-232) *)

Definition byte_to_sector (ino : inode) (pos : Z) : prog Z :=
  let sector_num := bytes_to_sectors pos in
  c <- p_cache_read_null (sector ino) ;;
  let inode_content := decode_inode_disk c in
  if sector_num <=? 12 then
    array_get (direct inode_content) (wrap_size_t (sector_num - 1))
  else if sector_num <=? 140 then
    let sector_num := wrap_size_t (sector_num - 12) in
    c1 <- p_cache_read (indirect inode_content) ;;
    array_get (read_words c1) (wrap_size_t (sector_num - 1))
  else
    let sector_num := wrap_size_t (sector_num - 140) in
    c2 <- p_cache_read (indirect_double inode_content) ;;
    s <- array_get (read_words c2) (sector_num / 128) ;;
    c1 <- p_cache_read s ;;
    array_get (read_words c1) (wrap_size_t (sector_num mod 128 - 1)).

(** The translation as the specification words it: zero-based sector
    index, 12 direct slots, 128 single-indirect slots, then two levels. *)
Definition translate_spec (ino : inode) (pos : Z) : prog Z :=
  let idx := pos / BLOCK_SECTOR_SIZE in
  c <- p_cache_read (sector ino) ;;
  let m := decode_inode_disk c in
  if idx <? 12 then array_get (direct m) idx
  else if idx <? 140 then
    c1 <- p_cache_read (indirect m) ;;
    array_get (read_words c1) (idx - 12)
  else
    c2 <- p_cache_read (indirect_double m) ;;
    s <- array_get (read_words c2) ((idx - 140) / 128) ;;
    c1 <- p_cache_read s ;;
    array_get (read_words c1) ((idx - 140) mod 128).

(** ** Resize (inode.c, lines 247-344) *)

(** Body of the loop over the direct pointers (lines 263-274).  The loop
    state is the array and [new_list_i]. *)
Definition resize_direct_body (size : Z) (new_block_list : list Z) (i : Z)
    (s : list Z * Z) : prog (list Z * Z) :=
  let '(direct, new_list_i) := s in
  d <- array_get direct i ;;
  if (size <=? BLOCK_SECTOR_SIZE * i) && negb (d =? 0) then
    p_free_map_release d ;;;
    Ret (array_set direct i 0, new_list_i)
  else if (size >? BLOCK_SECTOR_SIZE * i) && (d =? 0) then
    n <- array_get new_block_list new_list_i ;;
    z <- array_get new_block_list i ;;
    p_cache_write zeros z ;;;
    Ret (array_set direct i n, wrap_int (new_list_i + 1))
  else Ret s.

(** Body of the loops over a table of data-sector pointers: the
    single-indirect table (lines 289-298, [base = 12]) and a second-level
    table (lines 328-337, [base = 140 + i * 128]). *)
Definition resize_slot_body (size base : Z) (new_block_list : list Z) (j : Z)
    (s : list Z * Z) : prog (list Z * Z) :=
  let '(buffer, new_list_i) := s in
  b <- array_get buffer j ;;
  if (size <=? (base + j) * BLOCK_SECTOR_SIZE) && negb (b =? 0) then
    p_free_map_release b ;;;
    Ret (array_set buffer j 0, new_list_i)
  else if (size >? (base + j) * BLOCK_SECTOR_SIZE) && (b =? 0) then
    n <- array_get new_block_list new_list_i ;;
    Ret (array_set buffer j n, wrap_int (new_list_i + 1))
  else Ret s.

(** Body of the loop over the double-indirect table (lines 314-340). *)
Definition resize_double_body (size : Z) (new_block_list : list Z) (i : Z)
    (s : list Z * Z) : prog (list Z * Z) :=
  let '(buffer1, new_list_i) := s in
  b <- array_get buffer1 i ;;
  if (size <=? (140 + i) * BLOCK_SECTOR_SIZE) && negb (b =? 0) then
    p_free_map_release b ;;;
    Ret (array_set buffer1 i 0, new_list_i)
  else if size >? (140 + i) * BLOCK_SECTOR_SIZE then
    '(b1, buffer2, new_list_i) <-
       (if b =? 0 then
          n <- array_get new_block_list new_list_i ;;
          Ret (n, zero_words, wrap_int (new_list_i + 1))
        else
          c <- p_cache_read b ;;
          Ret (b, read_words c, new_list_i)) ;;
    '(buffer2, new_list_i) <-
       for_loop 128 0 (resize_slot_body size (140 + i * 128) new_block_list)
         (buffer2, new_list_i) ;;
    p_cache_write (words_to_bytes buffer2) b1 ;;;
    Ret (array_set buffer1 i b1, new_list_i)
  else Ret s.

Definition new_alloc_num (ind_d : inode_disk) (size : Z) : Z :=
  let num_block_old := bytes_to_blocks (d_length ind_d) in
  let num_block_new := bytes_to_blocks size in
  if wrap_size_t (num_block_new - num_block_old) >? 0
  then wrap_size_t (num_block_new - num_block_old) else 0.

(** [inode_resize] returns [success] and the struct as it leaves it. *)
Definition inode_resize (ind_d : inode_disk) (size : Z) : prog (bool * inode_disk) :=
  r <- p_free_map_allocate (new_alloc_num ind_d size) ;;
  match r with
  | None => Ret (false, ind_d)
  | Some new_block_list =>
      '(direct', new_list_i) <-
         for_loop 12 0 (resize_direct_body size new_block_list) (direct ind_d, 0) ;;
      let ind_d := set_direct ind_d direct' in
      if (indirect ind_d =? 0) && (size <=? 12 * BLOCK_SECTOR_SIZE) then
        Ret (true, set_length ind_d size)
      else
        '(ind_d, buffer, new_list_i) <-
           (if indirect ind_d =? 0 then
              n <- array_get new_block_list new_list_i ;;
              Ret (set_indirect ind_d n, zero_words, wrap_int (new_list_i + 1))
            else
              c <- p_cache_read (indirect ind_d) ;;
              Ret (ind_d, read_words c, new_list_i)) ;;
        '(buffer, new_list_i) <-
           for_loop 128 0 (resize_slot_body size 12 new_block_list)
             (buffer, new_list_i) ;;
        p_cache_write (words_to_bytes buffer) (indirect ind_d) ;;;
        if (indirect_double ind_d =? 0) && (size <=? 140 * BLOCK_SECTOR_SIZE) then
          Ret (true, set_length ind_d size)
        else
          '(ind_d, buffer1, new_list_i) <-
             (if indirect_double ind_d =? 0 then
                n <- array_get new_block_list new_list_i ;;
                Ret (set_indirect_double ind_d n, zero_words, wrap_int (new_list_i + 1))
              else
                c <- p_cache_read (indirect_double ind_d) ;;
                Ret (ind_d, read_words c, new_list_i)) ;;
          '(buffer1, new_list_i) <-
             for_loop 128 0 (resize_double_body size new_block_list)
               (buffer1, new_list_i) ;;
          p_cache_write (words_to_bytes buffer1) (indirect_double ind_d) ;;;
          Ret (true, set_length ind_d size)
  end.

(** ** Creation, length, close (inode.c, lines 346-373, 422-448, 594-599) *)

Definition fresh_inode_disk : inode_disk :=
  mk_inode_disk (repeat 0 12) 0 0 0 INODE_MAGIC (repeat 0 112).

(** [ASSERT (length >= 0)] stops the kernel when it fails; without the
    memory that [calloc] is asked for, nothing is done. *)
Definition inode_create (sec : Z) (length : Z) : prog bool :=
  if length <? 0 then Undef
  else
    disk_inode_ok <- p_malloc ;;
    if (disk_inode_ok : bool) then
      '(ok, disk_inode) <- inode_resize fresh_inode_disk length ;;
      if (ok : bool) then
        p_cache_write (encode_inode_disk disk_inode) sec ;;;
        Ret true
      else Ret false
    else Ret false.

Definition inode_length (ino : inode) : prog Z :=
  c <- p_cache_read_null (sector ino) ;;
  Ret (d_length (decode_inode_disk c)).

(** [inode_close] returns the handle, or [None] once it is freed. *)
Definition inode_close (ino : inode) : prog (option inode) :=
  let open_cnt' := wrap_int (open_cnt ino - 1) in
  if open_cnt' =? 0 then
    (if removed ino then
       c <- p_cache_read_null (sector ino) ;;
       inode_resize (decode_inode_disk c) 0 ;;;
       p_free_map_release (sector ino)
     else Ret tt) ;;;
    Ret None
  else Ret (Some (mk_inode (sector ino) open_cnt' (removed ino) (deny_write_cnt ino))).

Definition inode_remove (ino : inode) : inode :=
  mk_inode (sector ino) (open_cnt ino) true (deny_write_cnt ino).

(** ** Reading and writing (inode.c, lines 457-572) *)

(** The loop of [inode_read_at].  [buffer] holds the bytes copied out so
    far and [bounce] tells whether the bounce buffer has been allocated.
    Every iteration that does not leave the loop takes at least one byte
    off [size], so [Z.to_nat size] iterations are always enough. *)
Fixpoint read_loop (fuel : nat) (ino : inode) (size offset bytes_read : Z)
    (bounce : bool) (buffer : list Z) : prog (Z * list Z) :=
  match fuel with
  | O => Ret (bytes_read, buffer)
  | S fuel' =>
      if size >? 0 then
        sector_idx <- byte_to_sector ino offset ;;
        let sector_ofs := Z.rem offset BLOCK_SECTOR_SIZE in
        len <- inode_length ino ;;
        let inode_left := wrap_int (len - offset) in
        let sector_left := BLOCK_SECTOR_SIZE - sector_ofs in
        let min_left := if inode_left <? sector_left then inode_left else sector_left in
        let chunk_size := if size <? min_left then size else min_left in
        if chunk_size <=? 0 then Ret (bytes_read, buffer)
        else if (sector_ofs =? 0) && (chunk_size =? BLOCK_SECTOR_SIZE) then
          chunk <- p_cache_read sector_idx ;;
          read_loop fuel' ino (size - chunk_size) (wrap_int (offset + chunk_size))
            (bytes_read + chunk_size) bounce (buffer ++ chunk)
        else
          bounce_ok <- (if bounce then Ret true else p_malloc) ;;
          if (bounce_ok : bool) then
            sec_bytes <- p_cache_read sector_idx ;;
            read_loop fuel' ino (size - chunk_size) (wrap_int (offset + chunk_size))
              (bytes_read + chunk_size) true
              (buffer ++ firstn (Z.to_nat chunk_size)
                           (skipn (Z.to_nat sector_ofs) sec_bytes))
          else Ret (bytes_read, buffer)
      else Ret (bytes_read, buffer)
  end.

Definition inode_read_at (ino : inode) (size offset : Z) : prog (Z * list Z) :=
  read_loop (Z.to_nat size) ino size offset 0 false [].

(** The loop of [inode_write_at]; [buffer] is the caller's data. *)
Fixpoint write_loop (fuel : nat) (ino : inode) (buffer : list Z)
    (size offset bytes_written : Z) (bounce : bool) : prog Z :=
  match fuel with
  | O => Ret bytes_written
  | S fuel' =>
      if size >? 0 then
        sector_idx <- byte_to_sector ino offset ;;
        let sector_ofs := Z.rem offset BLOCK_SECTOR_SIZE in
        len <- inode_length ino ;;
        let inode_left := wrap_int (len - offset) in
        let sector_left := BLOCK_SECTOR_SIZE - sector_ofs in
        let min_left := if inode_left <? sector_left then inode_left else sector_left in
        let chunk_size := if size <? min_left then size else min_left in
        if chunk_size <=? 0 then Ret bytes_written
        else
          let src := skipn (Z.to_nat bytes_written) buffer in
          if (sector_ofs =? 0) && (chunk_size =? BLOCK_SECTOR_SIZE) then
            p_cache_write (firstn 512 src) sector_idx ;;;
            write_loop fuel' ino buffer (size - chunk_size)
              (wrap_int (offset + chunk_size)) (bytes_written + chunk_size) bounce
          else
            bounce_ok <- (if bounce then Ret true else p_malloc) ;;
            if (bounce_ok : bool) then
              sec_bytes <-
                (if (sector_ofs >? 0) || (chunk_size <? sector_left)
                 then p_cache_read sector_idx else Ret zeros) ;;
              p_cache_write
                (firstn (Z.to_nat sector_ofs) sec_bytes
                 ++ firstn (Z.to_nat chunk_size) src
                 ++ skipn (Z.to_nat (sector_ofs + chunk_size)) sec_bytes)
                sector_idx ;;;
              write_loop fuel' ino buffer (size - chunk_size)
                (wrap_int (offset + chunk_size)) (bytes_written + chunk_size) true
            else Ret bytes_written
      else Ret bytes_written
  end.

(** [inode_write_at]: the struct that [inode_resize] grows is the one read
    through the null pointer at line 522; nothing writes it back to the
    inode's sector.  The return at line 517 leaves the inode lock held. *)
Definition inode_write_at (ino : inode) (buffer : list Z) (size offset : Z)
  : prog Z :=
  if negb (deny_write_cnt ino =? 0) then Ret 0
  else
    let new_lenght := wrap_int (size + offset) in
    c <- p_cache_read_null (sector ino) ;;
    let ind_d := decode_inode_disk c in
    (if new_lenght >? d_length ind_d
     then inode_resize ind_d new_lenght ;;; Ret tt
     else Ret tt) ;;;
    write_loop (Z.to_nat size) ino buffer size offset 0 false.

(** ** Initial states and handles *)

Definition world0 (free : list Z) : world :=
  mk_world cache_init (fun _ => zeros) free [].

Definition handle (sec : Z) : inode := mk_inode sec 1 false 0.

Definition range (lo : Z) (n : nat) : list Z := map (fun k => lo + Z.of_nat k) (seq 0 n).

Definition result {A : Type} (r : option (A * world)) : option A := option_map fst r.
Definition after {A : Type} (r : option (A * world)) (d : world) : world :=
  match r with Some (_, w) => w | None => d end.

(** ** Logical view of the storage *)

(** What a read of sector [s] returns: the cached copy when a valid block
    holds [s], the device contents otherwise. *)
Definition view (w : world) (s : Z) : list Z :=
  match find (matches s) (cache w) with
  | Some b => content b
  | None => disk w s
  end.

(** Number of valid slots whose sector field is [s]. *)
Definition valid_count (s : Z) (l : list cache_block) : nat :=
  length (filter (matches s) l).

Definition cache_unique (l : list cache_block) : Prop :=
  forall s, (valid_count s l <= 1)%nat.

Definition cache_clean (l : list cache_block) (d : Z -> list Z) : Prop :=
  forall b, In b l -> is_valid b = true -> is_dirty b = false ->
            content b = d (bst b).

Definition cache_ok (w : world) : Prop :=
  cache w <> [] /\ cache_unique (cache w) /\ cache_clean (cache w) (disk w).

(** The states the cache goes through, from [cache_init] on. *)
Inductive cache_reachable : world -> Prop :=
| reach_init d fm lg : cache_reachable (mk_world cache_init d fm lg)
| reach_find w sec reader b w' :
    cache_reachable w ->
    find_block_and_acq_lock sec reader w = Some (b, w') ->
    cache_reachable w'
| reach_read w sec c w' :
    cache_reachable w -> cache_read sec w = Some (c, w') -> cache_reachable w'
| reach_write w src sec w' :
    cache_reachable w -> cache_write src sec w = Some w' -> cache_reachable w'
| reach_reset w : cache_reachable w -> cache_reachable (cache_reset w)
| reach_run (A : Type) (p : prog A) w a w' :
    cache_reachable w -> run p w = Some (a, w') -> cache_reachable w'.

(** ** The inode code over the logical view *)

Record fs_state := mk_fs {
  store : Z -> list Z;
  fs_free : list Z;
  fs_log : list Z
}.

Fixpoint run_fs {A : Type} (p : prog A) (s : fs_state) : option (A * fs_state) :=
  match p with
  | Ret a => Some (a, s)
  | Undef => None
  | CacheRead x k => run_fs (k (store s x)) s
  | CacheWrite c x k => run_fs k (mk_fs (upd (store s) x c) (fs_free s) (fs_log s))
  | FreeMapAllocate n k =>
      if n <=? Z.of_nat (length (fs_free s)) then
        run_fs (k (Some (firstn (Z.to_nat n) (fs_free s))))
          (mk_fs (store s) (skipn (Z.to_nat n) (fs_free s)) (fs_log s ++ [n]))
      else run_fs (k None) (mk_fs (store s) (fs_free s) (fs_log s ++ [n]))
  | FreeMapRelease x k => run_fs k (mk_fs (store s) (x :: fs_free s) (fs_log s))
  | NullStore k => run_fs k s
  | Malloc k => run_fs (k true) s
  end.

Definition abs (w : world) : fs_state :=
  mk_fs (view w) (free_map w) (alloc_log w).

Definition fs_eq (s s' : fs_state) : Prop :=
  (forall x, store s x = store s' x)
  /\ fs_free s = fs_free s' /\ fs_log s = fs_log s'.

(** ** Layout of a resized inode *)

Definition valid_sector (x : Z) : Prop := 0 < x < 2 ^ 32.

Definition words_ok (buf : list Z) : Prop :=
  length buf = 128%nat /\ Forall (fun x => 0 <= x < 2 ^ 32) buf.

(** Slot [j] of a table is allocated exactly when [size] reaches past the
    first byte of the sector it stands for. *)
Definition slot_ok (size first : Z) (v : Z) : Prop :=
  (v =? 0) = negb (size >? first * BLOCK_SECTOR_SIZE).

Definition direct_ok (size : Z) (d : list Z) : Prop :=
  length d = 12%nat
  /\ forall i, (i < 12)%nat -> slot_ok size (Z.of_nat i) (nth i d 0).

Definition slots_ok (size base : Z) (buf : list Z) : Prop :=
  words_ok buf
  /\ forall j, (j < 128)%nat -> slot_ok size (base + Z.of_nat j) (nth j buf 0).

(** The sector [x] of [st] holds the table [buf]. *)
Definition holds (st : Z -> list Z) (x : Z) (buf : list Z) : Prop :=
  st x = words_to_bytes buf.

Definition double_ok (size : Z) (st : Z -> list Z) (buf1 : list Z) : Prop :=
  words_ok buf1
  /\ forall i, (i < 128)%nat ->
       slot_ok size (140 + Z.of_nat i) (nth i buf1 0)
       /\ (nth i buf1 0 <> 0 ->
           exists buf2, holds st (nth i buf1 0) buf2
                        /\ slots_ok size (140 + Z.of_nat i * 128) buf2).

(** The pointers of [m] and the index sectors in [st] are those of an
    inode that [inode_resize] has brought to [size]. *)
Definition layout_ok (size : Z) (m : inode_disk) (st : Z -> list Z) : Prop :=
  direct_ok size (direct m) /\ d_length m = size
  /\ ((indirect m = 0 /\ size <= 12 * BLOCK_SECTOR_SIZE)
      \/ (indirect m <> 0
          /\ (exists buf, holds st (indirect m) buf /\ slots_ok size 12 buf)
          /\ ((indirect_double m = 0 /\ size <= 140 * BLOCK_SECTOR_SIZE)
              \/ (indirect_double m <> 0
                  /\ exists buf1, holds st (indirect_double m) buf1
                                  /\ double_ok size st buf1)))).

(** The index sectors of the inode [m]: the single-indirect table, the
    double-indirect table and the second-level tables it lists. *)
Definition nonzero (x : Z) : bool := negb (x =? 0).

Definition index_sectors (st : Z -> list Z) (m : inode_disk) : list Z :=
  indirect m :: indirect_double m
  :: filter nonzero (read_words (st (indirect_double m))).

(** What [find_block_and_acq_lock] returns and leaves behind. *)
Record find_post (sec : Z) (w : world) (b : cache_block) (w' : world) : Prop := {
  fp_head : exists rest, cache w' = b :: rest;
  fp_matches : matches sec b = true;
  fp_content : content b = view w sec;
  fp_view : forall x, view w' x = view w x;
  fp_ok : cache_ok w';
  fp_length : length (cache w') = length (cache w);
  fp_free : free_map w' = free_map w;
  fp_log : alloc_log w' = alloc_log w
}.

(** Agreement of a run against the cache with a run over the view. *)
Definition sim_result {A : Type} (r : option (A * world))
    (r' : option (A * fs_state)) : Prop :=
  match r, r' with
  | Some (a, w'), Some (a', s') => a = a' /\ cache_ok w' /\ fs_eq (abs w') s'
  | None, None => True
  | _, _ => False
  end.

Definition same_result {A : Type} (r r' : option (A * fs_state)) : Prop :=
  match r, r' with
  | Some (a, s), Some (a', s') => a = a' /\ fs_eq s s'
  | None, None => True
  | _, _ => False
  end.

Definition cache_shape (w : world) : Prop :=
  length (cache w) = 64%nat /\ cache_unique (cache w).

(** ** Sample states *)

(** A two-sector file at inode sector 2, made by [inode_create] on an
    empty device whose free sectors are 100, 101, ... *)
Definition small_file : world :=
  after (run (inode_create 2 1024) (world0 (range 100 50))) (world0 []).

(** A one-sector file and an empty file, made the same way. *)
Definition one_sector_file : world :=
  after (run (inode_create 2 512) (world0 (range 100 50))) (world0 []).

Definition empty_file : world :=
  after (run (inode_create 2 0) (world0 (range 100 50))) (world0 []).

(** A device on which free sector 113 still holds the bytes of a file
    deleted earlier. *)
Definition stale_world : world :=
  mk_world cache_init (fun s => if s =? 113 then repeat 255 512 else zeros)
    (range 100 50) [].

Definition thirteen_sector_file : world :=
  after (run (inode_create 2 (13 * 512)) stale_world) (world0 []).

(** A 300-sector file laid out by hand: direct sectors 100-111, the
    single-indirect table in sector 112 (data 200-327), the double-indirect
    table in sector 113, second-level tables in sectors 114 (data 500-627)
    and 115 (data 700-731). *)
Definition big_inode_disk : inode_disk :=
  mk_inode_disk (range 100 12) 112 113 (300 * 512) INODE_MAGIC (repeat 0 112).

Definition big_file : world :=
  mk_world cache_init
    (fun s =>
       if s =? 2 then encode_inode_disk big_inode_disk
       else if s =? 112 then words_to_bytes (range 200 128)
       else if s =? 113 then words_to_bytes ([114; 115] ++ repeat 0 126)
       else if s =? 114 then words_to_bytes (range 500 128)
       else if s =? 115 then words_to_bytes (range 700 32 ++ repeat 0 96)
       else zeros)
    (range 1000 100) [].

(** A byte pattern without zero bytes. *)
Definition pattern (n : nat) : list Z :=
  map (fun k => Z.of_nat k mod 251 + 1) (seq 0 n).

(** The two-sector file after 512 pattern bytes are written at offset 512,
    and the empty file after two bytes are written at offset 1. *)
Definition small_file_written : world :=
  after (run (inode_write_at (handle 2) (pattern 512) 512 512) small_file)
    small_file.

Definition empty_file_written : world :=
  after (run (inode_write_at (handle 2) [7; 7] 2 1) empty_file) empty_file.

(** The 300-sector file with the index sectors that [inode_resize] itself
    keeps for that length: every entry of the double-indirect table (sector
    113) names a second-level table (sectors 114-241), of which the first
    two list data sectors. *)
Definition resized_file : world :=
  mk_world cache_init
    (fun s =>
       if s =? 2 then encode_inode_disk big_inode_disk
       else if s =? 112 then words_to_bytes (range 200 128)
       else if s =? 113 then words_to_bytes (range 114 128)
       else if s =? 114 then words_to_bytes (range 500 128)
       else if s =? 115 then words_to_bytes (range 700 32 ++ repeat 0 96)
       else zeros)
    (range 1000 100) [].

Definition resized_file_again : world :=
  after (run (inode_resize big_inode_disk (300 * 512)) resized_file) resized_file.

(** The two-sector file grown to 13 sectors by [inode_resize] on the
    struct held in its inode sector. *)
Definition small_file_grown : option (bool * inode_disk * world) :=
  run (inode_resize (decode_inode_disk (view small_file 2)) (13 * 512)) small_file.

Definition grown_inode_disk : inode_disk :=
  match small_file_grown with
  | Some (_, m1, _) => m1
  | None => fresh_inode_disk
  end.

Definition grown_world : world := after small_file_grown small_file.

(** Boolean checks for the side conditions on sample states. *)
Fixpoint nodupb (l : list Z) : bool :=
  match l with
  | [] => true
  | x :: t => negb (existsb (Z.eqb x) t) && nodupb t
  end.

Definition valid_sectorb (x : Z) : bool := (0 <? x) && (x <? 2 ^ 32).

(** ** Sequences of cache operations *)

Inductive cache_op : Type :=
| OpRead (sec : Z)
| OpWrite (src : list Z) (sec : Z).

Definition op_sector (o : cache_op) : Z :=
  match o with
  | OpRead sec => sec
  | OpWrite _ sec => sec
  end.

(** [cache_read] and [cache_write] calls made one after the other. *)
Fixpoint cache_ops (ops : list cache_op) (w : world) : option world :=
  match ops with
  | [] => Some w
  | OpRead sec :: rest =>
      match cache_read sec w with
      | Some (_, w') => cache_ops rest w'
      | None => None
      end
  | OpWrite src sec :: rest =>
      match cache_write src sec w with
      | Some w' => cache_ops rest w'
      | None => None
      end
  end.

(** Some valid slot holds [sec]. *)
Definition cached (sec : Z) (w : world) : bool := existsb (matches sec) (cache w).

(** Position, from the most recently used end, of the first valid slot
    holding [sec]. *)
Fixpoint pos_of (sec : Z) (l : list cache_block) : option nat :=
  match l with
  | [] => None
  | b :: rest => if matches sec b then Some O else option_map S (pos_of sec rest)
  end.

(** The counters summed without the wrap-around of [int]. *)
Definition total_hits (l : list cache_block) : Z :=
  fold_right (fun b acc => hit_cnt b + acc) 0 l.

Definition total_misses (l : list cache_block) : Z :=
  fold_right (fun b acc => miss_cnt b + acc) 0 l.

Definition counters_at (n : Z) (l : list cache_block) : Prop :=
  (forall b, In b l -> 0 <= hit_cnt b /\ 0 <= miss_cnt b)
  /\ total_hits l + total_misses l = n.


(** ** Well-formed inode structs *)

Definition word32 (x : Z) : Prop := 0 <= x < 2 ^ 32.

(** The struct has its 12 direct pointers and 112 unused words, its
    unsigned fields fit [uint32_t], and its length is a non-negative
    [off_t]. *)
Definition wf_inode_disk (m : inode_disk) : Prop :=
  length (direct m) = 12%nat /\ length (unused m) = 112%nat
  /\ Forall word32 (direct m) /\ Forall word32 (unused m)
  /\ word32 (indirect m) /\ word32 (indirect_double m) /\ word32 (magic m)
  /\ 0 <= d_length m < 2 ^ 31.


(** ** The list of open inodes (inode.c, lines 234-245, 375-455) *)

(** [open_inodes] is the list of handles; a handle is found by its sector
    number, and a null pointer is [None]. *)
Definition inode_init : list inode := [].

Definition inode_reopen (ino : inode) : inode :=
  mk_inode (sector ino) (wrap_int (open_cnt ino + 1)) (removed ino)
    (deny_write_cnt ino).

(** The search loop of [inode_open]: the first handle for [sec] is
    reopened in place. *)
Fixpoint reopen_in (sec : Z) (open_inodes : list inode)
  : option (inode * list inode) :=
  match open_inodes with
  | [] => None
  | ino :: rest =>
      if sector ino =? sec then Some (inode_reopen ino, inode_reopen ino :: rest)
      else match reopen_in sec rest with
           | Some (h, rest') => Some (h, ino :: rest')
           | None => None
           end
  end.

(** [inode_open] returns the pointer and leaves the list; [malloc_ok] is
    whether [malloc] returns memory for a new handle. *)
Definition inode_open (malloc_ok : bool) (sec : Z) (open_inodes : list inode)
  : option inode * list inode :=
  match reopen_in sec open_inodes with
  | Some (h, l) => (Some h, l)
  | None =>
      if malloc_ok then
        let ino := mk_inode sec 1 false 0 in (Some ino, ino :: open_inodes)
      else (None, open_inodes)
  end.

Definition inode_get_inumber (ino : inode) : Z := sector ino.

(** [inode_close] on the handle for [sec] in the list: the handle is
    updated in place, or unlinked when [inode_close] frees it.  Closing a
    handle that is no longer in the list uses freed memory. *)
Fixpoint close_in (sec : Z) (open_inodes : list inode) : prog (list inode) :=
  match open_inodes with
  | [] => Undef
  | ino :: rest =>
      if sector ino =? sec then
        r <- inode_close ino ;;
        Ret (match r with Some ino' => ino' :: rest | None => rest end)
      else
        rest' <- close_in sec rest ;;
        Ret (ino :: rest')
  end.

(** [inode_close] on the pointer that [inode_open] returned: a null
    pointer is ignored (lines 427-428). *)
Definition close_opened (r : option inode * list inode) : prog (list inode) :=
  match r with
  | (None, open_inodes) => Ret open_inodes
  | (Some ino, open_inodes) => close_in (sector ino) open_inodes
  end.

(** Every handle in the list has at least one opener, and fewer than
    [INT_MAX]. *)
Definition counts_ok (open_inodes : list inode) : Prop :=
  Forall (fun ino => 1 <= open_cnt ino < 2 ^ 31 - 1) open_inodes.


(** * Properties *)

(** ** Sector counts *)

Lemma wrap_size_t_small x : 0 <= x < 2 ^ 32 -> wrap_size_t x = x.
Proof. intros H. unfold wrap_size_t. apply Z.mod_small. exact H. Qed.

Lemma wrap_int_small x : - 2 ^ 31 <= x < 2 ^ 31 -> wrap_int x = x.
Proof.
  intros H. unfold wrap_int. rewrite Z.mod_small; lia.
Qed.

Lemma bytes_to_sectors_ceil size :
  0 <= size < 2 ^ 31 - 511 ->
  bytes_to_sectors size = ceil_div size BLOCK_SECTOR_SIZE.
Proof.
  intros H. unfold bytes_to_sectors, DIV_ROUND_UP, ceil_div, BLOCK_SECTOR_SIZE.
  rewrite wrap_int_small by lia.
  rewrite Z.quot_div_nonneg by lia.
  apply wrap_size_t_small.
  split.
  - apply Z.div_pos; lia.
  - apply Z.div_lt_upper_bound; lia.
Qed.

Lemma bytes_to_sectors_bound size :
  0 <= size < 2 ^ 31 - 511 -> 0 <= bytes_to_sectors size <= 2 ^ 22.
Proof.
  intros H. rewrite bytes_to_sectors_ceil by exact H.
  unfold ceil_div, BLOCK_SECTOR_SIZE. split.
  - apply Z.div_pos; lia.
  - assert ((size + 512 - 1) / 512 < 2 ^ 22 + 1); [|lia].
    apply Z.div_lt_upper_bound; lia.
Qed.

(** [bytes_to_blocks] without the wrap-around, on lengths an [off_t] can
    hold: the last case rounds down. *)
Lemma bytes_to_blocks_cases size :
  0 <= size < 2 ^ 31 - 511 ->
  let d := bytes_to_sectors size in
  bytes_to_blocks size =
    if d <=? 12 then d + 1
    else if d <=? 140 then d + 2
    else d + (d - 140) / 128 + 3.
Proof.
  intros H d. pose proof (bytes_to_sectors_bound size H) as Hb. fold d in Hb.
  unfold bytes_to_blocks. fold d. change (128 + 12) with 140.
  destruct (d <=? 12) eqn:E1; [apply wrap_size_t_small; lia|].
  destruct (d <=? 140) eqn:E2; [apply wrap_size_t_small; lia|].
  apply Z.leb_gt in E2.
  rewrite (wrap_size_t_small (d - 140)) by lia.
  apply wrap_size_t_small.
  assert (0 <= (d - 140) / 128) by (apply Z.div_pos; lia).
  assert ((d - 140) / 128 < 2 ^ 22) by (apply Z.div_lt_upper_bound; lia).
  lia.
Qed.

(** C6 (defect): for a length of 141 sectors, [bytes_to_blocks] returns 144,
    one less than the 145 of the specified block count: the second-level
    index sector that the one sector beyond 140 needs is not counted.  The
    two agree on 140 sectors and on 268 sectors, where the sectors beyond
    140 fill a whole second-level table. *)
Theorem bytes_to_blocks_rounds_down :
  bytes_to_blocks (141 * 512) = 144
  /\ block_count_spec (141 * 512) = 145
  /\ bytes_to_blocks (140 * 512) = block_count_spec (140 * 512)
  /\ bytes_to_blocks (268 * 512) = block_count_spec (268 * 512).
Proof. repeat split; vm_compute; reflexivity. Qed.

(** ** The buffer cache *)

Section CacheScan.

Variable sec : Z.

Lemma cache_scan_nonempty l :
  l <> [] -> exists pre b post nf, cache_scan sec l = Some (pre, b, post, nf).
Proof.
  destruct l as [|b rest]; [congruence|]. intros _. simpl.
  destruct (matches sec b); [eauto|].
  destruct (cache_scan sec rest) as [[[[pre b'] post] nf]|]; eauto.
Qed.

Lemma cache_scan_split l pre b post nf :
  cache_scan sec l = Some (pre, b, post, nf) ->
  l = pre ++ b :: post
  /\ (forall x, In x pre -> matches sec x = false)
  /\ (if nf then post = [] /\ matches sec b = false else matches sec b = true).
Proof.
  revert pre b post nf. induction l as [|a rest IH]; intros pre b post nf H.
  - discriminate.
  - simpl in H. destruct (matches sec a) eqn:Ea.
    + inversion H; subst. repeat split; auto. intros x [].
    + destruct (cache_scan sec rest) as [[[[pre' b'] post'] nf']|] eqn:Es.
      * inversion H; subst. destruct (IH _ _ _ _ eq_refl) as (Hl & Hp & Hn).
        subst rest. repeat split; auto.
        intros x [Hx|Hx]; [subst; exact Ea|auto].
      * inversion H; subst. destruct rest as [|r rest'].
        -- repeat split; auto. intros x [].
        -- exfalso. destruct (cache_scan_nonempty (r :: rest')) as (?&?&?&?&E);
             [discriminate|congruence].
Qed.

End CacheScan.

Lemma valid_count_app s l1 l2 :
  valid_count s (l1 ++ l2) = (valid_count s l1 + valid_count s l2)%nat.
Proof. unfold valid_count. rewrite filter_app, length_app. reflexivity. Qed.

Lemma valid_count_cons s b l :
  valid_count s (b :: l)
  = ((if matches s b then 1 else 0) + valid_count s l)%nat.
Proof. unfold valid_count. simpl. destruct (matches s b); reflexivity. Qed.

Lemma valid_count_none s l :
  (forall x, In x l -> matches s x = false) -> valid_count s l = 0%nat.
Proof.
  induction l as [|a l IH]; intros H; [reflexivity|].
  rewrite valid_count_cons, (H a) by (left; reflexivity).
  apply IH. intros x Hx. apply H. right. exact Hx.
Qed.

Lemma valid_count_in s x l :
  In x l -> matches s x = true -> (1 <= valid_count s l)%nat.
Proof.
  induction l as [|a l IH]; intros Hin Hm; [contradiction|].
  rewrite valid_count_cons. destruct Hin as [->|Hin].
  - rewrite Hm. lia.
  - specialize (IH Hin Hm). lia.
Qed.

Lemma find_none_pre s (pre l : list cache_block) :
  (forall x, In x pre -> matches s x = false) ->
  find (matches s) (pre ++ l) = find (matches s) l.
Proof.
  induction pre as [|a pre IH]; intros H; [reflexivity|].
  simpl. rewrite (H a) by (left; reflexivity).
  apply IH. intros x Hx. apply H. right. exact Hx.
Qed.

Lemma find_skip s (pre post : list cache_block) b :
  matches s b = false ->
  find (matches s) (pre ++ b :: post) = find (matches s) (pre ++ post).
Proof.
  intros Hb. induction pre as [|a pre IH]; simpl.
  - rewrite Hb. reflexivity.
  - destruct (matches s a); [reflexivity|exact IH].
Qed.

Lemma matches_same s b b' :
  is_valid b' = is_valid b -> bst b' = bst b -> matches s b' = matches s b.
Proof. unfold matches. intros -> ->. reflexivity. Qed.

Lemma matches_bst s x b :
  matches s b = true -> matches x b = true -> x = s.
Proof.
  unfold matches. intros H1 H2.
  apply andb_true_iff in H1 as [_ H1]. apply andb_true_iff in H2 as [_ H2].
  apply Z.eqb_eq in H1, H2. congruence.
Qed.

Lemma unique_perm pre b b' post :
  (forall s, matches s b' = matches s b) ->
  cache_unique (pre ++ b :: post) -> cache_unique (b' :: pre ++ post).
Proof.
  intros Hm Hu s. specialize (Hu s).
  rewrite valid_count_app, valid_count_cons in Hu.
  rewrite valid_count_cons, valid_count_app, Hm. lia.
Qed.

Lemma unique_miss sec pre b b' :
  (forall x, In x (pre ++ [b]) -> matches sec x = false) ->
  is_valid b' = true -> bst b' = sec ->
  cache_unique (pre ++ [b]) -> cache_unique (b' :: pre ++ []).
Proof.
  intros Hnone Hv Hb Hu s. rewrite app_nil_r, valid_count_cons.
  specialize (Hu s). rewrite valid_count_app in Hu.
  unfold matches at 1. rewrite Hv, Hb. simpl.
  destruct (sec =? s) eqn:E.
  - apply Z.eqb_eq in E. subst s.
    rewrite (valid_count_none sec pre); [lia|].
    intros x Hx. apply Hnone. apply in_or_app. left. exact Hx.
  - lia.
Qed.

Lemma find_block_unique sec reader w b w' :
  cache_unique (cache w) ->
  find_block_and_acq_lock sec reader w = Some (b, w') ->
  cache_unique (cache w') /\ length (cache w') = length (cache w).
Proof.
  intros Hu H. unfold find_block_and_acq_lock in H.
  destruct (cache_scan sec (cache w)) as [[[[pre b0] post] nf]|] eqn:Es;
    [|discriminate].
  destruct (cache_scan_split _ _ _ _ _ _ Es) as (Hl & Hpre & Hnf).
  rewrite Hl in Hu. rewrite Hl.
  destruct nf; inversion H; subst; clear H; simpl.
  - destruct Hnf as [-> Hb0]. split.
    + eapply unique_miss; eauto.
      intros x Hx. apply in_app_or in Hx as [Hx|[<-|[]]]; auto.
    + rewrite !length_app. simpl. lia.
  - split.
    + eapply unique_perm; [|exact Hu]. intros s. apply matches_same; reflexivity.
    + rewrite !length_app. simpl. lia.
Qed.

Lemma cache_write_unique src sec w w' :
  cache_unique (cache w) ->
  cache_write src sec w = Some w' ->
  cache_unique (cache w') /\ length (cache w') = length (cache w).
Proof.
  intros Hu H. unfold cache_write in H.
  destruct (find_block_and_acq_lock sec false w) as [[b w1]|] eqn:Ef;
    [|discriminate].
  inversion H; subst; clear H. simpl.
  destruct (find_block_unique _ _ _ _ _ Hu Ef) as [Hu1 Hlen].
  unfold find_block_and_acq_lock in Ef.
  destruct (cache_scan sec (cache w)) as [[[[pre b0] post] nf]|]; [|discriminate].
  assert (Hc : exists rest, cache w1 = b :: rest).
  { destruct nf; inversion Ef; subst; simpl; eauto. }
  destruct Hc as [rest Hc]. rewrite Hc in *. simpl. split; [|exact Hlen].
  intros s. specialize (Hu1 s). rewrite valid_count_cons in *.
  rewrite (matches_same s b) by reflexivity. exact Hu1.
Qed.

Lemma find_none s (l : list cache_block) :
  (forall x, In x l -> matches s x = false) -> find (matches s) l = None.
Proof.
  intros H. rewrite <- (app_nil_r l). rewrite find_none_pre by exact H.
  reflexivity.
Qed.

Lemma find_app_cases s (l1 l2 : list cache_block) :
  find (matches s) (l1 ++ l2)
  = match find (matches s) l1 with
    | Some a => Some a
    | None => find (matches s) l2
    end.
Proof.
  induction l1 as [|a l1 IH]; simpl; [reflexivity|].
  destruct (matches s a); [reflexivity|exact IH].
Qed.

Lemma matches_other sec x b :
  matches sec b = true -> x <> sec -> matches x b = false.
Proof.
  intros H Hx. destruct (matches x b) eqn:E; [|reflexivity].
  exfalso. apply Hx. eapply matches_bst; eauto.
Qed.

Lemma matches_false_valid x b :
  matches x b = false -> is_valid b = true -> (x =? bst b) = false.
Proof.
  unfold matches. intros H Hv. rewrite Hv in H. simpl in H.
  rewrite Z.eqb_sym. exact H.
Qed.

Lemma find_block_miss_post sec w pre b0 :
  cache_ok w ->
  cache w = pre ++ [b0] ->
  (forall x, In x (pre ++ [b0]) -> matches sec x = false) ->
  let d := if is_valid b0 && is_dirty b0
           then block_write (disk w) (bst b0) (content b0) else disk w in
  let b' := mk_cache_block (block_read d sec) false true sec
              (hit_cnt b0) (wrap_int (miss_cnt b0 + 1)) in
  find_post sec w b' (mk_world (b' :: pre ++ []) d (free_map w) (alloc_log w)).
Proof.
  intros (Hne & Hu & Hc) Hl Hnone d b'.
  assert (Hb0 : matches sec b0 = false).
  { apply Hnone. apply in_or_app. right. left. reflexivity. }
  assert (Hd : forall x, matches x b0 = false -> d x = disk w x).
  { intros x Hx. unfold d. destruct (is_valid b0) eqn:Ev; [|reflexivity].
    destruct (is_dirty b0); [|reflexivity]. simpl.
    unfold block_write, upd. rewrite (matches_false_valid x b0 Hx Ev).
    reflexivity. }
  assert (Hmb : matches sec b' = true).
  { unfold matches. simpl. apply Z.eqb_refl. }
  assert (Hview : forall x, view (mk_world (b' :: pre ++ []) d (free_map w)
                                    (alloc_log w)) x = view w x).
  { intros x. unfold view. simpl. rewrite Hl, app_nil_r.
    destruct (Z.eq_dec x sec) as [->|Hx].
    - rewrite Hmb. rewrite (find_none sec (pre ++ [b0])) by exact Hnone.
      simpl. unfold block_read. apply Hd. exact Hb0.
    - rewrite (matches_other sec x b' Hmb Hx).
      rewrite find_app_cases.
      destruct (find (matches x) pre) as [a|]; [reflexivity|].
      simpl. destruct (matches x b0) eqn:Ex.
      + unfold matches in Ex. apply andb_true_iff in Ex as [Ev Eb].
        apply Z.eqb_eq in Eb. unfold d. rewrite Ev. simpl.
        destruct (is_dirty b0) eqn:Edirty.
        * unfold block_write, upd. rewrite <- Eb, Z.eqb_refl. reflexivity.
        * rewrite <- Eb. symmetry. apply Hc; auto.
          rewrite Hl. apply in_or_app. right. left. reflexivity.
      + apply Hd. exact Ex. }
  constructor.
  - simpl. eauto.
  - exact Hmb.
  - unfold view. rewrite Hl, (find_none sec (pre ++ [b0])) by exact Hnone.
    unfold block_read. apply Hd. exact Hb0.
  - exact Hview.
  - repeat split.
    + discriminate.
    + simpl. eapply unique_miss; eauto. rewrite <- Hl. exact Hu.
    + intros y Hy Hv Hclean. simpl. destruct Hy as [<-|Hy].
      * reflexivity.
      * rewrite app_nil_r in Hy.
        assert (Hin : In y (cache w)).
        { rewrite Hl. apply in_or_app. left. exact Hy. }
        rewrite (Hc y Hin Hv Hclean). symmetry. apply Hd.
        destruct (matches (bst y) b0) eqn:E; [|reflexivity].
        exfalso. specialize (Hu (bst y)).
        rewrite Hl, valid_count_app, valid_count_cons, E in Hu.
        assert (1 <= valid_count (bst y) pre)%nat.
        { eapply valid_count_in; [exact Hy|].
          unfold matches. rewrite Hv. simpl. apply Z.eqb_refl. }
        lia.
  - simpl. rewrite Hl, !length_app. simpl. lia.
  - reflexivity.
  - reflexivity.
Qed.

Lemma find_block_hit_post sec w pre b0 post :
  cache_ok w ->
  cache w = pre ++ b0 :: post ->
  (forall x, In x pre -> matches sec x = false) ->
  matches sec b0 = true ->
  let b' := mk_cache_block (content b0) (is_dirty b0) (is_valid b0) (bst b0)
              (wrap_int (hit_cnt b0 + 1)) (miss_cnt b0) in
  find_post sec w b'
    (mk_world (b' :: pre ++ post) (disk w) (free_map w) (alloc_log w)).
Proof.
  intros (Hne & Hu & Hc) Hl Hpre Hb0 b'.
  assert (Hm : forall s, matches s b' = matches s b0).
  { intros s. apply matches_same; reflexivity. }
  assert (Hfind : find (matches sec) (cache w) = Some b0).
  { rewrite Hl, find_none_pre by exact Hpre. simpl. rewrite Hb0. reflexivity. }
  constructor.
  - simpl. eauto.
  - rewrite Hm. exact Hb0.
  - unfold view. rewrite Hfind. reflexivity.
  - intros x. unfold view. cbn [cache disk find]. rewrite Hm, Hl.
    destruct (matches x b0) eqn:Ex.
    + assert (x = sec) by (eapply matches_bst; eauto). subst x.
      rewrite find_none_pre by exact Hpre. simpl. rewrite Hb0. reflexivity.
    + rewrite find_skip by exact Ex. reflexivity.
  - repeat split.
    + discriminate.
    + simpl. eapply unique_perm; [exact Hm|]. rewrite <- Hl. exact Hu.
    + intros y Hy Hv Hclean. simpl. destruct Hy as [<-|Hy].
      * simpl in *. apply (Hc b0); auto.
        rewrite Hl. apply in_or_app. right. left. reflexivity.
      * apply Hc; auto. rewrite Hl.
        apply in_app_or in Hy as [Hy|Hy]; apply in_or_app;
          [left|right; right]; exact Hy.
  - simpl. rewrite Hl, !length_app. simpl. lia.
  - reflexivity.
  - reflexivity.
Qed.

Lemma find_block_post sec reader w :
  cache_ok w ->
  exists b w', find_block_and_acq_lock sec reader w = Some (b, w')
               /\ find_post sec w b w'.
Proof.
  intros Hok. pose proof Hok as (Hne & _ & _).
  destruct (cache_scan_nonempty sec _ Hne) as (pre & b0 & post & nf & Es).
  destruct (cache_scan_split _ _ _ _ _ _ Es) as (Hl & Hpre & Hnf).
  unfold find_block_and_acq_lock. rewrite Es. destruct nf.
  - destruct Hnf as [-> Hb0]. do 2 eexists. split; [reflexivity|].
    apply find_block_miss_post; auto.
    intros x Hx. apply in_app_or in Hx as [Hx|[<-|[]]]; auto.
  - do 2 eexists. split; [reflexivity|].
    apply find_block_hit_post; auto.
Qed.

(** A read returns the logical contents and leaves them as they are. *)
Lemma cache_read_view sec w :
  cache_ok w ->
  exists w', cache_read sec w = Some (view w sec, w')
             /\ cache_ok w' /\ fs_eq (abs w') (abs w).
Proof.
  intros Hok. destruct (find_block_post sec true w Hok) as (b & w' & Ef & Hp).
  exists w'. unfold cache_read. rewrite Ef. destruct Hp.
  rewrite fp_content0. split; [reflexivity|]. split; [assumption|].
  split; [|split]; simpl; assumption.
Qed.

(** A write replaces the logical contents of its sector and no other. *)
Lemma cache_write_view src sec w :
  cache_ok w ->
  exists w', cache_write src sec w = Some w'
             /\ cache_ok w'
             /\ fs_eq (abs w') (mk_fs (upd (view w) sec src) (free_map w) (alloc_log w)).
Proof.
  intros Hok. destruct (find_block_post sec false w Hok) as (b & w1 & Ef & Hp).
  unfold cache_write. rewrite Ef. eexists. split; [reflexivity|].
  destruct Hp. destruct fp_head0 as [rest Hc1].
  destruct fp_ok0 as (_ & Hu1 & Hcl1). rewrite Hc1 in *. simpl.
  set (b2 := mk_cache_block src true (is_valid b) (bst b) (hit_cnt b) (miss_cnt b)).
  assert (Hm : forall s, matches s b2 = matches s b).
  { intros s. apply matches_same; reflexivity. }
  split; [|split; [|split]]; simpl; auto.
  - repeat split; simpl.
    + discriminate.
    + intros s. specialize (Hu1 s). rewrite valid_count_cons in *.
      rewrite Hm. exact Hu1.
    + intros y [<-|Hy] Hv Hclean; [discriminate|].
      apply Hcl1; auto. right. exact Hy.
  - intros x. unfold upd.
    destruct (Z.eqb_spec x sec) as [->|Hx].
    + unfold view. cbn [cache find]. rewrite Hm, fp_matches0. reflexivity.
    + rewrite <- fp_view0. unfold view. rewrite Hc1. cbn [cache disk find].
      rewrite Hm, (matches_other sec x b fp_matches0 Hx). reflexivity.
Qed.

Lemma cache_init_unique : cache_unique cache_init.
Proof.
  intros s. rewrite valid_count_none; [lia|].
  intros x Hx. apply repeat_spec in Hx. subst x. reflexivity.
Qed.

Lemma cache_init_ok d fm lg : cache_ok (mk_world cache_init d fm lg).
Proof.
  repeat split; simpl.
  - discriminate.
  - apply cache_init_unique.
  - intros b Hb Hv. apply repeat_spec in Hb. subst b. discriminate.
Qed.

Lemma run_shape (A : Type) (p : prog A) :
  forall w a w', cache_shape w -> run p w = Some (a, w') -> cache_shape w'.
Proof.
  induction p as [a0| |sec k IH|src sec k IH|cnt k IH|sec k IH|k IH|k IH];
    intros w a w' [Hlen Hu] H; simpl in H.
  - inversion H; subst. split; assumption.
  - discriminate.
  - unfold cache_read in H.
    destruct (find_block_and_acq_lock sec true w) as [[b w1]|] eqn:Ef;
      [|discriminate].
    destruct (find_block_unique _ _ _ _ _ Hu Ef) as [Hu1 Hl1].
    eapply IH; [|exact H]. split; [congruence|assumption].
  - destruct (cache_write src sec w) as [w1|] eqn:Ew; [|discriminate].
    destruct (cache_write_unique _ _ _ _ Hu Ew) as [Hu1 Hl1].
    eapply IH; [|exact H]. split; [congruence|assumption].
  - unfold free_map_allocate_non_consecutive in H.
    destruct (cnt <=? Z.of_nat (length (free_map w)));
      (eapply IH; [|exact H]); split; assumption.
  - eapply IH; [|exact H]. split; assumption.
  - eapply IH; [|exact H]. split; assumption.
  - eapply IH; [|exact H]. split; assumption.
Qed.

Lemma reachable_shape w : cache_reachable w -> cache_shape w.
Proof.
  induction 1 as [d fm lg|w sec reader b w' _ IH Hf|w sec c w' _ IH Hr
                 |w src sec w' _ IH Hw|w _ IH|A p w a w' _ IH Hrun].
  - split; [reflexivity|apply cache_init_unique].
  - destruct IH as [Hlen Hu].
    destruct (find_block_unique _ _ _ _ _ Hu Hf). split; [congruence|assumption].
  - destruct IH as [Hlen Hu]. unfold cache_read in Hr.
    destruct (find_block_and_acq_lock sec true w) as [[b w1]|] eqn:Ef;
      [|discriminate].
    inversion Hr; subst.
    destruct (find_block_unique _ _ _ _ _ Hu Ef). split; [congruence|assumption].
  - destruct IH as [Hlen Hu].
    destruct (cache_write_unique _ _ _ _ Hu Hw). split; [congruence|assumption].
  - split; [reflexivity|apply cache_init_unique].
  - eapply run_shape; eauto.
Qed.

(** C9: in every state the cache reaches from [cache_init] through
    lookups (hit or miss), reads, writes, resets and runs of the inode
    code, the cache has its 64 slots and, for every sector number [sec], at
    most one slot is valid with sector field [sec]. *)
Theorem cache_slots_unique (w : world) :
  cache_reachable w ->
  length (cache w) = 64%nat
  /\ forall sec : Z,
       (length (filter (fun b => is_valid b && (bst b =? sec)%Z) (cache w)) <= 1)%nat.
Proof.
  intros H. destruct (reachable_shape w H) as [Hlen Hu].
  split; [exact Hlen|]. intros sec. exact (Hu sec).
Qed.

(** ** Running programs over the logical view *)

Lemma fs_eq_refl s : fs_eq s s.
Proof. repeat split. Qed.

Lemma fs_eq_sym s s' : fs_eq s s' -> fs_eq s' s.
Proof. intros (H1 & H2 & H3). repeat split; auto. Qed.

Lemma fs_eq_trans s1 s2 s3 : fs_eq s1 s2 -> fs_eq s2 s3 -> fs_eq s1 s3.
Proof.
  intros (H1 & H2 & H3) (K1 & K2 & K3). repeat split; try congruence.
Qed.

Lemma run_simulation (A : Type) (p : prog A) :
  forall w s, cache_ok w -> fs_eq (abs w) s -> sim_result (run p w) (run_fs p s).
Proof.
  induction p as [a0| |sec k IH|src sec k IH|cnt k IH|sec k IH|k IH|k IH];
    intros w s Hok Heq; simpl.
  - auto.
  - exact I.
  - destruct (cache_read_view sec w Hok) as (w' & Hr & Hok' & Heq').
    rewrite Hr. destruct Heq as (Hst & Hfr & Hlg).
    simpl in Hst. rewrite <- Hst.
    apply IH; [exact Hok'|].
    eapply fs_eq_trans; [exact Heq'|]. repeat split; assumption.
  - destruct (cache_write_view src sec w Hok) as (w' & Hw & Hok' & Heq').
    rewrite Hw. apply IH; [exact Hok'|].
    eapply fs_eq_trans; [exact Heq'|].
    destruct Heq as (Hst & Hfr & Hlg). repeat split; simpl; auto.
    intros x. unfold upd. simpl in Hst. rewrite Hst. reflexivity.
  - destruct Heq as (Hst & Hfr & Hlg). simpl in Hfr, Hlg.
    unfold free_map_allocate_non_consecutive. rewrite Hfr, Hlg.
    destruct Hok as (Hne & Hu & Hc).
    destruct (cnt <=? Z.of_nat (length (fs_free s))); apply IH;
      repeat split; auto.
  - destruct Heq as (Hst & Hfr & Hlg). simpl in Hfr, Hlg.
    destruct Hok as (Hne & Hu & Hc).
    apply IH; repeat split; simpl; auto. congruence.
  - apply IH; assumption.
  - apply IH; assumption.
Qed.

Lemma run_fs_respects (A : Type) (p : prog A) :
  forall s s', fs_eq s s' -> same_result (run_fs p s) (run_fs p s').
Proof.
  induction p as [a0| |sec k IH|src sec k IH|cnt k IH|sec k IH|k IH|k IH];
    intros s s' Heq; simpl.
  - auto.
  - exact I.
  - destruct Heq as (Hst & Hfr & Hlg). rewrite Hst.
    apply IH. repeat split; assumption.
  - destruct Heq as (Hst & Hfr & Hlg). apply IH. repeat split; simpl; auto.
    intros x. unfold upd. rewrite Hst. reflexivity.
  - destruct Heq as (Hst & Hfr & Hlg). rewrite Hfr, Hlg.
    destruct (cnt <=? Z.of_nat (length (fs_free s'))); apply IH;
      repeat split; auto.
  - destruct Heq as (Hst & Hfr & Hlg). apply IH. repeat split; simpl; auto.
    congruence.
  - apply IH; assumption.
  - apply IH; assumption.
Qed.

(** A run against the cache is a run over the view of the cache. *)
Lemma run_to_fs (A : Type) (p : prog A) w a w' :
  cache_ok w -> run p w = Some (a, w') ->
  exists s', run_fs p (abs w) = Some (a, s') /\ cache_ok w' /\ fs_eq (abs w') s'.
Proof.
  intros Hok H. pose proof (run_simulation A p w (abs w) Hok (fs_eq_refl _)) as Hs.
  rewrite H in Hs. destruct (run_fs p (abs w)) as [[a' s']|]; [|contradiction].
  destruct Hs as (-> & Hok' & Heq). eauto.
Qed.

Lemma run_of_fs (A : Type) (p : prog A) w s a s' :
  cache_ok w -> fs_eq (abs w) s -> run_fs p s = Some (a, s') ->
  exists w', run p w = Some (a, w') /\ cache_ok w' /\ fs_eq (abs w') s'.
Proof.
  intros Hok Heq H. pose proof (run_simulation A p w s Hok Heq) as Hs.
  rewrite H in Hs. destruct (run p w) as [[a' w']|]; [|contradiction].
  destruct Hs as (-> & Hok' & Heq'). eauto.
Qed.

Lemma run_fs_bind (A B : Type) (p : prog A) (f : A -> prog B) :
  forall s, run_fs (bind p f) s
            = match run_fs p s with
              | Some (a, s') => run_fs (f a) s'
              | None => None
              end.
Proof.
  induction p as [a0| |sec k IH|src sec k IH|cnt k IH|sec k IH|k IH|k IH];
    intros s; simpl; auto.
  destruct (cnt <=? Z.of_nat (length (fs_free s))); apply IH.
Qed.

Lemma run_bind (A B : Type) (p : prog A) (f : A -> prog B) :
  forall w, run (bind p f) w
            = match run p w with
              | Some (a, w') => run (f a) w'
              | None => None
              end.
Proof.
  induction p as [a0| |sec k IH|src sec k IH|cnt k IH|sec k IH|k IH|k IH];
    intros w; simpl; auto.
  - destruct (cache_read sec w) as [[c w']|]; auto.
  - destruct (cache_write src sec w) as [w'|]; auto.
  - destruct (free_map_allocate_non_consecutive cnt w) as [r w']. apply IH.
Qed.

(** ** The code as written *)

Lemma run_strict_bind (A B : Type) (mem : bool) (p : prog A) (f : A -> prog B) :
  forall w, run_strict mem (bind p f) w
            = match run_strict mem p w with
              | Some (a, w') => run_strict mem (f a) w'
              | None => None
              end.
Proof.
  induction p as [a0| |sec k IH|src sec k IH|cnt k IH|sec k IH|k IH|k IH];
    intros w; simpl; auto.
  - destruct (cache_read sec w) as [[c w']|]; auto.
  - destruct (cache_write src sec w) as [w'|]; auto.
  - destruct (free_map_allocate_non_consecutive cnt w) as [r w']. apply IH.
Qed.

(** A run of the code as written, with its allocation granted, is a run
    of [run]. *)
Lemma run_strict_run (A : Type) (p : prog A) :
  forall w r, run_strict true p w = Some r -> run p w = Some r.
Proof.
  induction p as [a0| |sec k IH|src sec k IH|cnt k IH|sec k IH|k IH|k IH];
    intros w r H; simpl in *; auto.
  - destruct (cache_read sec w) as [[c w']|]; auto.
  - destruct (cache_write src sec w) as [w'|]; auto.
  - destruct (free_map_allocate_non_consecutive cnt w) as [r0 w']. auto.
  - discriminate.
Qed.

Lemma null_free_run (A : Type) (p : prog A) :
  null_free p -> forall w, run_strict true p w = run p w.
Proof.
  induction p as [a0| |sec k IH|src sec k IH|cnt k IH|sec k IH|k IH|k IH];
    intros Hp w; simpl in *; auto.
  - destruct (cache_read sec w) as [[c w']|]; auto.
  - destruct (cache_write src sec w) as [w'|]; auto.
  - destruct (free_map_allocate_non_consecutive cnt w) as [r0 w']. auto.
  - contradiction.
Qed.

Lemma null_free_bind (A B : Type) (p : prog A) (f : A -> prog B) :
  null_free p -> (forall a, null_free (f a)) -> null_free (bind p f).
Proof.
  induction p as [a0| |sec k IH|src sec k IH|cnt k IH|sec k IH|k IH|k IH];
    intros Hp Hf; simpl in *; auto.
Qed.

Lemma null_free_array_get arr i : null_free (array_get arr i).
Proof. unfold array_get. destruct (_ && _); exact I. Qed.

Lemma null_free_for_loop (S : Type) (body : Z -> S -> prog S) :
  (forall i s, null_free (body i s)) ->
  forall n i s, null_free (for_loop n i body s).
Proof.
  intros Hb. induction n as [|n IH]; intros i s; cbn [for_loop]; [exact I|].
  apply null_free_bind; [apply Hb|]. intros s'. apply IH.
Qed.

Ltac null_free_step :=
  match goal with
  | |- null_free (bind _ _) => apply null_free_bind; [|intros]
  | |- null_free (for_loop _ _ _ _) => apply null_free_for_loop; intros
  | |- null_free (array_get _ _) => apply null_free_array_get
  | |- null_free (Ret _) => exact I
  | |- null_free Undef => exact I
  | |- null_free (p_cache_read _) => intro; exact I
  | |- null_free (p_cache_write _ _) => exact I
  | |- null_free (p_free_map_release _) => exact I
  | |- null_free (p_free_map_allocate _) => intro; exact I
  | |- null_free p_malloc => intro; exact I
  | |- null_free (if ?b then _ else _) => destruct b
  | |- null_free (match ?x with _ => _ end) => destruct x
  end.

Lemma null_free_slot_body size base pool j s :
  null_free (resize_slot_body size base pool j s).
Proof. unfold resize_slot_body. repeat null_free_step. Qed.

Lemma null_free_direct_body size pool i s :
  null_free (resize_direct_body size pool i s).
Proof. unfold resize_direct_body. repeat null_free_step. Qed.

Lemma null_free_double_body size pool i s :
  null_free (resize_double_body size pool i s).
Proof.
  unfold resize_double_body.
  repeat first [apply null_free_slot_body | null_free_step].
Qed.

Lemma null_free_resize m size : null_free (inode_resize m size).
Proof.
  unfold inode_resize.
  repeat first [apply null_free_slot_body | apply null_free_direct_body
               | apply null_free_double_body | null_free_step].
Qed.

Lemma null_free_create sec size : null_free (inode_create sec size).
Proof.
  unfold inode_create. repeat first [apply null_free_resize | null_free_step].
Qed.

(** ** Resize: the request to the allocator *)

Lemma wrap_size_t_range x : 0 <= wrap_size_t x < 2 ^ 32.
Proof. unfold wrap_size_t. apply Z.mod_pos_bound. lia. Qed.

Lemma bytes_to_blocks_range size : 0 <= bytes_to_blocks size < 2 ^ 32.
Proof.
  unfold bytes_to_blocks.
  destruct (bytes_to_sectors size <=? 12); [apply wrap_size_t_range|].
  destruct (bytes_to_sectors size <=? 128 + 12); apply wrap_size_t_range.
Qed.

Lemma new_alloc_num_grow m size :
  bytes_to_blocks (d_length m) <= bytes_to_blocks size ->
  new_alloc_num m size = bytes_to_blocks size - bytes_to_blocks (d_length m).
Proof.
  intros H. unfold new_alloc_num.
  pose proof (bytes_to_blocks_range size).
  pose proof (bytes_to_blocks_range (d_length m)).
  rewrite wrap_size_t_small by lia.
  destruct (Z.gtb_spec (bytes_to_blocks size - bytes_to_blocks (d_length m)) 0);
    [reflexivity|lia].
Qed.

Lemma resize_fails_unchanged w m size :
  Z.of_nat (length (free_map w)) < new_alloc_num m size ->
  run (inode_resize m size) w
  = Some ((false, m),
          mk_world (cache w) (disk w) (free_map w)
            (alloc_log w ++ [new_alloc_num m size])).
Proof.
  intros H. unfold inode_resize. simpl.
  unfold free_map_allocate_non_consecutive.
  apply Z.leb_gt in H. rewrite H. reflexivity.
Qed.

(** When the free map holds fewer sectors than the request that
    [inode_resize] computes, the call returns failure, the struct comes
    back as it was, and the cache, the device and the free map are
    unchanged; the allocator has been asked once, for [new_alloc_num], which
    is the difference of the block counts when that is not negative. *)
Lemma resize_allocation_failure (w : world) (m : inode_disk) (size : Z) :
  Z.of_nat (length (free_map w)) < new_alloc_num m size ->
  exists w',
    run (inode_resize m size) w = Some ((false, m), w')
    /\ cache w' = cache w /\ disk w' = disk w /\ free_map w' = free_map w
    /\ alloc_log w' = alloc_log w ++ [new_alloc_num m size]
    /\ (bytes_to_blocks (d_length m) <= bytes_to_blocks size ->
        new_alloc_num m size
        = bytes_to_blocks size - bytes_to_blocks (d_length m)).
Proof.
  intros H. eexists. split; [apply resize_fails_unchanged; exact H|].
  cbn [cache disk free_map alloc_log]. repeat split. apply new_alloc_num_grow.
Qed.

Lemma resize_allocation_failure_witness :
  exists w',
    run (inode_resize fresh_inode_disk 1024) (world0 [100]) =
      Some ((false, fresh_inode_disk), w')
    /\ cache w' = cache (world0 [100]) /\ disk w' = disk (world0 [100])
    /\ free_map w' = [100]
    /\ alloc_log w' = [] ++ [new_alloc_num fresh_inode_disk 1024]
    /\ (bytes_to_blocks (d_length fresh_inode_disk) <= bytes_to_blocks 1024 ->
        new_alloc_num fresh_inode_disk 1024
        = bytes_to_blocks 1024 - bytes_to_blocks (d_length fresh_inode_disk)).
Proof.
  apply (resize_allocation_failure (world0 [100]) fresh_inode_disk 1024).
  vm_compute. reflexivity.
Defined.

(** C2 (defect): the request that [inode_resize] makes up front is not
    the number of sectors newly needed.  A new file of 141 sectors needs
    144 sectors (141 of data, the single-indirect table, the
    double-indirect table and one second-level table); the request logged
    is for 143, and when 143 are granted the loops run past the end of the
    pool.  A resize of the 300-sector file to 10 sectors needs no new
    sector; the request logged is for [2^32 - 293 = 4294967003]. *)
Theorem resize_request_not_the_delta :
  request_spec 0 (141 * 512) = 144
  /\ new_alloc_num fresh_inode_disk (141 * 512) = 143
  /\ result (run (inode_resize fresh_inode_disk (141 * 512)) (world0 (range 100 50)))
     = Some (false, fresh_inode_disk)
  /\ alloc_log (after (run (inode_resize fresh_inode_disk (141 * 512))
                         (world0 (range 100 50))) (world0 []))
     = [143]
  /\ run (inode_resize fresh_inode_disk (141 * 512)) (world0 (range 100 500)) = None
  /\ request_spec (300 * 512) (10 * 512) = 0
  /\ new_alloc_num big_inode_disk (10 * 512) = 4294967003
  /\ alloc_log (after (run (inode_resize big_inode_disk (10 * 512)) big_file)
                  (world0 []))
     = [4294967003].
Proof. repeat split; vm_compute; reflexivity. Qed.

Lemma blocks_of_sectors_mono d1 d2 :
  0 <= d1 < d2 ->
  (if d1 <=? 12 then d1 + 1
   else if d1 <=? 140 then d1 + 2 else d1 + (d1 - 140) / 128 + 3)
  < (if d2 <=? 12 then d2 + 1
     else if d2 <=? 140 then d2 + 2 else d2 + (d2 - 140) / 128 + 3).
Proof.
  intros H.
  destruct (Z.leb_spec d1 12), (Z.leb_spec d2 12),
           (Z.leb_spec d1 140), (Z.leb_spec d2 140); try lia.
  - assert (0 <= (d2 - 140) / 128) by (apply Z.div_pos; lia). lia.
  - assert (0 <= (d2 - 140) / 128) by (apply Z.div_pos; lia). lia.
  - assert ((d1 - 140) / 128 <= (d2 - 140) / 128)
      by (apply Z.div_le_mono; lia). lia.
Qed.

(** A resize to fewer sectors asks the allocator for [2^32] minus the
    number of blocks that should be released. *)
Lemma shrink_request_wraps m size :
  0 <= size < 2 ^ 31 - 511 ->
  0 <= d_length m < 2 ^ 31 - 511 ->
  bytes_to_sectors size < bytes_to_sectors (d_length m) ->
  new_alloc_num m size
  = 2 ^ 32 - (bytes_to_blocks (d_length m) - bytes_to_blocks size)
  /\ 2 ^ 32 - 2 ^ 23 <= new_alloc_num m size.
Proof.
  intros Hs Hl Hlt.
  pose proof (bytes_to_sectors_bound _ Hs) as B1.
  pose proof (bytes_to_sectors_bound _ Hl) as B2.
  pose proof (bytes_to_blocks_cases _ Hs) as C1.
  pose proof (bytes_to_blocks_cases _ Hl) as C2.
  pose proof (blocks_of_sectors_mono _ _ (conj (proj1 B1) Hlt)) as Hm.
  cbv zeta in C1, C2. rewrite <- C1, <- C2 in Hm.
  assert (Hub : bytes_to_blocks (d_length m) < 2 ^ 23).
  { rewrite C2.
    assert ((bytes_to_sectors (d_length m) - 140) / 128 < 2 ^ 15)
      by (apply Z.div_lt_upper_bound; lia).
    destruct (bytes_to_sectors (d_length m) <=? 12); [lia|].
    destruct (bytes_to_sectors (d_length m) <=? 140); lia. }
  pose proof (bytes_to_blocks_range size) as R1.
  assert (Hw : wrap_size_t (bytes_to_blocks size - bytes_to_blocks (d_length m))
               = 2 ^ 32 - (bytes_to_blocks (d_length m) - bytes_to_blocks size)).
  { unfold wrap_size_t.
    replace (bytes_to_blocks size - bytes_to_blocks (d_length m))
      with (2 ^ 32 - (bytes_to_blocks (d_length m) - bytes_to_blocks size)
            + (-1) * 2 ^ 32) by lia.
    rewrite Z.mod_add by lia. apply Z.mod_small. lia. }
  unfold new_alloc_num. rewrite Hw.
  destruct (Z.gtb_spec
              (2 ^ 32 - (bytes_to_blocks (d_length m) - bytes_to_blocks size)) 0).
  - split; [reflexivity|lia].
  - lia.
Qed.

(** C3 (defect): a resize to a length that needs fewer sectors does not
    release anything.  The difference of the block counts is taken in
    [size_t], so the request to the allocator is at least [2^32 - 2^23]
    sectors; a free map with fewer free sectors than that refuses it, and
    [inode_resize] returns failure with the struct, its length, the device
    and the free map as they were. *)
Theorem resize_shrink_fails (w : world) (m : inode_disk) (size : Z) :
  0 <= size < 2 ^ 31 - 511 ->
  0 <= d_length m < 2 ^ 31 - 511 ->
  bytes_to_sectors size < bytes_to_sectors (d_length m) ->
  Z.of_nat (length (free_map w)) < 2 ^ 32 - 2 ^ 23 ->
  exists w',
    run (inode_resize m size) w = Some ((false, m), w')
    /\ cache w' = cache w /\ disk w' = disk w /\ free_map w' = free_map w
    /\ alloc_log w'
       = alloc_log w
         ++ [2 ^ 32 - (bytes_to_blocks (d_length m) - bytes_to_blocks size)].
Proof.
  intros Hs Hl Hlt Hfree.
  destruct (shrink_request_wraps m size Hs Hl Hlt) as [Heq Hbig].
  eexists. split; [apply resize_fails_unchanged; lia|].
  cbn [cache disk free_map alloc_log]. rewrite Heq. repeat split.
Qed.

Lemma resize_shrink_fails_witness :
  exists w',
    run (inode_resize big_inode_disk (10 * 512)) big_file
    = Some ((false, big_inode_disk), w')
    /\ cache w' = cache big_file /\ disk w' = disk big_file
    /\ free_map w' = free_map big_file
    /\ alloc_log w'
       = alloc_log big_file
         ++ [2 ^ 32 - (bytes_to_blocks (d_length big_inode_disk)
                       - bytes_to_blocks (10 * 512))].
Proof.
  apply (resize_shrink_fails big_file big_inode_disk (10 * 512));
    vm_compute; first [reflexivity | split; [discriminate | reflexivity]].
Defined.

(** ** Writes while writing is denied *)



(** ** Address translation *)

Lemma read_words_length c : length (read_words c) = 128%nat.
Proof. unfold read_words. rewrite length_map, length_seq. reflexivity. Qed.

Lemma decode_direct_length c : length (direct (decode_inode_disk c)) = 12%nat.
Proof.
  unfold decode_inode_disk. cbn [direct].
  rewrite length_firstn, read_words_length. reflexivity.
Qed.

Lemma byte_to_sector_zero_undefined w ino :
  run (byte_to_sector ino 0) w = None.
Proof.
  unfold byte_to_sector. rewrite run_bind.
  destruct (run (p_cache_read_null (sector ino)) w) as [[c w']|]; [|reflexivity].
  change (bytes_to_sectors 0) with 0. cbn [Z.leb Z.compare].
  unfold array_get. rewrite decode_direct_length. reflexivity.
Qed.

(** C1 (defect): [byte_to_sector] takes the slot of the rounded-up sector
    count of [pos] minus one, not of the zero-based sector index.  In the
    two-sector file, offset 512 (the first byte of sector 1) gets the
    sector of direct slot 0, the same as offset 511, where the specified
    translation gives direct slot 1.  In the 300-sector file, the offset at
    the 140th sector boundary gets the last entry of the single-indirect
    table, which is the sector of the neighbouring index 139, where the
    specified translation goes through the double-indirect table. *)
Theorem byte_to_sector_off_by_one :
  result (run (byte_to_sector (handle 2) 512) small_file) = Some 100
  /\ result (run (byte_to_sector (handle 2) 511) small_file) = Some 100
  /\ result (run (translate_spec (handle 2) 512) small_file) = Some 101
  /\ result (run (byte_to_sector (handle 2) (140 * 512)) big_file) = Some 327
  /\ result (run (translate_spec (handle 2) (139 * 512)) big_file) = Some 327
  /\ result (run (translate_spec (handle 2) (140 * 512)) big_file) = Some 500.
Proof. repeat split; vm_compute; reflexivity. Qed.

(** C10 (defect): at [pos = 0] the direct array is indexed with
    [(size_t) 0 - 1 = 2^32 - 1], whatever the inode holds, so the access is
    out of bounds for every file, the two-sector file of length 1024 among
    them.  In the 300-sector file, offset
    [268 * 512] lies within the length, and the second-level table is
    indexed with [128 mod 128 - 1], again [2^32 - 1]. *)
Theorem byte_to_sector_index_out_of_bounds :
  (forall w ino, run (byte_to_sector ino 0) w = None)
  /\ wrap_size_t (bytes_to_sectors 0 - 1) = 2 ^ 32 - 1
  /\ result (run (inode_length (handle 2)) small_file) = Some 1024
  /\ run (byte_to_sector (handle 2) 0) small_file = None
  /\ result (run (inode_length (handle 2)) big_file) = Some (300 * 512)
  /\ run (byte_to_sector (handle 2) (268 * 512)) big_file = None
  /\ wrap_size_t (wrap_size_t (bytes_to_sectors (268 * 512) - 140) mod 128 - 1)
     = 2 ^ 32 - 1.
Proof.
  split; [exact byte_to_sector_zero_undefined|].
  repeat split; vm_compute; reflexivity.
Qed.

(** ** Reading back what was written *)

(** C4 (defect): in the two-sector file, a write of 1024 pattern bytes at
    offset 0 starts with the out-of-bounds access of [byte_to_sector] at
    offset 0.  A write of 512 pattern bytes at offset 512 returns 512, but
    the bytes go to the sector of direct slot 0: reading the 511 bytes from
    offset 513 returns zeros, not the pattern, and reading 5 bytes from
    offset 1, which was never written, returns pattern bytes. *)
Theorem write_read_round_trip_broken :
  run (inode_write_at (handle 2) (pattern 1024) 1024 0) small_file = None
  /\ result (run (inode_write_at (handle 2) (pattern 512) 512 512) small_file)
     = Some 512
  /\ result (run (inode_read_at (handle 2) 511 513) small_file_written)
     = Some (511, repeat 0 511)
  /\ repeat 0 511 <> skipn 1 (pattern 512)
  /\ result (run (inode_read_at (handle 2) 5 1) small_file_written)
     = Some (5, firstn 5 (skipn 1 (pattern 512))).
Proof.
  repeat split; try (vm_compute; reflexivity).
  vm_compute. discriminate.
Qed.

(** ** Growing a file *)

(** C5 (defect): three growths.  A 13-sector file created on a device
    whose free sector 113 holds old bytes reads those bytes back from its
    13th sector: only direct sectors are zero-filled.  Growing the
    one-sector file to two sectors zero-fills the pool entry with the index
    of the direct slot, not the entry just assigned, which is outside the
    one-entry pool.  A write of two bytes at offset 1 of the empty file
    takes a sector from the free map, returns 0 and leaves the length 0:
    the grown struct is never written back. *)
Theorem grow_not_zero_filled :
  result (run (inode_length (handle 2)) thirteen_sector_file) = Some (13 * 512)
  /\ result (run (inode_read_at (handle 2) 3 (12 * 512 + 1)) thirteen_sector_file)
     = Some (3, [255; 255; 255])
  /\ d_length (decode_inode_disk (view one_sector_file 2)) = 512
  /\ run (inode_resize (decode_inode_disk (view one_sector_file 2)) 1024)
       one_sector_file = None
  /\ result (run (inode_write_at (handle 2) [7; 7] 2 1) empty_file) = Some 0
  /\ result (run (inode_length (handle 2)) empty_file_written) = Some 0
  /\ length (free_map empty_file_written) = (length (free_map empty_file) - 1)%nat.
Proof. repeat split; vm_compute; reflexivity. Qed.

(** The count of [bytes_to_blocks] is what sizes the pool of
    [inode_resize]: for a new file of 141 sectors the pool has 143 entries,
    one fewer than the sectors the loops take from it, whatever the free
    map holds. *)
Lemma create_141_sectors_overruns_pool :
  new_alloc_num fresh_inode_disk (141 * 512) = 143
  /\ run (inode_create 2 (141 * 512)) (world0 (range 100 500)) = None
  /\ result (run (inode_create 2 (140 * 512)) (world0 (range 100 500)))
     = Some true.
Proof. repeat split; vm_compute; reflexivity. Qed.

Lemma cache_slots_unique_witness :
  length (cache small_file) = 64%nat
  /\ forall sec : Z,
       (length (filter (fun b => is_valid b && (bst b =? sec)%Z) (cache small_file))
        <= 1)%nat.
Proof.
  apply (cache_slots_unique small_file).
  apply (reach_run bool (inode_create 2 1024) (world0 (range 100 50)) true).
  - apply reach_init.
  - vm_compute. reflexivity.
Defined.

(** ** Tables of sector numbers *)

Lemma length_list_set l n v : length (list_set l n v) = length l.
Proof.
  revert n. induction l as [|a l IH]; intros [|n]; simpl; auto.
Qed.

Lemma nth_list_set_eq l n v :
  (n < length l)%nat -> nth n (list_set l n v) 0 = v.
Proof.
  revert n. induction l as [|a l IH]; intros [|n] H; simpl in *; try lia; auto.
  apply IH. lia.
Qed.

Lemma nth_list_set_neq l n k v :
  k <> n -> nth k (list_set l n v) 0 = nth k l 0.
Proof.
  revert n k. induction l as [|a l IH]; intros [|n] [|k] H; simpl; auto;
    try congruence.
Qed.

Lemma list_set_same l n :
  list_set l n (nth n l 0) = l.
Proof.
  revert n. induction l as [|a l IH]; intros [|n]; simpl; auto.
  f_equal. apply IH.
Qed.

Lemma Forall_list_set (P : Z -> Prop) l n v :
  Forall P l -> P v -> Forall P (list_set l n v).
Proof.
  intros Hl Hv. revert n. induction Hl as [|a l Ha Hl IH]; intros [|n]; simpl;
    constructor; auto.
Qed.

Lemma words_ok_set buf n v :
  words_ok buf -> 0 <= v < 2 ^ 32 -> words_ok (list_set buf n v).
Proof.
  intros [Hlen Hall] Hv. split.
  - rewrite length_list_set. exact Hlen.
  - apply Forall_list_set; assumption.
Qed.

Lemma words_ok_zero : words_ok zero_words.
Proof.
  split; [reflexivity|]. apply Forall_forall. intros x Hx.
  apply repeat_spec in Hx. subst x. lia.
Qed.

Lemma byte_at_range c n : 0 <= byte_at c n < 256.
Proof. unfold byte_at. apply Z.mod_pos_bound. lia. Qed.

Lemma word_at_range c i : 0 <= word_at c i < 2 ^ 32.
Proof.
  unfold word_at.
  pose proof (byte_at_range c (4 * i)).
  pose proof (byte_at_range c (4 * i + 1)).
  pose proof (byte_at_range c (4 * i + 2)).
  pose proof (byte_at_range c (4 * i + 3)).
  change (2 ^ 32) with 4294967296. lia.
Qed.

Lemma words_ok_read c : words_ok (read_words c).
Proof.
  split; [apply read_words_length|].
  unfold read_words. apply Forall_forall. intros x Hx.
  apply in_map_iff in Hx as (i & <- & _). apply word_at_range.
Qed.

Lemma nth_words_to_bytes ws i k :
  (k < 4)%nat ->
  nth (4 * i + k) (words_to_bytes ws) 0 = nth k (le_bytes (nth i ws 0)) 0.
Proof.
  intros Hk. revert i. induction ws as [|w ws IH]; intros i.
  - replace (nth i [] 0) with 0 by (destruct i; reflexivity).
    replace (nth (4 * i + k) (words_to_bytes []) 0) with 0
      by (destruct (4 * i + k)%nat; reflexivity).
    destruct k as [|[|[|[|k]]]]; try lia; reflexivity.
  - destruct i as [|i].
    + simpl. destruct k as [|[|[|[|k]]]]; try lia; reflexivity.
    + replace (4 * S i + k)%nat with (S (S (S (S (4 * i + k))))) by lia.
      simpl nth at 1. cbn [words_to_bytes flat_map le_bytes app nth].
      apply IH.
Qed.

Lemma le_bytes_word w :
  0 <= w < 2 ^ 32 ->
  (w mod 256) mod 256 + 256 * (((w / 256) mod 256) mod 256)
  + 65536 * (((w / 65536) mod 256) mod 256)
  + 16777216 * (((w / 16777216) mod 256) mod 256) = w.
Proof.
  intros H. rewrite !Z.mod_mod by lia.
  change 65536 with (256 * 256). change 16777216 with (256 * 256 * 256).
  rewrite <- !Z.div_div by lia.
  pose proof (Z.div_mod w 256 ltac:(lia)) as E0.
  pose proof (Z.div_mod (w / 256) 256 ltac:(lia)) as E1.
  pose proof (Z.div_mod (w / 256 / 256) 256 ltac:(lia)) as E2.
  assert (0 <= w / 256 / 256 / 256 < 256) as Hs.
  { split.
    - repeat apply Z.div_pos; lia.
    - repeat (apply Z.div_lt_upper_bound; [lia|]).
      change (2 ^ 32) with 4294967296 in H. lia. }
  rewrite (Z.mod_small (w / 256 / 256 / 256)) by exact Hs.
  lia.
Qed.

Lemma word_at_to_bytes ws i :
  0 <= nth i ws 0 < 2 ^ 32 -> word_at (words_to_bytes ws) i = nth i ws 0.
Proof.
  intros H. unfold word_at, byte_at.
  replace (4 * i)%nat with (4 * i + 0)%nat at 1 by lia.
  rewrite !nth_words_to_bytes by lia.
  cbn [le_bytes nth]. apply le_bytes_word. exact H.
Qed.

(** A table written to a sector is the table read back from it. *)
Lemma read_words_to_bytes ws : words_ok ws -> read_words (words_to_bytes ws) = ws.
Proof.
  intros [Hlen Hall]. apply nth_ext with (d := 0) (d' := 0).
  - rewrite read_words_length. symmetry. exact Hlen.
  - intros n Hn. rewrite read_words_length in Hn.
    unfold read_words.
    rewrite (nth_indep _ 0 (word_at (words_to_bytes ws) 0))
      by (rewrite length_map, length_seq; exact Hn).
    rewrite map_nth, seq_nth by exact Hn. simpl.
    apply word_at_to_bytes.
    rewrite Forall_forall in Hall. apply Hall. apply nth_In. lia.
Qed.

(** ** Array accesses and loops over the view *)

Lemma array_get_in arr i s :
  (i < length arr)%nat ->
  run_fs (array_get arr (Z.of_nat i)) s = Some (nth i arr 0, s).
Proof.
  intros H. unfold array_get.
  destruct (Z.leb_spec 0 (Z.of_nat i)); [|lia].
  destruct (Z.ltb_spec (Z.of_nat i) (Z.of_nat (length arr))); [|lia].
  simpl. rewrite Nat2Z.id. reflexivity.
Qed.

Lemma array_get_inv arr i v s s' :
  run_fs (array_get arr i) s = Some (v, s') ->
  s' = s /\ v = nth (Z.to_nat i) arr 0 /\ (Z.to_nat i < length arr)%nat.
Proof.
  unfold array_get.
  destruct (Z.leb_spec 0 i); [|discriminate].
  destruct (Z.ltb_spec i (Z.of_nat (length arr))); [|discriminate].
  simpl. intros Hr. inversion Hr; subst. repeat split. lia.
Qed.

Lemma run_fs_bind_inv (A B : Type) (p : prog A) (f : A -> prog B) s b s2 :
  run_fs (bind p f) s = Some (b, s2) ->
  exists a s1, run_fs p s = Some (a, s1) /\ run_fs (f a) s1 = Some (b, s2).
Proof.
  rewrite run_fs_bind. destruct (run_fs p s) as [[a s1]|]; [|discriminate].
  eauto.
Qed.

Section ForLoop.

Context {St : Type}.
Variable body : Z -> St -> prog St.

Lemma for_loop_noop n lo st s :
  (forall k, (lo <= k < lo + n)%nat ->
             run_fs (body (Z.of_nat k) st) s = Some (st, s)) ->
  run_fs (for_loop n (Z.of_nat lo) body st) s = Some (st, s).
Proof.
  revert lo. induction n as [|n IH]; intros lo H; [reflexivity|].
  cbn [for_loop]. rewrite run_fs_bind, H by lia.
  replace (Z.of_nat lo + 1) with (Z.of_nat (S lo)) by lia.
  apply IH. intros k Hk. apply H. lia.
Qed.

Variable I : nat -> St -> fs_state -> Prop.

Lemma for_loop_inv n lo st s st' s' :
  I lo st s ->
  (forall k st s st' s', (lo <= k < lo + n)%nat -> I k st s ->
     run_fs (body (Z.of_nat k) st) s = Some (st', s') -> I (S k) st' s') ->
  run_fs (for_loop n (Z.of_nat lo) body st) s = Some (st', s') ->
  I (lo + n)%nat st' s'.
Proof.
  revert lo st s. induction n as [|n IH]; intros lo st s H0 Hstep Hrun.
  - simpl in Hrun. inversion Hrun; subst. rewrite Nat.add_0_r. exact H0.
  - cbn [for_loop] in Hrun.
    apply run_fs_bind_inv in Hrun as (st1 & s1 & Hb & Hrest).
    replace (Z.of_nat lo + 1) with (Z.of_nat (S lo)) in Hrest by lia.
    replace (lo + S n)%nat with (S lo + n)%nat by lia.
    eapply IH; [|
      intros k st2 s2 st3 s3 Hk; apply Hstep; lia | exact Hrest].
    eapply Hstep; [|exact H0|exact Hb]. lia.
Qed.

Lemma for_loop_total n lo st s :
  I lo st s ->
  (forall k st s, (lo <= k < lo + n)%nat -> I k st s ->
     exists st' s', run_fs (body (Z.of_nat k) st) s = Some (st', s')
                    /\ I (S k) st' s') ->
  exists st' s', run_fs (for_loop n (Z.of_nat lo) body st) s = Some (st', s')
                 /\ I (lo + n)%nat st' s'.
Proof.
  revert lo st s. induction n as [|n IH]; intros lo st s H0 Hstep.
  - exists st, s. rewrite Nat.add_0_r. split; [reflexivity|exact H0].
  - destruct (Hstep lo st s ltac:(lia) H0) as (st1 & s1 & Hb & H1).
    destruct (IH (S lo) st1 s1 H1) as (st' & s' & Hrun & H').
    { intros k st2 s2 Hk. apply Hstep. lia. }
    exists st', s'. split.
    + cbn [for_loop]. rewrite run_fs_bind, Hb.
      replace (Z.of_nat lo + 1) with (Z.of_nat (S lo)) by lia. exact Hrun.
    + replace (lo + S n)%nat with (S lo + n)%nat by lia. exact H'.
Qed.

End ForLoop.

(** ** Resize: what each loop leaves behind *)

Ltac some_inv H := inversion H; subst; clear H.

Lemma slot_ok_cases size first v :
  slot_ok size first v <->
  (v = 0 /\ size <= first * 512) \/ (v <> 0 /\ size > first * 512).
Proof.
  unfold slot_ok, BLOCK_SECTOR_SIZE.
  destruct (Z.eqb_spec v 0), (Z.gtb_spec size (first * 512)); simpl;
    split; intros; try discriminate; try lia; auto.
Qed.

Lemma pool_entry pool k n s s' :
  Forall valid_sector pool ->
  run_fs (array_get pool k) s = Some (n, s') ->
  s' = s /\ valid_sector n.
Proof.
  intros Hp H. apply array_get_inv in H as (-> & -> & Hlt).
  split; [reflexivity|]. rewrite Forall_forall in Hp. apply Hp.
  apply nth_In. exact Hlt.
Qed.

Section SlotLoop.

Variables (size base : Z) (pool : list Z).
Hypothesis pool_valid : Forall valid_sector pool.

Lemma slot_body_post j buf k s buf' k' s' :
  words_ok buf -> (j < 128)%nat ->
  run_fs (resize_slot_body size base pool (Z.of_nat j) (buf, k)) s
  = Some ((buf', k'), s') ->
  words_ok buf'
  /\ slot_ok size (base + Z.of_nat j) (nth j buf' 0)
  /\ (forall i, i <> j -> nth i buf' 0 = nth i buf 0)
  /\ store s' = store s.
Proof.
  intros Hw Hj H. pose proof Hw as [Hlen _].
  unfold resize_slot_body in H.
  rewrite run_fs_bind, array_get_in in H by lia.
  unfold array_set in H. rewrite Nat2Z.id in H.
  unfold BLOCK_SECTOR_SIZE in H.
  destruct (Z.leb_spec size ((base + Z.of_nat j) * 512)) as [Hle|Hgt];
    destruct (Z.eqb_spec (nth j buf 0) 0) as [Hz|Hnz]; cbn [andb negb] in H.
  - destruct (Z.gtb_spec size ((base + Z.of_nat j) * 512)); [lia|].
    cbn [andb] in H. simpl in H. some_inv H.
    split; [exact Hw|]. split; [|split; [reflexivity|reflexivity]].
    apply slot_ok_cases. left. split; [exact Hz|lia].
  - simpl in H. some_inv H. split; [apply words_ok_set; [exact Hw|lia]|].
    split; [|split; [|reflexivity]].
    + rewrite nth_list_set_eq by lia. apply slot_ok_cases. left. split; lia.
    + intros i Hi. apply nth_list_set_neq. exact Hi.
  - destruct (Z.gtb_spec size ((base + Z.of_nat j) * 512)); [|lia].
    cbn [andb] in H. apply run_fs_bind_inv in H as (n & s1 & Hn & H).
    destruct (pool_entry _ _ _ _ _ pool_valid Hn) as [-> Hv].
    simpl in H. some_inv H. unfold valid_sector in Hv.
    split; [apply words_ok_set; [exact Hw|lia]|].
    split; [|split; [|reflexivity]].
    + rewrite nth_list_set_eq by lia. apply slot_ok_cases. right. split; lia.
    + intros i Hi. apply nth_list_set_neq. exact Hi.
  - destruct (Z.gtb_spec size ((base + Z.of_nat j) * 512)); [|lia].
    cbn [andb] in H. simpl in H. some_inv H.
    split; [exact Hw|]. split; [|split; [reflexivity|reflexivity]].
    apply slot_ok_cases. right. split; [exact Hnz|lia].
Qed.

Lemma slot_body_noop j buf k s :
  length buf = 128%nat -> (j < 128)%nat ->
  slot_ok size (base + Z.of_nat j) (nth j buf 0) ->
  run_fs (resize_slot_body size base pool (Z.of_nat j) (buf, k)) s
  = Some ((buf, k), s).
Proof.
  intros Hlen Hj Hok. apply slot_ok_cases in Hok.
  unfold resize_slot_body.
  rewrite run_fs_bind, array_get_in by lia.
  unfold BLOCK_SECTOR_SIZE.
  destruct (Z.leb_spec size ((base + Z.of_nat j) * 512)) as [Hle|Hgt];
    destruct (Z.eqb_spec (nth j buf 0) 0) as [Hz|Hnz];
    destruct (Z.gtb_spec size ((base + Z.of_nat j) * 512));
    try lia; reflexivity.
Qed.

Lemma slot_loop_post buf k s buf' k' s' :
  words_ok buf ->
  run_fs (for_loop 128 0 (resize_slot_body size base pool) (buf, k)) s
  = Some ((buf', k'), s') ->
  slots_ok size base buf' /\ store s' = store s.
Proof.
  intros Hw H.
  pose (I := fun (n : nat) (st : list Z * Z) (t : fs_state) =>
               words_ok (fst st)
               /\ (forall j, (j < n)%nat ->
                             slot_ok size (base + Z.of_nat j) (nth j (fst st) 0))
               /\ store t = store s).
  assert (HI : I (0 + 128)%nat (buf', k') s').
  { apply (for_loop_inv (resize_slot_body size base pool) I 128 0 (buf, k) s).
    - split; [exact Hw|]. split; [|reflexivity]. intros j Hj. lia.
    - intros n [b1 k1] t [b2 k2] t' Hn (Hw1 & Hsl & Hst) Hrun.
      simpl in Hw1, Hsl.
      destruct (slot_body_post n b1 k1 t b2 k2 t' Hw1 ltac:(lia) Hrun)
        as (Hw2 & Hok & Hframe & Hst').
      split; [exact Hw2|]. split; [|congruence]. simpl.
      intros j Hj. destruct (Nat.eq_dec j n) as [->|Hne]; [exact Hok|].
      rewrite Hframe by exact Hne. apply Hsl. lia.
    - exact H. }
  destruct HI as (Hw' & Hsl & Hst). simpl in *.
  split; [split; [exact Hw'|]|exact Hst].
  intros j Hj. apply Hsl. exact Hj.
Qed.

Lemma slot_loop_noop buf k s :
  slots_ok size base buf ->
  run_fs (for_loop 128 0 (resize_slot_body size base pool) (buf, k)) s
  = Some ((buf, k), s).
Proof.
  intros [[Hlen _] Hok].
  apply (for_loop_noop (resize_slot_body size base pool) 128 0).
  intros j Hj. apply slot_body_noop; [exact Hlen|lia|apply Hok; lia].
Qed.

End SlotLoop.

Section DirectLoop.

Variables (size : Z) (pool : list Z).
Hypothesis pool_valid : Forall valid_sector pool.

Lemma direct_body_post i d k s d' k' s' :
  length d = 12%nat -> (i < 12)%nat ->
  run_fs (resize_direct_body size pool (Z.of_nat i) (d, k)) s
  = Some ((d', k'), s') ->
  length d' = 12%nat
  /\ slot_ok size (Z.of_nat i) (nth i d' 0)
  /\ (forall j, j <> i -> nth j d' 0 = nth j d 0).
Proof.
  intros Hlen Hi H.
  unfold resize_direct_body in H.
  rewrite run_fs_bind, array_get_in in H by lia.
  unfold array_set in H. rewrite Nat2Z.id in H.
  unfold BLOCK_SECTOR_SIZE in H.
  destruct (Z.leb_spec size (512 * Z.of_nat i)) as [Hle|Hgt];
    destruct (Z.eqb_spec (nth i d 0) 0) as [Hz|Hnz]; cbn [andb negb] in H.
  - destruct (Z.gtb_spec size (512 * Z.of_nat i)); [lia|].
    cbn [andb] in H. simpl in H. some_inv H.
    repeat split; auto. apply slot_ok_cases. left. split; [exact Hz|lia].
  - simpl in H. some_inv H. rewrite length_list_set.
    split; [exact Hlen|]. split.
    + rewrite nth_list_set_eq by lia. apply slot_ok_cases. left. split; lia.
    + intros j Hj. apply nth_list_set_neq. exact Hj.
  - destruct (Z.gtb_spec size (512 * Z.of_nat i)); [|lia].
    cbn [andb] in H. apply run_fs_bind_inv in H as (n & s1 & Hn & H).
    destruct (pool_entry _ _ _ _ _ pool_valid Hn) as [-> Hv].
    apply run_fs_bind_inv in H as (z & s2 & Hzf & H).
    destruct (pool_entry _ _ _ _ _ pool_valid Hzf) as [-> _].
    simpl in H. some_inv H. unfold valid_sector in Hv.
    rewrite length_list_set. split; [exact Hlen|]. split.
    + rewrite nth_list_set_eq by lia. apply slot_ok_cases. right. split; lia.
    + intros j Hj. apply nth_list_set_neq. exact Hj.
  - destruct (Z.gtb_spec size (512 * Z.of_nat i)); [|lia].
    cbn [andb] in H. simpl in H. some_inv H.
    repeat split; auto. apply slot_ok_cases. right. split; [exact Hnz|lia].
Qed.

Lemma direct_body_noop i d k s :
  length d = 12%nat -> (i < 12)%nat ->
  slot_ok size (Z.of_nat i) (nth i d 0) ->
  run_fs (resize_direct_body size pool (Z.of_nat i) (d, k)) s = Some ((d, k), s).
Proof.
  intros Hlen Hi Hok. apply slot_ok_cases in Hok.
  unfold resize_direct_body.
  rewrite run_fs_bind, array_get_in by lia.
  unfold BLOCK_SECTOR_SIZE.
  destruct (Z.leb_spec size (512 * Z.of_nat i)) as [Hle|Hgt];
    destruct (Z.eqb_spec (nth i d 0) 0) as [Hz|Hnz];
    destruct (Z.gtb_spec size (512 * Z.of_nat i));
    try lia; reflexivity.
Qed.

Lemma direct_loop_post d k s d' k' s' :
  length d = 12%nat ->
  run_fs (for_loop 12 0 (resize_direct_body size pool) (d, k)) s
  = Some ((d', k'), s') ->
  direct_ok size d'.
Proof.
  intros Hlen H.
  pose (I := fun (n : nat) (st : list Z * Z) (t : fs_state) =>
               length (fst st) = 12%nat
               /\ (forall j, (j < n)%nat ->
                             slot_ok size (Z.of_nat j) (nth j (fst st) 0))).
  assert (HI : I (0 + 12)%nat (d', k') s').
  { apply (for_loop_inv (resize_direct_body size pool) I 12 0 (d, k) s).
    - split; auto. intros j Hj. lia.
    - intros n [d1 k1] t [d2 k2] t' Hn (Hl1 & Hsl) Hrun.
      simpl in Hl1, Hsl.
      destruct (direct_body_post n d1 k1 t d2 k2 t' Hl1 ltac:(lia) Hrun)
        as (Hl2 & Hok & Hframe).
      split; simpl; [exact Hl2|].
      intros j Hj. destruct (Nat.eq_dec j n) as [->|Hne]; [exact Hok|].
      rewrite Hframe by exact Hne. apply Hsl. lia.
    - exact H. }
  exact HI.
Qed.

Lemma direct_loop_noop d k s :
  direct_ok size d ->
  run_fs (for_loop 12 0 (resize_direct_body size pool) (d, k)) s
  = Some ((d, k), s).
Proof.
  intros [Hlen Hok].
  apply (for_loop_noop (resize_direct_body size pool) 12 0).
  intros j Hj. apply direct_body_noop; [exact Hlen|lia|apply Hok; lia].
Qed.

End DirectLoop.

Section DoubleLoop.

Variables (size : Z) (pool : list Z).
Hypothesis pool_valid : Forall valid_sector pool.

Lemma words_ok_nth buf i : words_ok buf -> 0 <= nth i buf 0 < 2 ^ 32.
Proof.
  intros [Hlen Hall]. destruct (Nat.lt_ge_cases i (length buf)) as [Hlt|Hge].
  - rewrite Forall_forall in Hall. apply Hall. apply nth_In. exact Hlt.
  - rewrite nth_overflow by exact Hge. lia.
Qed.

Lemma double_body_post i b1 k s b1' k' s' :
  words_ok b1 -> (i < 128)%nat ->
  run_fs (resize_double_body size pool (Z.of_nat i) (b1, k)) s
  = Some ((b1', k'), s') ->
  words_ok b1'
  /\ slot_ok size (140 + Z.of_nat i) (nth i b1' 0)
  /\ (forall j, j <> i -> nth j b1' 0 = nth j b1 0)
  /\ (forall x, nth i b1' 0 = 0 \/ x <> nth i b1' 0 -> store s' x = store s x)
  /\ (nth i b1' 0 <> 0 ->
      exists buf2, holds (store s') (nth i b1' 0) buf2
                   /\ slots_ok size (140 + Z.of_nat i * 128) buf2).
Proof.
  intros Hw Hi H. pose proof Hw as [Hlen _].
  unfold resize_double_body in H.
  rewrite run_fs_bind, array_get_in in H by lia.
  unfold array_set in H. rewrite Nat2Z.id in H.
  unfold BLOCK_SECTOR_SIZE in H.
  destruct (Z.gtb_spec size ((140 + Z.of_nat i) * 512)) as [Hgt|Hle].
  - (* the range of table [i] is reached *)
    destruct (Z.leb_spec size ((140 + Z.of_nat i) * 512)); [lia|].
    cbn [andb] in H.
    apply run_fs_bind_inv in H as ([[bsec buf0] k0] & s0 & Hsel & H).
    apply run_fs_bind_inv in H as ([buf2 k2] & s2 & Hloop & H).
    simpl in H. some_inv H.
    assert (Hsel' : s0 = s /\ bsec <> 0 /\ 0 <= bsec < 2 ^ 32 /\ words_ok buf0).
    { destruct (Z.eqb_spec (nth i b1 0) 0) as [Hz|Hnz].
      - apply run_fs_bind_inv in Hsel as (n & s1 & Hn & Hsel).
        destruct (pool_entry _ _ _ _ _ pool_valid Hn) as [-> Hv].
        simpl in Hsel. some_inv Hsel. unfold valid_sector in Hv.
        repeat split; try lia; apply words_ok_zero.
      - simpl in Hsel. some_inv Hsel.
        pose proof (words_ok_nth b1 i Hw).
        repeat split; try lia; apply words_ok_read. }
    destruct Hsel' as (-> & Hbnz & Hbr & Hw0).
    destruct (slot_loop_post size (140 + Z.of_nat i * 128) pool pool_valid
                _ _ _ _ _ _ Hw0 Hloop) as [Hsl Hst].
    split; [apply words_ok_set; assumption|].
    rewrite nth_list_set_eq by lia.
    split; [apply slot_ok_cases; right; split; [exact Hbnz|lia]|].
    split; [intros j Hj; apply nth_list_set_neq; exact Hj|].
    split.
    + intros x [Hx|Hx]; [contradiction|]. cbn [store]. unfold upd.
      destruct (Z.eqb_spec x bsec); [contradiction|]. rewrite Hst. reflexivity.
    + intros _. exists buf2. split; [|exact Hsl].
      unfold holds. cbn [store]. unfold upd. rewrite Z.eqb_refl. reflexivity.
  - destruct (Z.leb_spec size ((140 + Z.of_nat i) * 512)); [|lia].
    destruct (Z.eqb_spec (nth i b1 0) 0) as [Hz|Hnz]; cbn [andb negb] in H;
      simpl in H; some_inv H.
    + split; [exact Hw|].
      split; [apply slot_ok_cases; left; split; [exact Hz|lia]|].
      split; [reflexivity|]. split; [reflexivity|]. intros Hc. contradiction.
    + split; [apply words_ok_set; [exact Hw|lia]|].
      rewrite nth_list_set_eq by lia.
      split; [apply slot_ok_cases; left; split; lia|].
      split; [intros j Hj; apply nth_list_set_neq; exact Hj|].
      split; [reflexivity|]. intros Hc. contradiction.
Qed.

Lemma double_loop_post n :
  forall lo b1 k s b1' k' s',
    (lo + n = 128)%nat -> words_ok b1 ->
    run_fs (for_loop n (Z.of_nat lo) (resize_double_body size pool) (b1, k)) s
    = Some ((b1', k'), s') ->
    words_ok b1'
    /\ (forall j, (j < lo)%nat -> nth j b1' 0 = nth j b1 0)
    /\ (forall j, (lo <= j < 128)%nat ->
                  slot_ok size (140 + Z.of_nat j) (nth j b1' 0))
    /\ (forall x,
          (forall j, (lo <= j < 128)%nat -> nth j b1' 0 <> 0 -> nth j b1' 0 <> x) ->
          store s' x = store s x)
    /\ (forall j, (lo <= j < 128)%nat -> nth j b1' 0 <> 0 ->
          (forall j', (j < j' < 128)%nat -> nth j' b1' 0 <> nth j b1' 0) ->
          exists buf2, holds (store s') (nth j b1' 0) buf2
                       /\ slots_ok size (140 + Z.of_nat j * 128) buf2).
Proof.
  induction n as [|n IH]; intros lo b1 k s b1' k' s' Hlo Hw H.
  - simpl in H. some_inv H. split; [exact Hw|].
    split; [reflexivity|]. split; [intros j Hj; lia|].
    split; [reflexivity|]. intros j Hj. lia.
  - cbn [for_loop] in H.
    apply run_fs_bind_inv in H as ([b2 k2] & s2 & Hbody & Hrest).
    replace (Z.of_nat lo + 1) with (Z.of_nat (S lo)) in Hrest by lia.
    destruct (double_body_post lo b1 k s b2 k2 s2 Hw ltac:(lia) Hbody)
      as (Hw2 & Hok2 & Hfr2 & Hst2 & Hh2).
    destruct (IH (S lo) b2 k2 s2 b1' k' s' ltac:(lia) Hw2 Hrest)
      as (Hw' & Hpre & Hok & Hst & Hh).
    assert (Hlo' : nth lo b1' 0 = nth lo b2 0) by (apply Hpre; lia).
    split; [exact Hw'|].
    split; [intros j Hj; rewrite Hpre by lia; apply Hfr2; lia|].
    split.
    { intros j Hj. destruct (Nat.eq_dec j lo) as [->|Hne].
      - rewrite Hlo'. exact Hok2.
      - apply Hok. lia. }
    split.
    { intros x Hx. rewrite Hst by (intros j Hj; apply Hx; lia).
      apply Hst2. destruct (Z.eq_dec (nth lo b2 0) 0) as [Hz|Hnz]; [left; exact Hz|].
      right. intros ->. apply (Hx lo); [lia|congruence|congruence]. }
    intros j Hj Hnz Hdist. destruct (Nat.eq_dec j lo) as [->|Hne].
    + rewrite Hlo' in *. destruct (Hh2 Hnz) as (buf2 & Hhold & Hsl).
      exists buf2. split; [|exact Hsl]. unfold holds in *.
      rewrite Hst; [exact Hhold|].
      intros j' Hj' _ Heq. apply (Hdist j'); [lia|].
      rewrite Heq. reflexivity.
    + apply Hh; [lia|exact Hnz|]. intros j' Hj'. apply Hdist. lia.
Qed.

(** With a table that is in place for [size], the loop over the
    double-indirect table changes nothing. *)
Lemma double_loop_noop st b1 k s :
  double_ok size st b1 ->
  (forall x, store s x = st x) ->
  exists s',
    run_fs (for_loop 128 0 (resize_double_body size pool) (b1, k)) s
    = Some ((b1, k), s')
    /\ (forall x, store s' x = st x)
    /\ fs_free s' = fs_free s /\ fs_log s' = fs_log s.
Proof.
  intros [Hw Hd] Hs. pose proof Hw as [Hlen _].
  pose (I := fun (n : nat) (t : list Z * Z) (u : fs_state) =>
               t = (b1, k) /\ (forall x, store u x = st x)
               /\ fs_free u = fs_free s /\ fs_log u = fs_log s).
  destruct (for_loop_total (resize_double_body size pool) I 128 0 (b1, k) s)
    as (t' & s' & Hrun & (-> & Hst' & Hfr' & Hlg')).
  - repeat split; auto.
  - intros i t u Hi (-> & Hu & Hfr & Hlg).
    destruct (Hd i ltac:(lia)) as [Hok Hsub].
    apply slot_ok_cases in Hok.
    unfold resize_double_body.
    rewrite run_fs_bind, array_get_in by lia.
    unfold BLOCK_SECTOR_SIZE.
    destruct (Z.eqb_spec (nth i b1 0) 0) as [Hz|Hnz].
    + destruct (Z.leb_spec size ((140 + Z.of_nat i) * 512)); [|lia].
      destruct (Z.gtb_spec size ((140 + Z.of_nat i) * 512)); [lia|].
      cbn [andb negb]. exists (b1, k), u. split; [reflexivity|].
      repeat split; auto.
    + destruct (Z.leb_spec size ((140 + Z.of_nat i) * 512)); [lia|].
      destruct (Z.gtb_spec size ((140 + Z.of_nat i) * 512)); [|lia].
      cbn [andb negb].
      destruct (Hsub Hnz) as (buf2 & Hhold & Hsl).
      rewrite run_fs_bind. cbn [p_cache_read bind run_fs].
      rewrite Hu, Hhold, read_words_to_bytes by apply Hsl.
      rewrite run_fs_bind, slot_loop_noop by exact Hsl.
      cbn [p_cache_write bind run_fs].
      unfold array_set. rewrite Nat2Z.id, list_set_same.
      eexists _, _. split; [reflexivity|].
      repeat split; auto. intros x. cbn [store]. unfold upd.
      destruct (Z.eqb_spec x (nth i b1 0)) as [->|Hx]; [|apply Hu].
      symmetry. exact Hhold.
  - exists s'. repeat split; auto.
Qed.

End DoubleLoop.

(** ** Resize on an inode that is already at the requested length *)

Lemma set_direct_same m : set_direct m (direct m) = m.
Proof. destruct m; reflexivity. Qed.

Lemma set_length_same m : set_length m (d_length m) = m.
Proof. destruct m; reflexivity. Qed.

Lemma new_alloc_num_same m : new_alloc_num m (d_length m) = 0.
Proof.
  unfold new_alloc_num. rewrite Z.sub_diag. reflexivity.
Qed.

Lemma upd_same_content (st : Z -> list Z) (t : Z -> list Z) x c :
  (forall y, t y = st y) -> st x = c -> forall y, upd t x c y = st y.
Proof.
  intros Ht Hc y. unfold upd. destruct (Z.eqb_spec y x) as [->|_]; auto.
Qed.

Lemma resize_noop m st s :
  layout_ok (d_length m) m st ->
  (forall x, store s x = st x) ->
  exists s',
    run_fs (inode_resize m (d_length m)) s = Some ((true, m), s')
    /\ (forall x, store s' x = st x)
    /\ fs_free s' = fs_free s /\ fs_log s' = fs_log s ++ [0].
Proof.
  intros (Hdir & _ & Hlay) Hs.
  unfold inode_resize. rewrite run_fs_bind.
  cbn [p_free_map_allocate run_fs]. rewrite new_alloc_num_same.
  destruct (Z.leb_spec 0 (Z.of_nat (length (fs_free s)))); [|lia].
  change (Z.to_nat 0) with 0%nat. cbn [firstn skipn].
  rewrite run_fs_bind, direct_loop_noop by exact Hdir.
  cbv beta iota. rewrite set_direct_same. unfold BLOCK_SECTOR_SIZE.
  destruct Hlay as [[Hi0 Hsz]|(Hinz & (buf & Hhold & Hsl) & Hdbl)].
  - rewrite Hi0. cbn [Z.eqb andb].
    destruct (Z.leb_spec (d_length m) (12 * 512)); [|unfold BLOCK_SECTOR_SIZE in Hsz; lia].
    cbn [run_fs]. rewrite set_length_same.
    eexists. split; [reflexivity|]. cbn [store fs_free fs_log]. auto.
  - destruct (Z.eqb_spec (indirect m) 0) as [|_]; [contradiction|].
    cbn [andb]. rewrite run_fs_bind, run_fs_bind.
    cbn [p_cache_read run_fs store bind]. cbv beta iota.
    rewrite Hs, Hhold, read_words_to_bytes by apply Hsl.
    rewrite run_fs_bind, slot_loop_noop by exact Hsl.
    cbv beta iota. rewrite run_fs_bind.
    cbn [p_cache_write run_fs store fs_free fs_log bind].
    destruct Hdbl as [[Hd0 Hsz]|(Hdnz & buf1 & Hhold1 & Hdok)].
    + rewrite Hd0. cbn [Z.eqb andb].
      destruct (Z.leb_spec (d_length m) (140 * 512));
        [|unfold BLOCK_SECTOR_SIZE in Hsz; lia].
      cbn [run_fs]. rewrite set_length_same.
      eexists. split; [reflexivity|]. cbn [store fs_free fs_log].
      split; [|auto]. apply upd_same_content; [exact Hs|exact Hhold].
    + destruct (Z.eqb_spec (indirect_double m) 0) as [|_]; [contradiction|].
      cbn [andb]. rewrite run_fs_bind.
      cbn [run_fs store]. cbv beta iota.
      unfold upd at 1.
      assert (Hrd : (if indirect_double m =? indirect m
                     then words_to_bytes buf else store s (indirect_double m))
                    = words_to_bytes buf1).
      { destruct (Z.eqb_spec (indirect_double m) (indirect m)) as [E|_].
        - rewrite <- Hhold, <- E. exact Hhold1.
        - rewrite Hs. exact Hhold1. }
      rewrite Hrd, read_words_to_bytes by apply Hdok.
      destruct (double_loop_noop (d_length m) [] st buf1 0
                  (mk_fs (upd (store s) (indirect m) (words_to_bytes buf))
                     (fs_free s) (fs_log s ++ [0])) Hdok)
        as (s2 & Hrun & Hst2 & Hfr2 & Hlg2).
      { cbn [store]. apply upd_same_content; [exact Hs|exact Hhold]. }
      rewrite run_fs_bind, Hrun. cbv beta iota.
      cbn [run_fs store fs_free fs_log].
      rewrite set_length_same.
      eexists. split; [reflexivity|]. cbn [store fs_free fs_log].
      split; [|auto]. apply upd_same_content; [exact Hst2|exact Hhold1].
Qed.

(** ** Resize: the layout after a successful call *)

Lemma nonzero_in buf j :
  (j < length buf)%nat -> nth j buf 0 <> 0 ->
  In (nth j buf 0) (filter nonzero buf).
Proof.
  intros Hj Hnz. apply filter_In. split; [apply nth_In; exact Hj|].
  unfold nonzero. destruct (Z.eqb_spec (nth j buf 0) 0); [contradiction|reflexivity].
Qed.

Lemma NoDup_filter_nth buf :
  forall i j, NoDup (filter nonzero buf) ->
              (i < j < length buf)%nat -> nth i buf 0 <> 0 ->
              nth j buf 0 <> nth i buf 0.
Proof.
  induction buf as [|a buf IH]; intros i j Hnd Hij Hnz; simpl in Hij; [lia|].
  destruct j as [|j]; [lia|]. destruct i as [|i].
  - simpl in *. assert (Ha : nonzero a = true).
    { unfold nonzero. destruct (Z.eqb_spec a 0); [contradiction|reflexivity]. }
    rewrite Ha in Hnd. inversion Hnd as [|x l Hnotin _]; subst.
    intros Heq. apply Hnotin. rewrite <- Heq. apply nonzero_in; [lia|].
    rewrite Heq. exact Hnz.
  - simpl. apply IH; [|lia|exact Hnz].
    simpl in Hnd. destruct (nonzero a); [|exact Hnd].
    inversion Hnd; assumption.
Qed.

Lemma select_table_post pool (is_zero : bool) ptr (set : Z -> inode_disk)
    (m : inode_disk) k s r s' :
  Forall valid_sector pool ->
  is_zero = (ptr =? 0) -> set ptr = m ->
  run_fs (if is_zero then
            n <- array_get pool k ;;
            Ret (set n, zero_words, wrap_int (k + 1))
          else
            c <- p_cache_read ptr ;;
            Ret (m, read_words c, k)) s = Some (r, s') ->
  s' = s
  /\ exists ptr', fst (fst r) = set ptr' /\ ptr' <> 0 /\ words_ok (snd (fst r)).
Proof.
  intros Hp Hz Hset H. destruct (Z.eqb_spec ptr 0) as [E|E]; subst is_zero.
  - apply run_fs_bind_inv in H as (n & s1 & Hn & H).
    destruct (pool_entry _ _ _ _ _ Hp Hn) as [-> Hv].
    simpl in H. some_inv H. split; [reflexivity|].
    exists n. simpl. unfold valid_sector in Hv.
    repeat split; try lia; apply words_ok_zero.
  - simpl in H. some_inv H. split; [reflexivity|].
    exists ptr. simpl. split; [reflexivity|].
    split; [exact E|apply words_ok_read].
Qed.

Lemma resize_establishes m size s0 m1 s1 :
  length (direct m) = 12%nat ->
  Forall valid_sector (fs_free s0) ->
  run_fs (inode_resize m size) s0 = Some ((true, m1), s1) ->
  (indirect_double m1 <> 0 -> NoDup (index_sectors (store s1) m1)) ->
  layout_ok size m1 (store s1).
Proof.
  intros Hlen Hfree H Hnd. unfold inode_resize in H.
  rewrite run_fs_bind in H. cbn [p_free_map_allocate run_fs] in H.
  destruct (Z.leb_spec (new_alloc_num m size) (Z.of_nat (length (fs_free s0))));
    [|simpl in H; discriminate].
  remember (firstn (Z.to_nat (new_alloc_num m size)) (fs_free s0)) as pool eqn:Epool.
  assert (Hp : Forall valid_sector pool).
  { subst pool. apply Forall_forall. intros x Hx.
    rewrite Forall_forall in Hfree. apply Hfree.
    eapply In_nth_error in Hx. destruct Hx as [n Hn].
    apply nth_error_In with n. rewrite nth_error_firstn in Hn.
    destruct (n <? _)%nat; [exact Hn|discriminate]. }
  apply run_fs_bind_inv in H as ([d' k1] & sa & Hdirect & H).
  pose proof (direct_loop_post size pool Hp _ _ _ _ _ _ Hlen Hdirect) as Hdok.
  cbv beta iota in H. unfold BLOCK_SECTOR_SIZE in H.
  cbn [set_direct indirect indirect_double] in H.
  destruct ((indirect m =? 0) && (size <=? 12 * 512)) eqn:E1.
  { (* the direct pointers suffice *)
    simpl in H. some_inv H. apply andb_true_iff in E1 as [Ei Es].
    apply Z.eqb_eq in Ei. apply Z.leb_le in Es. unfold layout_ok. simpl.
    split; [exact Hdok|]. split; [reflexivity|]. left.
    unfold BLOCK_SECTOR_SIZE. split; assumption. }
  apply run_fs_bind_inv in H as ([[m2 buf0] k2] & sb & Hsel & H).
  apply (select_table_post pool (indirect m =? 0) (indirect m)
           (set_indirect (set_direct m d')) _ k1 sa _ sb Hp eq_refl) in Hsel;
    [|destruct m; reflexivity].
  destruct Hsel as (-> & ind1 & Hm2 & Hind1 & Hw0). simpl in Hm2, Hw0.
  apply run_fs_bind_inv in H as ([buf k3] & sc & Hloop & H).
  destruct (slot_loop_post size 12 pool Hp _ _ _ _ _ _ Hw0 Hloop) as [Hsl Hstc].
  rewrite run_fs_bind in H. cbn [p_cache_write run_fs] in H.
  subst m2. cbn [set_direct set_indirect indirect indirect_double] in H.
  destruct ((indirect_double m =? 0) && (size <=? 140 * 512)) eqn:E2.
  { (* the single-indirect table suffices *)
    simpl in H. some_inv H. apply andb_true_iff in E2 as [Ei Es].
    apply Z.eqb_eq in Ei. apply Z.leb_le in Es. unfold layout_ok. simpl.
    split; [exact Hdok|]. split; [reflexivity|]. right.
    split; [exact Hind1|]. split.
    - exists buf. split; [|exact Hsl]. unfold holds, upd.
      rewrite Z.eqb_refl. reflexivity.
    - left. unfold BLOCK_SECTOR_SIZE. split; assumption. }
  apply run_fs_bind_inv in H as ([[m3 buf10] k4] & se & Hsel & H).
  apply (select_table_post pool (indirect_double m =? 0) (indirect_double m)
           (set_indirect_double (set_indirect (set_direct m d') ind1))
           _ k3 _ _ se Hp eq_refl) in Hsel; [|destruct m; reflexivity].
  destruct Hsel as (-> & dbl1 & Hm3 & Hdbl1 & Hw10). simpl in Hm3, Hw10.
  apply run_fs_bind_inv in H as ([b1 k5] & sf & Hdl & H).
  destruct (double_loop_post size pool Hp 128 0 _ _ _ _ _ _ eq_refl Hw10 Hdl)
    as (Hw1 & _ & Hok1 & Hfr1 & Hh1).
  simpl in H. some_inv H. cbn [store] in *.
  cbn [set_length set_indirect_double set_indirect set_direct
       indirect indirect_double direct d_length] in *.
  specialize (Hnd Hdbl1). unfold index_sectors in Hnd.
  cbn [indirect indirect_double] in Hnd.
  unfold upd at 1 in Hnd. rewrite Z.eqb_refl, read_words_to_bytes in Hnd
    by exact Hw1.
  pose proof Hw1 as [Hlen1 _].
  inversion Hnd as [|x l Hind_notin Hnd2]; subst.
  inversion Hnd2 as [|x l Hdbl_notin Hnd3]; subst.
  assert (Hne : ind1 <> dbl1).
  { intros ->. apply Hind_notin. left. reflexivity. }
  assert (Hind_b1 : forall j, (j < 128)%nat -> nth j b1 0 <> 0 -> nth j b1 0 <> ind1).
  { intros j Hj Hnz Heq. apply Hind_notin. right. rewrite <- Heq.
    apply nonzero_in; [lia|exact Hnz]. }
  assert (Hdbl_b1 : forall j, (j < 128)%nat -> nth j b1 0 <> 0 -> nth j b1 0 <> dbl1).
  { intros j Hj Hnz Heq. apply Hdbl_notin. rewrite <- Heq.
    apply nonzero_in; [lia|exact Hnz]. }
  unfold layout_ok.
  cbn [set_length set_indirect_double set_indirect set_direct
       indirect indirect_double direct d_length].
  split; [exact Hdok|]. split; [reflexivity|]. right.
  split; [exact Hind1|]. split.
  - exists buf. split; [|exact Hsl]. unfold holds, upd.
    destruct (Z.eqb_spec ind1 dbl1); [contradiction|].
    rewrite Hfr1 by (intros j Hj; apply Hind_b1; lia).
    cbn [store]. unfold upd. rewrite Z.eqb_refl. reflexivity.
  - right. split; [exact Hdbl1|]. exists b1. split.
    + unfold holds, upd. rewrite Z.eqb_refl. reflexivity.
    + split; [exact Hw1|]. intros i Hi. split; [apply Hok1; lia|].
      intros Hnz. destruct (Hh1 i ltac:(lia) Hnz) as (buf2 & Hhold & Hsl2).
      { intros j' Hj'. apply NoDup_filter_nth; [exact Hnd3|lia|exact Hnz]. }
      exists buf2. split; [|exact Hsl2]. unfold holds, upd.
      destruct (Z.eqb_spec (nth i b1 0) dbl1) as [E|_];
        [exfalso; exact (Hdbl_b1 i Hi Hnz E)|].
      exact Hhold.
Qed.

(** ** Resize twice *)

Lemma resize_success_true m size s0 ok m1 s1 :
  new_alloc_num m size <= Z.of_nat (length (fs_free s0)) ->
  run_fs (inode_resize m size) s0 = Some ((ok, m1), s1) -> ok = true.
Proof.
  intros Hn H. unfold inode_resize in H.
  rewrite run_fs_bind in H. cbn [p_free_map_allocate run_fs] in H.
  destruct (Z.leb_spec (new_alloc_num m size) (Z.of_nat (length (fs_free s0))));
    [|lia].
  apply run_fs_bind_inv in H as ([d' k1] & sa & _ & H). cbv beta iota in H.
  destruct (_ && _); [simpl in H; some_inv H; reflexivity|].
  apply run_fs_bind_inv in H as ([[m2 buf0] k2] & sb & _ & H).
  apply run_fs_bind_inv in H as ([buf k3] & sc & _ & H).
  rewrite run_fs_bind in H. cbn [p_cache_write run_fs] in H.
  destruct (_ && _); [simpl in H; some_inv H; reflexivity|].
  apply run_fs_bind_inv in H as ([[m3 buf10] k4] & se & _ & H).
  apply run_fs_bind_inv in H as ([b1 k5] & sf & _ & H).
  simpl in H. some_inv H. reflexivity.
Qed.

Lemma resize_refused m size s :
  Z.of_nat (length (fs_free s)) < new_alloc_num m size ->
  run_fs (inode_resize m size) s
  = Some ((false, m),
          mk_fs (store s) (fs_free s) (fs_log s ++ [new_alloc_num m size])).
Proof.
  intros H. unfold inode_resize. rewrite run_fs_bind.
  cbn [p_free_map_allocate run_fs].
  destruct (Z.leb_spec (new_alloc_num m size) (Z.of_nat (length (fs_free s))));
    [lia|reflexivity].
Qed.

Lemma fs_resize_twice m size s0 ok1 m1 s1 s1' :
  length (direct m) = 12%nat ->
  Forall valid_sector (fs_free s0) ->
  run_fs (inode_resize m size) s0 = Some ((ok1, m1), s1) ->
  (indirect_double m1 <> 0 -> NoDup (index_sectors (store s1) m1)) ->
  fs_eq s1' s1 ->
  exists s2,
    run_fs (inode_resize m1 size) s1' = Some ((ok1, m1), s2)
    /\ (forall x, store s2 x = store s1 x)
    /\ fs_free s2 = fs_free s1
    /\ fs_log s2 = fs_log s1 ++ [new_alloc_num m1 size]
    /\ (ok1 = true -> d_length m1 = size /\ new_alloc_num m1 size = 0).
Proof.
  intros Hlen Hfree H Hnd (Hst & Hfr & Hlg).
  destruct (Z.leb_spec (new_alloc_num m size) (Z.of_nat (length (fs_free s0))))
    as [Hle|Hgt].
  - pose proof (resize_success_true _ _ _ _ _ _ Hle H). subst ok1.
    pose proof (resize_establishes m size s0 m1 s1 Hlen Hfree H Hnd) as Hlay.
    pose proof Hlay as (_ & Hsz & _). subst size.
    destruct (resize_noop m1 (store s1) s1' Hlay Hst)
      as (s2 & Hrun & Hst2 & Hfr2 & Hlg2).
    exists s2. rewrite new_alloc_num_same.
    repeat split; auto; congruence.
  - rewrite (resize_refused m size s0 Hgt) in H. some_inv H.
    cbn [fs_free fs_log store] in *.
    exists (mk_fs (store s1') (fs_free s1') (fs_log s1' ++ [new_alloc_num m1 size])).
    split; [apply resize_refused; rewrite Hfr; exact Hgt|].
    cbn [fs_free fs_log store]. repeat split; auto; try congruence.
    all: discriminate.
Qed.

Lemma reachable_ok w : cache_reachable w -> cache_ok w.
Proof.
  induction 1 as [d fm lg|w sec reader b w' _ IH Hf|w sec c w' _ IH Hr
                 |w src sec w' _ IH Hw|w _ IH|A p w a w' _ IH Hrun].
  - apply cache_init_ok.
  - destruct (find_block_post sec reader w IH) as (b0 & w0 & Hf0 & Hp).
    rewrite Hf in Hf0. some_inv Hf0. apply Hp.
  - destruct (cache_read_view sec w IH) as (w0 & Hr0 & Hok & _).
    rewrite Hr in Hr0. some_inv Hr0. exact Hok.
  - destruct (cache_write_view src sec w IH) as (w0 & Hw0 & Hok & _).
    rewrite Hw in Hw0. some_inv Hw0. exact Hok.
  - apply cache_init_ok.
  - destruct (run_to_fs A p w a w' IH Hrun) as (_ & _ & Hok & _). exact Hok.
Qed.

(** From a reachable cache state, with a struct of 12 direct pointers
    and a free map of valid sector numbers, let a first [inode_resize] to
    [size] return; if it reached the double-indirect table, let the index
    sectors it left be pairwise distinct.  A second [inode_resize] to
    [size] on the struct it left returns the same result and the same
    struct, every sector reads as before, and the free map is unchanged;
    after a success the stored length is [size] and the second call asks
    the allocator for 0 sectors. *)
Lemma resize_idempotent (w0 : world) (m : inode_disk) (size : Z)
    (ok1 : bool) (m1 : inode_disk) (w1 : world) :
  cache_reachable w0 ->
  length (direct m) = 12%nat ->
  Forall valid_sector (free_map w0) ->
  run (inode_resize m size) w0 = Some ((ok1, m1), w1) ->
  (indirect_double m1 <> 0 -> NoDup (index_sectors (view w1) m1)) ->
  exists w2,
    run (inode_resize m1 size) w1 = Some ((ok1, m1), w2)
    /\ (forall x, view w2 x = view w1 x)
    /\ free_map w2 = free_map w1
    /\ alloc_log w2 = alloc_log w1 ++ [new_alloc_num m1 size]
    /\ (ok1 = true -> d_length m1 = size /\ new_alloc_num m1 size = 0).
Proof.
  intros Hreach Hlen Hfree Hrun Hnd.
  pose proof (reachable_ok w0 Hreach) as Hok0.
  destruct (run_to_fs _ _ _ _ _ Hok0 Hrun) as (s1 & Hfs & Hok1 & Heq1).
  pose proof Heq1 as (Hst1 & Hfr1 & Hlg1). cbn [abs store fs_free fs_log] in *.
  destruct (fs_resize_twice m size (abs w0) ok1 m1 s1 (abs w1) Hlen Hfree Hfs)
    as (s2 & Hrun2 & Hst2 & Hfr2 & Hlg2 & Hlen2).
  { unfold index_sectors in *. rewrite <- Hst1. exact Hnd. }
  { exact Heq1. }
  destruct (run_of_fs _ _ w1 (abs w1) _ _ Hok1 (fs_eq_refl _) Hrun2)
    as (w2 & Hrun' & _ & (Hst' & Hfr' & Hlg')).
  cbn [abs store fs_free fs_log] in *.
  exists w2. split; [exact Hrun'|].
  split; [intros x; rewrite Hst', Hst2, Hst1; reflexivity|].
  split; [congruence|]. split; [congruence|exact Hlen2].
Qed.

Lemma nodupb_sound l : nodupb l = true -> NoDup l.
Proof.
  induction l as [|x t IH]; intros H; [constructor|].
  simpl in H. apply andb_true_iff in H as [Hx Ht].
  constructor; [|apply IH; exact Ht].
  intros Hin. apply negb_true_iff in Hx.
  assert (existsb (Z.eqb x) t = true); [|congruence].
  apply existsb_exists. exists x. split; [exact Hin|apply Z.eqb_refl].
Qed.

Lemma valid_sectorb_sound l : forallb valid_sectorb l = true -> Forall valid_sector l.
Proof.
  intros H. apply Forall_forall. intros x Hx.
  rewrite forallb_forall in H. specialize (H x Hx).
  unfold valid_sectorb in H. apply andb_true_iff in H as [H1 H2].
  apply Z.ltb_lt in H1, H2. split; assumption.
Qed.

Lemma resize_idempotent_witness :
  exists w2,
    run (inode_resize big_inode_disk (300 * 512)) resized_file_again
    = Some ((true, big_inode_disk), w2)
    /\ (forall x, view w2 x = view resized_file_again x)
    /\ free_map w2 = free_map resized_file_again
    /\ alloc_log w2
       = alloc_log resized_file_again
         ++ [new_alloc_num big_inode_disk (300 * 512)]
    /\ (true = true ->
        d_length big_inode_disk = 300 * 512
        /\ new_alloc_num big_inode_disk (300 * 512) = 0).
Proof.
  apply (resize_idempotent resized_file big_inode_disk (300 * 512)
           true big_inode_disk resized_file_again).
  - apply reach_init.
  - reflexivity.
  - apply valid_sectorb_sound. vm_compute. reflexivity.
  - vm_compute. reflexivity.
  - intros _. apply nodupb_sound. vm_compute. reflexivity.
Defined.




(** ** Further consequences of the two counting defects *)

(** Where [bytes_to_blocks] and the specified count differ: exactly on the
    lengths whose sectors beyond 140 do not fill a whole number of
    second-level tables, and there by one. *)
Lemma bytes_to_blocks_vs_spec size :
  0 <= size < 2 ^ 31 - 511 ->
  let d := bytes_to_sectors size in
  block_count_spec size
  = bytes_to_blocks size
    + (if (140 <? d) && negb ((d - 140) mod 128 =? 0) then 1 else 0).
Proof.
  intros H d. pose proof (bytes_to_sectors_bound size H) as Hb.
  rewrite (bytes_to_blocks_cases size H). cbv zeta. fold d in Hb |- *.
  unfold block_count_spec. rewrite <- (bytes_to_sectors_ceil size H). fold d.
  destruct (Z.leb_spec d 12); [destruct (Z.ltb_spec 140 d); simpl; lia|].
  destruct (Z.leb_spec d 140); [destruct (Z.ltb_spec 140 d); simpl; lia|].
  destruct (Z.ltb_spec 140 d); [|lia]. cbn [andb].
  pose proof (Z.div_mod (d - 140) 128 ltac:(lia)) as Hdm.
  pose proof (Z.mod_pos_bound (d - 140) 128 ltac:(lia)) as Hr.
  unfold ceil_div.
  destruct (Z.eqb_spec ((d - 140) mod 128) 0) as [E|E]; cbn [negb].
  - assert ((d - 140 + 128 - 1) / 128 = (d - 140) / 128); [|lia].
    symmetry. apply (Z.div_unique _ 128 _ 127); lia.
  - assert ((d - 140 + 128 - 1) / 128 = (d - 140) / 128 + 1); [|lia].
    symmetry. apply (Z.div_unique _ 128 _ ((d - 140) mod 128 - 1)); lia.
Qed.

(** Closing the last handle of a removed file resizes it to length 0;
    for the two-sector file that request is refused like every shrink, so
    only the inode sector goes back to the free map and the data sectors
    100 and 101 stay allocated. *)
Lemma close_removed_file_leaks :
  result (run (inode_close (mk_inode 2 1 true 0)) small_file) = Some None
  /\ free_map (after (run (inode_close (mk_inode 2 1 true 0)) small_file) small_file)
     = 2 :: free_map small_file.
Proof. split; vm_compute; reflexivity. Qed.

(** On the direct range the slot that [byte_to_sector] reads is that of
    sector index [(pos - 1) / 512]: one less than the index [pos / 512] of
    the sector holding [pos] whenever [pos] is a multiple of 512. *)
Lemma byte_to_sector_direct ino pos s :
  0 < pos <= 12 * 512 ->
  run_fs (byte_to_sector ino pos) s
  = Some (nth (Z.to_nat ((pos - 1) / 512))
            (direct (decode_inode_disk (store s (sector ino)))) 0, s).
Proof.
  intros H. unfold byte_to_sector.
  rewrite run_fs_bind. cbn [p_cache_read_null run_fs].
  rewrite bytes_to_sectors_ceil by lia. unfold ceil_div, BLOCK_SECTOR_SIZE.
  assert (Hq : (pos + 512 - 1) / 512 = (pos - 1) / 512 + 1).
  { replace (pos + 512 - 1) with (pos - 1 + 1 * 512) by lia.
    rewrite Z.div_add by lia. reflexivity. }
  assert (Hb : 0 <= (pos - 1) / 512 < 12).
  { split; [apply Z.div_pos; lia|apply Z.div_lt_upper_bound; lia]. }
  rewrite Hq. destruct (Z.leb_spec ((pos - 1) / 512 + 1) 12); [|lia].
  replace ((pos - 1) / 512 + 1 - 1) with ((pos - 1) / 512) by lia.
  rewrite wrap_size_t_small by lia.
  unfold array_get. rewrite decode_direct_length.
  destruct (Z.leb_spec 0 ((pos - 1) / 512)); [|lia].
  destruct (Z.ltb_spec ((pos - 1) / 512) (Z.of_nat 12)); [|lia].
  reflexivity.
Qed.

(** * Further properties of the buffer cache *)

(** The cache is invisible to the code above it: from a reachable state,
    a program run through [find_block_and_acq_lock], with its evictions
    and write-backs, returns what it returns when run on the plain map of
    sector contents, and leaves the same contents, free map and request
    log. *)
Theorem cache_transparent (A : Type) (p : prog A) (w : world) :
  cache_reachable w ->
  match run p w, run_fs p (abs w) with
  | Some (a, w'), Some (a', s') =>
      a = a' /\ (forall x, view w' x = store s' x)
      /\ free_map w' = fs_free s' /\ alloc_log w' = fs_log s'
  | None, None => True
  | _, _ => False
  end.
Proof.
  intros H. pose proof (reachable_ok w H) as Hok.
  pose proof (run_simulation A p w (abs w) Hok (fs_eq_refl _)) as Hs.
  unfold sim_result in Hs.
  destruct (run p w) as [[a w']|], (run_fs p (abs w)) as [[a' s']|]; auto.
  destruct Hs as (Ha & _ & Hst & Hfr & Hlg). auto.
Qed.

Lemma cache_transparent_witness :
  match run (inode_create 2 1024) (world0 (range 100 50)),
        run_fs (inode_create 2 1024) (abs (world0 (range 100 50))) with
  | Some (a, w'), Some (a', s') =>
      a = a' /\ (forall x, view w' x = store s' x)
      /\ free_map w' = fs_free s' /\ alloc_log w' = fs_log s'
  | None, None => True
  | _, _ => False
  end.
Proof.
  apply (cache_transparent bool (inode_create 2 1024) (world0 (range 100 50))).
  apply reach_init.
Defined.

(** What is written to a sector is what the next read of it returns, and
    the write leaves what every other sector reads as unchanged. *)
Theorem cache_write_then_read (w : world) (src : list Z) (sec : Z) :
  cache_reachable w ->
  exists w1,
    cache_write src sec w = Some w1
    /\ (exists w2, cache_read sec w1 = Some (src, w2))
    /\ (forall sec' c w', sec' <> sec -> cache_read sec' w = Some (c, w') ->
          exists w2, cache_read sec' w1 = Some (c, w2)).
Proof.
  intros H. pose proof (reachable_ok w H) as Hok.
  destruct (cache_write_view src sec w Hok) as (w1 & Hw & Hok1 & (Hst & _ & _)).
  cbn [abs store] in Hst.
  exists w1. split; [exact Hw|]. split.
  - destruct (cache_read_view sec w1 Hok1) as (w2 & Hr & _).
    exists w2. rewrite Hr, Hst. unfold upd. rewrite Z.eqb_refl. reflexivity.
  - intros sec' c w' Hne Hr0.
    destruct (cache_read_view sec' w Hok) as (w0 & Hr & _).
    rewrite Hr0 in Hr. some_inv Hr.
    destruct (cache_read_view sec' w1 Hok1) as (w2 & Hr1 & _).
    exists w2. rewrite Hr1, Hst. unfold upd.
    destruct (Z.eqb_spec sec' sec); [contradiction|reflexivity].
Qed.

Lemma cache_write_then_read_witness :
  exists w1,
    cache_write (pattern 512) 7 small_file = Some w1
    /\ (exists w2, cache_read 7 w1 = Some (pattern 512, w2))
    /\ (forall sec' c w', sec' <> 7 -> cache_read sec' small_file = Some (c, w') ->
          exists w2, cache_read sec' w1 = Some (c, w2)).
Proof.
  apply (cache_write_then_read small_file (pattern 512) 7).
  apply (reach_run bool (inode_create 2 1024) (world0 (range 100 50)) true).
  - apply reach_init.
  - vm_compute. reflexivity.
Defined.

(** A lookup that follows a lookup of the same sector is a hit on the
    slot at the front: it returns the same contents, adds one to that
    slot's hit counter, and leaves the device and the other slots alone. *)
Theorem lookup_again_hits (w : world) (sec : Z) (r1 r2 : bool)
    (b : cache_block) (w1 : world) :
  cache_reachable w ->
  find_block_and_acq_lock sec r1 w = Some (b, w1) ->
  exists b2 w2,
    find_block_and_acq_lock sec r2 w1 = Some (b2, w2)
    /\ content b2 = content b
    /\ hit_cnt b2 = wrap_int (hit_cnt b + 1) /\ miss_cnt b2 = miss_cnt b
    /\ cache w2 = b2 :: tl (cache w1)
    /\ disk w2 = disk w1.
Proof.
  intros H Hf. pose proof (reachable_ok w H) as Hok.
  destruct (find_block_post sec r1 w Hok) as (b0 & w0 & Hf0 & Hp).
  rewrite Hf in Hf0. some_inv Hf0.
  destruct Hp as [[rest Hc] Hm _ _ _ _ _ _].
  unfold find_block_and_acq_lock. rewrite Hc. cbn [cache_scan]. rewrite Hm.
  do 2 eexists. split; [reflexivity|]. cbn. repeat split.
Qed.

Lemma lookup_again_hits_witness :
  exists b2 w2,
    find_block_and_acq_lock 7 false
      (after (option_map (fun r => (tt, snd r))
                (find_block_and_acq_lock 7 true small_file)) small_file)
    = Some (b2, w2)
    /\ content b2 = content (mk_cache_block zeros false true 7 0 1)
    /\ hit_cnt b2 = wrap_int (hit_cnt (mk_cache_block zeros false true 7 0 1) + 1)
    /\ miss_cnt b2 = miss_cnt (mk_cache_block zeros false true 7 0 1)
    /\ cache w2
       = b2 :: tl (cache (after (option_map (fun r => (tt, snd r))
                                   (find_block_and_acq_lock 7 true small_file))
                            small_file))
    /\ disk w2
       = disk (after (option_map (fun r => (tt, snd r))
                        (find_block_and_acq_lock 7 true small_file)) small_file).
Proof.
  apply (lookup_again_hits small_file 7 true false).
  - apply (reach_run bool (inode_create 2 1024) (world0 (range 100 50)) true).
    + apply reach_init.
    + vm_compute. reflexivity.
  - vm_compute. reflexivity.
Defined.

(** ** Hit and miss counters *)

Lemma hits_nonneg l : (forall b, In b l -> 0 <= hit_cnt b) -> 0 <= total_hits l.
Proof.
  induction l as [|b l IH]; intros H; simpl; [lia|].
  assert (0 <= hit_cnt b) by (apply H; left; reflexivity).
  assert (0 <= total_hits l) by (apply IH; intros x Hx; apply H; right; exact Hx).
  lia.
Qed.

Lemma misses_nonneg l :
  (forall b, In b l -> 0 <= miss_cnt b) -> 0 <= total_misses l.
Proof.
  induction l as [|b l IH]; intros H; simpl; [lia|].
  assert (0 <= miss_cnt b) by (apply H; left; reflexivity).
  assert (0 <= total_misses l) by (apply IH; intros x Hx; apply H; right; exact Hx).
  lia.
Qed.

Lemma fold_hits_plain l :
  forall acc,
    (forall b, In b l -> 0 <= hit_cnt b) -> 0 <= acc ->
    acc + total_hits l < 2 ^ 31 ->
    fold_left (fun a b => wrap_int (a + hit_cnt b)) l acc = acc + total_hits l.
Proof.
  induction l as [|b l IH]; intros acc Hnn Hacc Hlt; simpl in *; [lia|].
  assert (Hb : 0 <= hit_cnt b) by (apply Hnn; left; reflexivity).
  assert (Ht : 0 <= total_hits l).
  { apply hits_nonneg. intros x Hx. apply Hnn. right. exact Hx. }
  rewrite wrap_int_small by lia.
  rewrite IH; [lia| |lia|lia]. intros x Hx. apply Hnn. right. exact Hx.
Qed.

Lemma fold_misses_plain l :
  forall acc,
    (forall b, In b l -> 0 <= miss_cnt b) -> 0 <= acc ->
    acc + total_misses l < 2 ^ 31 ->
    fold_left (fun a b => wrap_int (a + miss_cnt b)) l acc = acc + total_misses l.
Proof.
  induction l as [|b l IH]; intros acc Hnn Hacc Hlt; simpl in *; [lia|].
  assert (Hb : 0 <= miss_cnt b) by (apply Hnn; left; reflexivity).
  assert (Ht : 0 <= total_misses l).
  { apply misses_nonneg. intros x Hx. apply Hnn. right. exact Hx. }
  rewrite wrap_int_small by lia.
  rewrite IH; [lia| |lia|lia]. intros x Hx. apply Hnn. right. exact Hx.
Qed.

Lemma total_hits_app l1 l2 : total_hits (l1 ++ l2) = total_hits l1 + total_hits l2.
Proof. induction l1 as [|b l1 IH]; simpl; [reflexivity|]. rewrite IH. lia. Qed.

Lemma total_misses_app l1 l2 :
  total_misses (l1 ++ l2) = total_misses l1 + total_misses l2.
Proof. induction l1 as [|b l1 IH]; simpl; [reflexivity|]. rewrite IH. lia. Qed.

Lemma total_nonneg l :
  (forall b, In b l -> 0 <= hit_cnt b /\ 0 <= miss_cnt b) ->
  0 <= total_hits l /\ 0 <= total_misses l.
Proof.
  induction l as [|b l IH]; intros H; simpl; [lia|].
  destruct (H b (or_introl eq_refl)).
  destruct IH; [intros x Hx; apply H; right; exact Hx|]. lia.
Qed.

Lemma counters_at_init : counters_at 0 cache_init.
Proof.
  split; [|reflexivity]. intros b Hb. apply repeat_spec in Hb. subst b.
  simpl. lia.
Qed.

(** One lookup adds one to the sum of all counters. *)
Lemma find_block_counts n sec reader w b w' :
  0 <= n < 2 ^ 31 - 1 ->
  counters_at n (cache w) ->
  find_block_and_acq_lock sec reader w = Some (b, w') ->
  counters_at (n + 1) (cache w')
  /\ exists rest, cache w' = b :: rest.
Proof.
  intros Hn [Hnn Hsum] H. unfold find_block_and_acq_lock in H.
  destruct (cache_scan sec (cache w)) as [[[[pre b0] post] nf]|] eqn:Es;
    [|discriminate].
  destruct (cache_scan_split _ _ _ _ _ _ Es) as (Hl & _ & _).
  rewrite Hl in Hnn, Hsum.
  rewrite total_hits_app, total_misses_app in Hsum. simpl in Hsum.
  assert (Hb0 : 0 <= hit_cnt b0 /\ 0 <= miss_cnt b0).
  { apply Hnn. apply in_or_app. right. left. reflexivity. }
  destruct (total_nonneg pre) as [Hp1 Hp2].
  { intros x Hx. apply Hnn. apply in_or_app. left. exact Hx. }
  destruct (total_nonneg post) as [Hq1 Hq2].
  { intros x Hx. apply Hnn. apply in_or_app. right. right. exact Hx. }
  assert (Hin : forall x, In x (pre ++ post) -> 0 <= hit_cnt x /\ 0 <= miss_cnt x).
  { intros x Hx. apply Hnn. apply in_app_or in Hx as [Hx|Hx]; apply in_or_app;
      [left|right; right]; exact Hx. }
  destruct nf; some_inv H; cbn [cache]; (split; [|eauto]); split.
  - intros x [<-|Hx]; [|apply Hin; exact Hx]. cbn [hit_cnt miss_cnt].
    rewrite wrap_int_small by lia. lia.
  - cbn [total_hits total_misses fold_right hit_cnt miss_cnt].
    fold (total_hits (pre ++ post)). fold (total_misses (pre ++ post)).
    rewrite total_hits_app, total_misses_app, wrap_int_small by lia. lia.
  - intros x [<-|Hx]; [|apply Hin; exact Hx]. cbn [hit_cnt miss_cnt].
    rewrite wrap_int_small by lia. lia.
  - cbn [total_hits total_misses fold_right hit_cnt miss_cnt].
    fold (total_hits (pre ++ post)). fold (total_misses (pre ++ post)).
    rewrite total_hits_app, total_misses_app, wrap_int_small by lia. lia.
Qed.

Lemma cache_ops_counts ops :
  forall n w w',
    0 <= n -> n + Z.of_nat (length ops) < 2 ^ 31 ->
    counters_at n (cache w) ->
    cache_ops ops w = Some w' ->
    counters_at (n + Z.of_nat (length ops)) (cache w').
Proof.
  induction ops as [|o ops IH]; intros n w w' Hn Hlt Hc H.
  - simpl in H. some_inv H. simpl. rewrite Z.add_0_r. exact Hc.
  - cbn [length] in *. rewrite Nat2Z.inj_succ in *.
    replace (n + Z.succ (Z.of_nat (length ops)))
      with ((n + 1) + Z.of_nat (length ops)) in * by lia.
    destruct o as [sec|src sec]; cbn [cache_ops] in H.
    + unfold cache_read in H.
      destruct (find_block_and_acq_lock sec true w) as [[b w1]|] eqn:Ef;
        [|discriminate].
      destruct (find_block_counts n _ _ _ _ _ ltac:(lia) Hc Ef) as [Hc1 _].
      eapply IH; [| |exact Hc1|exact H]; lia.
    + unfold cache_write in H.
      destruct (find_block_and_acq_lock sec false w) as [[b w1]|] eqn:Ef;
        [|discriminate].
      destruct (find_block_counts n _ _ _ _ _ ltac:(lia) Hc Ef)
        as [[Hnn1 Hs1] [rest Hc1]].
      eapply IH; [| | |exact H]; try lia.
      rewrite Hc1 in *. cbn [cache tl]. split.
      * intros x [<-|Hx]; [apply (Hnn1 b); left; reflexivity|].
        apply Hnn1. right. exact Hx.
      * exact Hs1.
Qed.

(** After any sequence of reads and writes on a fresh cache, the hit count
    and the miss count reported add up to the number of operations. *)
Theorem hits_plus_misses (ops : list cache_op) (d : Z -> list Z)
    (fm lg : list Z) (w' : world) :
  Z.of_nat (length ops) < 2 ^ 31 ->
  cache_ops ops (mk_world cache_init d fm lg) = Some w' ->
  get_cache_hit_cnt w' + get_cache_miss_cnt w' = Z.of_nat (length ops).
Proof.
  intros Hlen H.
  pose proof (cache_ops_counts ops 0 (mk_world cache_init d fm lg) w'
                ltac:(lia) ltac:(lia) counters_at_init H) as [Hnn Hsum].
  rewrite Z.add_0_l in Hsum.
  destruct (total_nonneg _ Hnn) as [Hh Hm].
  unfold get_cache_hit_cnt, get_cache_miss_cnt.
  rewrite fold_hits_plain, fold_misses_plain; try lia;
    intros b Hb; apply Hnn; exact Hb.
Qed.

Lemma hits_plus_misses_witness :
  get_cache_hit_cnt
    (after (option_map (fun w => (tt, w))
              (cache_ops [OpWrite (pattern 512) 5; OpRead 5; OpRead 9; OpRead 5]
                 (world0 []))) (world0 []))
  + get_cache_miss_cnt
      (after (option_map (fun w => (tt, w))
                (cache_ops [OpWrite (pattern 512) 5; OpRead 5; OpRead 9; OpRead 5]
                   (world0 []))) (world0 []))
  = Z.of_nat (length [OpWrite (pattern 512) 5; OpRead 5; OpRead 9; OpRead 5]).
Proof.
  apply (hits_plus_misses
           [OpWrite (pattern 512) 5; OpRead 5; OpRead 9; OpRead 5]
           (fun _ => zeros) [] []).
  - vm_compute. reflexivity.
  - vm_compute. reflexivity.
Defined.

(** ** Reset and write-back *)

Lemma cache_unique_tail b l : cache_unique (b :: l) -> cache_unique l.
Proof.
  intros H s. specialize (H s). rewrite valid_count_cons in H. lia.
Qed.

Lemma cache_destroy_view l :
  forall d, cache_unique l -> cache_clean l d ->
            forall x, cache_destroy l d x
                      = match find (matches x) l with
                        | Some b => content b
                        | None => d x
                        end.
Proof.
  induction l as [|b l IH]; intros d Hu Hc x; [reflexivity|].
  cbn [cache_destroy find].
  set (d' := if is_valid b && is_dirty b
             then block_write d (bst b) (content b) else d).
  assert (Hd' : forall y, matches y b = false -> d' y = d y).
  { intros y Hy. unfold d'. destruct (is_valid b) eqn:Ev; [|reflexivity].
    destruct (is_dirty b); [|reflexivity]. simpl.
    unfold block_write, upd. rewrite (matches_false_valid y b Hy Ev).
    reflexivity. }
  assert (Hrest : forall y, In y l -> is_valid y = true -> matches (bst y) b = false).
  { intros y Hy Hv. destruct (matches (bst y) b) eqn:E; [|reflexivity].
    exfalso. specialize (Hu (bst y)). rewrite valid_count_cons, E in Hu.
    assert (1 <= valid_count (bst y) l)%nat.
    { eapply valid_count_in; [exact Hy|].
      unfold matches. rewrite Hv. simpl. apply Z.eqb_refl. }
    lia. }
  rewrite IH.
  - destruct (matches x b) eqn:Ex.
    + rewrite find_none.
      * unfold matches in Ex. apply andb_true_iff in Ex as [Ev Eb].
        apply Z.eqb_eq in Eb. unfold d'. rewrite Ev. simpl.
        destruct (is_dirty b) eqn:Ed.
        -- unfold block_write, upd. rewrite <- Eb, Z.eqb_refl. reflexivity.
        -- rewrite <- Eb. symmetry. apply Hc; auto. left. reflexivity.
      * intros y Hy. destruct (matches x y) eqn:Ey; [|reflexivity].
        exfalso. specialize (Hu x). rewrite valid_count_cons, Ex in Hu.
        pose proof (valid_count_in x y l Hy Ey). lia.
    + destruct (find (matches x) l); [reflexivity|]. apply Hd'. exact Ex.
  - eapply cache_unique_tail. exact Hu.
  - intros y Hy Hv Hcl. rewrite Hd' by (apply Hrest; assumption).
    apply Hc; auto. right. exact Hy.
Qed.

(** [cache_reset] loses nothing: afterwards the device itself holds, for
    every sector, what a read of that sector returned before, and reads
    through the fresh cache return the same. *)
Theorem cache_reset_flushes (w : world) :
  cache_reachable w ->
  (forall x, disk (cache_reset w) x = view w x)
  /\ (forall x c w', cache_read x w = Some (c, w') ->
        exists w'', cache_read x (cache_reset w) = Some (c, w'')).
Proof.
  intros H. pose proof (reachable_ok w H) as (Hne & Hu & Hc).
  assert (Hd : forall x, disk (cache_reset w) x = view w x).
  { intros x. unfold cache_reset, view. cbn [disk].
    apply cache_destroy_view; assumption. }
  split; [exact Hd|].
  intros x c w' Hr.
  destruct (cache_read_view x w (conj Hne (conj Hu Hc))) as (w0 & Hr0 & _).
  rewrite Hr in Hr0. some_inv Hr0.
  assert (Hok : cache_ok (cache_reset w)) by apply cache_init_ok.
  destruct (cache_read_view x (cache_reset w) Hok) as (w1 & Hr1 & _).
  exists w1. rewrite Hr1. f_equal. f_equal.
  unfold view at 1. rewrite find_none; [apply Hd|].
  intros y Hy. apply repeat_spec in Hy. subst y. reflexivity.
Qed.

Lemma cache_reset_flushes_witness :
  (forall x, disk (cache_reset small_file_written) x = view small_file_written x)
  /\ (forall x c w', cache_read x small_file_written = Some (c, w') ->
        exists w'', cache_read x (cache_reset small_file_written) = Some (c, w'')).
Proof.
  apply (cache_reset_flushes small_file_written).
  apply (reach_run Z (inode_write_at (handle 2) (pattern 512) 512 512)
           small_file 512).
  - apply (reach_run bool (inode_create 2 1024) (world0 (range 100 50)) true).
    + apply reach_init.
    + vm_compute. reflexivity.
  - vm_compute. reflexivity.
Defined.

(** ** Least-recently-used order *)

Lemma pos_of_app s l1 l2 :
  pos_of s (l1 ++ l2)
  = match pos_of s l1 with
    | Some p => Some p
    | None => option_map (fun q => (length l1 + q)%nat) (pos_of s l2)
    end.
Proof.
  induction l1 as [|b l1 IH]; simpl.
  - destruct (pos_of s l2); reflexivity.
  - destruct (matches s b); [reflexivity|]. rewrite IH.
    destruct (pos_of s l1); [reflexivity|].
    destruct (pos_of s l2); reflexivity.
Qed.

Lemma pos_of_lt s l p : pos_of s l = Some p -> (p < length l)%nat.
Proof.
  revert p. induction l as [|b l IH]; intros p H; simpl in *; [discriminate|].
  destruct (matches s b); [some_inv H; lia|].
  destruct (pos_of s l) as [q|]; [|discriminate]. some_inv H.
  specialize (IH q eq_refl). lia.
Qed.

Lemma pos_of_cached s l p : pos_of s l = Some p -> existsb (matches s) l = true.
Proof.
  revert p. induction l as [|b l IH]; intros p H; simpl in *; [discriminate|].
  destruct (matches s b); [reflexivity|].
  destruct (pos_of s l) as [q|]; [|discriminate]. eapply IH. reflexivity.
Qed.

(** A lookup of another sector moves the slot holding [s] back by at most
    one place, as long as that slot is not the last. *)
Lemma find_block_pos s sec reader w b w' p :
  sec <> s ->
  pos_of s (cache w) = Some p -> (S p < length (cache w))%nat ->
  find_block_and_acq_lock sec reader w = Some (b, w') ->
  exists p', pos_of s (cache w') = Some p' /\ (p' <= S p)%nat
             /\ matches sec b = true /\ exists rest, cache w' = b :: rest.
Proof.
  intros Hne Hp Hlt H. unfold find_block_and_acq_lock in H.
  destruct (cache_scan sec (cache w)) as [[[[pre b0] post] nf]|] eqn:Es;
    [|discriminate].
  destruct (cache_scan_split _ _ _ _ _ _ Es) as (Hl & _ & Hnf).
  rewrite Hl in Hp, Hlt. rewrite pos_of_app in Hp. rewrite length_app in Hlt.
  destruct nf; some_inv H; cbn [cache pos_of].
  - destruct Hnf as [-> _]. simpl in Hlt.
    assert (Hm : matches sec
                   (mk_cache_block
                      (block_read
                         (if is_valid b0 && is_dirty b0
                          then block_write (disk w) (bst b0) (content b0)
                          else disk w) sec) false true sec
                      (hit_cnt b0) (wrap_int (miss_cnt b0 + 1))) = true).
    { unfold matches. simpl. apply Z.eqb_refl. }
    rewrite (matches_other sec s _ Hm (not_eq_sym Hne)), app_nil_r.
    destruct (pos_of s pre) as [q|] eqn:Eq.
    + some_inv Hp. exists (S p). simpl. repeat split; eauto.
    + exfalso. destruct (pos_of s [b0]) as [q|]; [|discriminate].
      simpl in Hp. some_inv Hp. lia.
  - assert (Hm : matches sec
                   (mk_cache_block (content b0) (is_dirty b0) (is_valid b0)
                      (bst b0) (wrap_int (hit_cnt b0 + 1)) (miss_cnt b0)) = true).
    { rewrite (matches_same sec b0) by reflexivity. exact Hnf. }
    rewrite (matches_other sec s _ Hm (not_eq_sym Hne)), pos_of_app.
    cbn [pos_of] in Hp. rewrite (matches_other sec s b0 Hnf (not_eq_sym Hne)) in Hp.
    destruct (pos_of s pre) as [q|] eqn:Eq.
    + some_inv Hp. exists (S p). simpl. repeat split; eauto.
    + destruct (pos_of s post) as [q|]; [|discriminate].
      simpl in Hp. some_inv Hp. exists (S (length pre + q)). simpl.
      repeat split; eauto. lia.
Qed.

Lemma find_block_front sec reader w b w' :
  find_block_and_acq_lock sec reader w = Some (b, w') ->
  pos_of sec (cache w') = Some O /\ matches sec b = true
  /\ exists rest, cache w' = b :: rest.
Proof.
  intros H. unfold find_block_and_acq_lock in H.
  destruct (cache_scan sec (cache w)) as [[[[pre b0] post] nf]|] eqn:Es;
    [|discriminate].
  destruct (cache_scan_split _ _ _ _ _ _ Es) as (_ & _ & Hnf).
  destruct nf; some_inv H; cbn [cache pos_of].
  - assert (Hm : forall c h m, matches sec (mk_cache_block c false true sec h m) = true).
    { intros. unfold matches. simpl. apply Z.eqb_refl. }
    rewrite Hm. repeat split; eauto.
  - rewrite (matches_same sec b0) by reflexivity. rewrite Hnf.
    repeat split; eauto.
Qed.

Lemma cache_op_pos s o w w' p :
  op_sector o <> s ->
  pos_of s (cache w) = Some p -> (S p < length (cache w))%nat ->
  cache_unique (cache w) ->
  cache_ops [o] w = Some w' ->
  (exists p', pos_of s (cache w') = Some p' /\ (p' <= S p)%nat)
  /\ length (cache w') = length (cache w) /\ cache_unique (cache w').
Proof.
  intros Hne Hp Hlt Hu H. destruct o as [sec|src sec]; cbn [cache_ops op_sector] in *.
  - destruct (cache_read sec w) as [[c w1]|] eqn:Hr; [|discriminate]. some_inv H.
    unfold cache_read in Hr.
    destruct (find_block_and_acq_lock sec true w) as [[b w1]|] eqn:Ef;
      [|discriminate].
    some_inv Hr.
    destruct (find_block_pos _ _ _ _ _ _ _ Hne Hp Hlt Ef) as (p' & Hp' & Hle & _).
    destruct (find_block_unique _ _ _ _ _ Hu Ef) as [Hu' Hlen].
    split; [eauto|]. split; assumption.
  - destruct (cache_write src sec w) as [w1|] eqn:Hw; [|discriminate]. some_inv H.
    destruct (cache_write_unique _ _ _ _ Hu Hw) as [Hu' Hlen].
    split; [|split; assumption].
    unfold cache_write in Hw.
    destruct (find_block_and_acq_lock sec false w) as [[b w1]|] eqn:Ef;
      [|discriminate].
    some_inv Hw.
    destruct (find_block_pos _ _ _ _ _ _ _ Hne Hp Hlt Ef)
      as (p' & Hp' & Hle & Hm & rest & Hc).
    exists p'. split; [|exact Hle]. rewrite Hc in *. cbn [cache tl pos_of] in *.
    rewrite (matches_same s b) by reflexivity. exact Hp'.
Qed.

Lemma cache_ops_pos s ops :
  forall w w' p,
    (forall o, In o ops -> op_sector o <> s) ->
    pos_of s (cache w) = Some p ->
    (p + length ops < length (cache w))%nat ->
    cache_unique (cache w) ->
    cache_ops ops w = Some w' ->
    exists p', pos_of s (cache w') = Some p'.
Proof.
  induction ops as [|o ops IH]; intros w w' p Hne Hp Hlt Hu H.
  - simpl in H. some_inv H. eauto.
  - assert (Hstep : exists w1, cache_ops [o] w = Some w1 /\ cache_ops ops w1 = Some w').
    { destruct o as [sec|src sec]; cbn [cache_ops] in *.
      - destruct (cache_read sec w) as [[c w1]|]; [|discriminate]. eauto.
      - destruct (cache_write src sec w) as [w1|]; [|discriminate]. eauto. }
    destruct Hstep as (w1 & H1 & H2). cbn [length] in Hlt.
    destruct (cache_op_pos s o w w1 p) as ((p1 & Hp1 & Hle) & Hlen & Hu1); auto.
    + apply Hne. left. reflexivity.
    + lia.
    + eapply (IH w1 w' p1); eauto.
      * intros o' Ho'. apply Hne. right. exact Ho'.
      * lia.
Qed.

(** After an operation on sector [s], up to 63 operations on other
    sectors leave [s] in the cache. *)
Theorem lru_keeps_recent (w : world) (o : cache_op) (ops : list cache_op)
    (w' : world) :
  cache_reachable w ->
  (forall o', In o' ops -> op_sector o' <> op_sector o) ->
  (length ops <= 63)%nat ->
  cache_ops (o :: ops) w = Some w' ->
  cached (op_sector o) w' = true.
Proof.
  intros Hreach Hne Hlen H.
  destruct (reachable_shape w Hreach) as [Hl Hu].
  assert (Hstep : exists w1, cache_ops [o] w = Some w1 /\ cache_ops ops w1 = Some w').
  { destruct o as [sec|src sec]; cbn [cache_ops] in *.
    - destruct (cache_read sec w) as [[c w1]|]; [|discriminate]. eauto.
    - destruct (cache_write src sec w) as [w1|]; [|discriminate]. eauto. }
  destruct Hstep as (w1 & H1 & H2).
  assert (Hfront : pos_of (op_sector o) (cache w1) = Some O
                   /\ length (cache w1) = 64%nat /\ cache_unique (cache w1)).
  { destruct o as [sec|src sec]; cbn [cache_ops op_sector] in *.
    - destruct (cache_read sec w) as [[c w2]|] eqn:Hr; [|discriminate]. some_inv H1.
      unfold cache_read in Hr.
      destruct (find_block_and_acq_lock sec true w) as [[b w2]|] eqn:Ef;
        [|discriminate].
      some_inv Hr. destruct (find_block_front _ _ _ _ _ Ef) as (Hp & _).
      destruct (find_block_unique _ _ _ _ _ Hu Ef) as [Hu' Hlen'].
      split; [exact Hp|]. split; [congruence|exact Hu'].
    - destruct (cache_write src sec w) as [w2|] eqn:Hw; [|discriminate]. some_inv H1.
      destruct (cache_write_unique _ _ _ _ Hu Hw) as [Hu' Hlen'].
      split; [|split; [congruence|exact Hu']].
      unfold cache_write in Hw.
      destruct (find_block_and_acq_lock sec false w) as [[b w2]|] eqn:Ef;
        [|discriminate].
      some_inv Hw. destruct (find_block_front _ _ _ _ _ Ef) as (_ & Hm & _).
      cbn [cache pos_of]. rewrite (matches_same sec b) by reflexivity.
      rewrite Hm. reflexivity. }
  destruct Hfront as (Hp0 & Hl1 & Hu1).
  destruct (cache_ops_pos (op_sector o) ops w1 w' O Hne Hp0 ltac:(lia) Hu1 H2)
    as (p' & Hp').
  unfold cached. eapply pos_of_cached. exact Hp'.
Qed.

Lemma lru_keeps_recent_witness :
  cached (op_sector (OpWrite (pattern 512) 5))
    (after (option_map (fun w => (tt, w))
              (cache_ops (OpWrite (pattern 512) 5 :: map OpRead (range 1000 63))
                 small_file)) small_file)
  = true.
Proof.
  apply (lru_keeps_recent small_file (OpWrite (pattern 512) 5)
           (map OpRead (range 1000 63))).
  - apply (reach_run bool (inode_create 2 1024) (world0 (range 100 50)) true).
    + apply reach_init.
    + vm_compute. reflexivity.
  - intros o' Ho'. apply in_map_iff in Ho' as (x & <- & Hx).
    apply in_map_iff in Hx as (k & <- & _). cbn [op_sector]. lia.
  - vm_compute. lia.
  - vm_compute. reflexivity.
Defined.

(** * Further properties of the inode layer *)

(** ** The on-disk struct *)

Lemma words_to_bytes_length ws : length (words_to_bytes ws) = (4 * length ws)%nat.
Proof.
  induction ws as [|w ws IH]; [reflexivity|].
  cbn [words_to_bytes flat_map le_bytes app length] in *.
  unfold words_to_bytes in IH. rewrite IH. lia.
Qed.

Lemma inode_words_ok m :
  wf_inode_disk m ->
  words_ok (direct m ++ [indirect m; indirect_double m; d_length m; magic m]
            ++ unused m).
Proof.
  intros (Hd & Hun & Hfd & Hfu & Hi & Hdd & Hm & Hl). split.
  - rewrite !length_app. simpl. lia.
  - apply Forall_app. split; [exact Hfd|].
    apply Forall_app. split; [|exact Hfu].
    repeat (apply Forall_cons; [unfold word32 in *; lia|]). apply Forall_nil.
Qed.

Lemma inode_disk_round_trip_aux (m : inode_disk) :
  wf_inode_disk m ->
  length (encode_inode_disk m) = 512%nat
  /\ decode_inode_disk (encode_inode_disk m) = m.
Proof.
  intros Hwf. pose proof (inode_words_ok m Hwf) as Hw.
  destruct Hwf as (Hd & Hun & _ & _ & _ & _ & _ & Hl).
  unfold encode_inode_disk. split.
  - rewrite words_to_bytes_length. destruct Hw as [-> _]. reflexivity.
  - unfold decode_inode_disk. rewrite read_words_to_bytes by exact Hw.
    destruct m as [d i dd len mg un]. cbn [direct indirect indirect_double
      d_length magic unused] in *.
    do 12 (destruct d as [|? d]; [discriminate|]).
    destruct d; [|discriminate].
    cbn [app firstn nth skipn]. rewrite wrap_int_small by lia. reflexivity.
Qed.



(** ** Creating a file of up to 140 sectors *)

Lemma array_get_at arr k s :
  0 <= k < Z.of_nat (length arr) ->
  run_fs (array_get arr k) s = Some (nth (Z.to_nat k) arr 0, s).
Proof.
  intros H. rewrite <- (Z2Nat.id k) at 1 by lia. apply array_get_in. lia.
Qed.

Lemma covered_iff size i :
  0 <= size < 2 ^ 31 - 511 -> 0 <= i ->
  (size > i * 512 <-> i < bytes_to_sectors size).
Proof.
  intros Hs Hi. rewrite bytes_to_sectors_ceil by exact Hs.
  unfold ceil_div, BLOCK_SECTOR_SIZE. split; intros H.
  - assert (i + 1 <= (size + 512 - 1) / 512); [|lia].
    apply Z.div_le_lower_bound; lia.
  - destruct (Z_le_gt_dec size (i * 512)) as [Hle|Hgt]; [|exact Hgt].
    exfalso. assert ((size + 512 - 1) / 512 < i + 1); [|lia].
    apply Z.div_lt_upper_bound; lia.
Qed.

Lemma valid_sector_word32 x : valid_sector x -> word32 x.
Proof. unfold valid_sector, word32. lia. Qed.

Lemma pool_nth_valid pool k :
  Forall valid_sector pool -> 0 <= k < Z.of_nat (length pool) ->
  valid_sector (nth (Z.to_nat k) pool 0).
Proof.
  intros Hp Hk. rewrite Forall_forall in Hp. apply Hp. apply nth_In. lia.
Qed.

Section GrowFresh.

Variables (size : Z) (pool : list Z).
Hypothesis pool_valid : Forall valid_sector pool.

(** The direct loop on pointers that are all unallocated. *)
Lemma direct_loop_grow d0 s :
  length d0 = 12%nat -> (forall j, nth j d0 0 = 0) ->
  (forall i, (i < 12)%nat -> size > 512 * Z.of_nat i ->
             (i < length pool)%nat) ->
  exists d' k' s',
    run_fs (for_loop 12 0 (resize_direct_body size pool) (d0, 0)) s
    = Some ((d', k'), s')
    /\ length d' = 12%nat /\ Forall word32 d' /\ 0 <= k' <= 12
    /\ fs_free s' = fs_free s /\ fs_log s' = fs_log s
    /\ (forall j, (j < 12)%nat ->
          nth j d' 0 = if size >? 512 * Z.of_nat j then nth j pool 0 else 0)
    /\ (size > 512 * 11 -> k' = 12).
Proof.
  intros Hlen Hzero Hcov.
  pose (I := fun (i : nat) (st : list Z * Z) (t : fs_state) =>
               length (fst st) = 12%nat /\ Forall word32 (fst st)
               /\ 0 <= snd st <= Z.of_nat i
               /\ (forall j, (i <= j)%nat -> nth j (fst st) 0 = 0)
               /\ fs_free t = fs_free s /\ fs_log t = fs_log s
               /\ (forall j, (j < i)%nat ->
                     nth j (fst st) 0
                     = if size >? 512 * Z.of_nat j then nth j pool 0 else 0)
               /\ (size > 512 * (Z.of_nat i - 1) -> snd st = Z.of_nat i)).
  destruct (for_loop_total (resize_direct_body size pool) I 12 0 (d0, 0) s)
    as ([d' k'] & s' & Hrun & (Hl' & Hw' & Hk' & _ & Hfr & Hlg & Hptr & Hcnt)).
  - unfold I. cbn [fst snd].
    split; [exact Hlen|]. split.
    { apply Forall_forall. intros x Hx.
      apply In_nth with (d := 0) in Hx as (j & _ & <-). rewrite Hzero.
      unfold word32. lia. }
    split; [lia|]. split; [intros j _; apply Hzero|].
    split; [reflexivity|]. split; [reflexivity|].
    split; [intros j Hj; lia|]. intros _. reflexivity.
  - intros i [d k] t Hi (Hl & Hw & Hk & Hz & Hfr & Hlg & Hptr & Hcnt).
    cbn [fst snd] in *.
    unfold resize_direct_body.
    rewrite run_fs_bind, array_get_in by lia.
    rewrite (Hz i) by lia. cbn [Z.eqb negb]. rewrite andb_false_r, andb_true_r.
    unfold BLOCK_SECTOR_SIZE.
    destruct (Z.gtb_spec size (512 * Z.of_nat i)) as [Hgt|Hle].
    + assert (Hip : (i < length pool)%nat) by (apply Hcov; lia).
      assert (Hki : k = Z.of_nat i) by (apply Hcnt; lia).
      rewrite run_fs_bind, array_get_at by lia. cbv beta.
      rewrite run_fs_bind, array_get_in by exact Hip. cbv beta.
      cbn [p_cache_write bind run_fs].
      pose proof (pool_nth_valid pool k pool_valid ltac:(lia)) as Hv.
      eexists (_, _), _. split; [reflexivity|]. unfold I. cbn [fst snd].
      unfold array_set. rewrite Nat2Z.id, length_list_set.
      rewrite wrap_int_small by lia.
      split; [exact Hl|].
      split; [apply Forall_list_set; [exact Hw|apply valid_sector_word32; exact Hv]|].
      split; [lia|].
      split; [intros j Hj; rewrite nth_list_set_neq by lia; apply Hz; lia|].
      split; [assumption|]. split; [assumption|].
      split; [|intros _; lia].
      intros j Hj. destruct (Nat.eq_dec j i) as [->|Hne].
      * rewrite nth_list_set_eq by lia.
        destruct (Z.gtb_spec size (512 * Z.of_nat i)); [|lia].
        rewrite Hki, Nat2Z.id. reflexivity.
      * rewrite nth_list_set_neq by lia. apply Hptr. lia.
    + eexists (_, _), _. split; [reflexivity|]. unfold I. cbn [fst snd].
      split; [exact Hl|]. split; [exact Hw|]. split; [lia|].
      split; [intros j Hj; apply Hz; lia|].
      split; [assumption|]. split; [assumption|].
      split; [|intros Hc; lia].
      intros j Hj. destruct (Nat.eq_dec j i) as [->|Hne].
      * rewrite (Hz i) by lia.
        destruct (Z.gtb_spec size (512 * Z.of_nat i)); [lia|reflexivity].
      * apply Hptr. lia.
  - exists d', k', s'. cbn [fst snd] in *.
    split; [exact Hrun|]. split; [exact Hl'|]. split; [exact Hw'|].
    split; [lia|]. split; [exact Hfr|]. split; [exact Hlg|].
    split; [intros j Hj; apply Hptr; lia|].
    intros Hc. apply Hcnt. lia.
Qed.

(** A slot loop on a table that is all unallocated, entered with
    [new_list_i = k <= k0]. *)
Lemma slot_loop_grow base k0 k s :
  0 <= k <= k0 ->
  k0 + 128 < 2 ^ 31 ->
  (forall j, (j < 128)%nat -> size > (base + Z.of_nat j) * 512 ->
             k0 + Z.of_nat j < Z.of_nat (length pool)) ->
  exists buf' k' s',
    run_fs (for_loop 128 0 (resize_slot_body size base pool) (zero_words, k)) s
    = Some ((buf', k'), s')
    /\ words_ok buf' /\ s' = s
    /\ (forall j, (j < 128)%nat ->
          nth j buf' 0
          = if size >? (base + Z.of_nat j) * 512
            then nth (Z.to_nat (k + Z.of_nat j)) pool 0 else 0).
Proof.
  intros Hk Hk0 Hcov.
  pose (I := fun (j : nat) (st : list Z * Z) (t : fs_state) =>
               words_ok (fst st)
               /\ 0 <= snd st <= k0 + Z.of_nat j
               /\ (forall j', (j <= j')%nat -> nth j' (fst st) 0 = 0)
               /\ t = s
               /\ (forall j', (j' < j)%nat ->
                     nth j' (fst st) 0
                     = if size >? (base + Z.of_nat j') * 512
                       then nth (Z.to_nat (k + Z.of_nat j')) pool 0 else 0)
               /\ (j = 0%nat \/ size > (base + Z.of_nat j - 1) * 512 ->
                   snd st = k + Z.of_nat j)).
  destruct (for_loop_total (resize_slot_body size base pool) I 128 0
              (zero_words, k) s)
    as ([b' k'] & s' & Hrun & (Hw' & _ & _ & Hs' & Hptr & _)).
  - unfold I. cbn [fst snd]. split; [apply words_ok_zero|].
    split; [lia|]. split.
    { intros j' _. unfold zero_words.
      destruct (Nat.lt_ge_cases j' 128) as [Hlt|Hge].
      + apply nth_repeat_lt. exact Hlt.
      + apply nth_overflow. rewrite repeat_length. exact Hge. }
    split; [reflexivity|]. split; [intros j' Hj'; lia|]. intros _. lia.
  - intros j [b kk] t Hj (Hw & Hkk & Hz & -> & Hptr & Hcnt). cbn [fst snd] in *.
    pose proof Hw as [Hlen _].
    unfold resize_slot_body.
    rewrite run_fs_bind, array_get_in by lia.
    rewrite (Hz j) by lia. cbn [Z.eqb negb]. rewrite andb_false_r, andb_true_r.
    unfold BLOCK_SECTOR_SIZE.
    destruct (Z.gtb_spec size ((base + Z.of_nat j) * 512)) as [Hgt|Hle].
    + pose proof (Hcov j ltac:(lia) ltac:(lia)) as Hin.
      assert (Hkj : kk = k + Z.of_nat j).
      { apply Hcnt. destruct j as [|j0]; [left; reflexivity|right; lia]. }
      rewrite run_fs_bind, array_get_at by lia. cbv beta. cbn [run_fs].
      pose proof (pool_nth_valid pool kk pool_valid ltac:(lia)) as Hv.
      eexists (_, _), _. split; [reflexivity|]. unfold I. cbn [fst snd].
      unfold array_set. rewrite Nat2Z.id. rewrite wrap_int_small by lia.
      split; [apply words_ok_set; [exact Hw|apply valid_sector_word32; exact Hv]|].
      split; [lia|].
      split; [intros j' Hj'; rewrite nth_list_set_neq by lia; apply Hz; lia|].
      split; [reflexivity|]. split; [|intros _; lia].
      intros j' Hj'. destruct (Nat.eq_dec j' j) as [->|Hne].
      * rewrite nth_list_set_eq by lia.
        destruct (Z.gtb_spec size ((base + Z.of_nat j) * 512)); [|lia].
        rewrite Hkj. reflexivity.
      * rewrite nth_list_set_neq by lia. apply Hptr. lia.
    + eexists (_, _), _. split; [reflexivity|]. unfold I. cbn [fst snd].
      split; [exact Hw|]. split; [lia|].
      split; [intros j' Hj'; apply Hz; lia|].
      split; [reflexivity|]. split; [|intros [Hc|Hc]; lia].
      intros j' Hj'. destruct (Nat.eq_dec j' j) as [->|Hne].
      * rewrite (Hz j) by lia.
        destruct (Z.gtb_spec size ((base + Z.of_nat j) * 512)); [lia|reflexivity].
      * apply Hptr. lia.
  - exists b', k', s'. cbn [fst] in *.
    split; [exact Hrun|]. split; [exact Hw'|]. split; [exact Hs'|].
    intros j Hj. apply Hptr. lia.
Qed.

End GrowFresh.

Lemma firstn_valid n (l : list Z) :
  Forall valid_sector l -> Forall valid_sector (firstn n l).
Proof.
  intros H. revert n. induction H as [|x l Hx Hl IH]; intros [|n]; simpl;
    constructor; auto.
Qed.

Lemma bytes_to_blocks_small size :
  0 <= size <= 140 * 512 ->
  let d := bytes_to_sectors size in
  0 <= d <= 140
  /\ bytes_to_blocks size = (if d <=? 12 then d + 1 else d + 2)
  /\ new_alloc_num fresh_inode_disk size = bytes_to_blocks size - 1.
Proof.
  intros H d.
  assert (Hr : 0 <= size < 2 ^ 31 - 511) by lia.
  pose proof (bytes_to_blocks_cases size Hr) as Hc. cbv zeta in Hc. fold d in Hc.
  assert (Hd : 0 <= d <= 140).
  { unfold d. rewrite bytes_to_sectors_ceil by exact Hr.
    unfold ceil_div, BLOCK_SECTOR_SIZE. split; [apply Z.div_pos; lia|].
    assert ((size + 512 - 1) / 512 < 141); [|lia].
    apply Z.div_lt_upper_bound; lia. }
  assert (Hb : bytes_to_blocks size = (if d <=? 12 then d + 1 else d + 2)).
  { rewrite Hc. destruct (d <=? 12); [reflexivity|].
    destruct (Z.leb_spec d 140); [reflexivity|lia]. }
  split; [exact Hd|]. split; [exact Hb|].
  rewrite new_alloc_num_grow; change (bytes_to_blocks (d_length fresh_inode_disk))
    with 1; [reflexivity|].
  rewrite Hb. destruct (d <=? 12); lia.
Qed.

Lemma fs_resize_fresh size s :
  Forall valid_sector (fs_free s) ->
  0 <= size <= 140 * 512 ->
  bytes_to_blocks size - 1 <= Z.of_nat (length (fs_free s)) ->
  exists m' s',
    run_fs (inode_resize fresh_inode_disk size) s = Some ((true, m'), s')
    /\ wf_inode_disk m' /\ d_length m' = size /\ magic m' = INODE_MAGIC
    /\ indirect_double m' = 0
    /\ fs_free s' = skipn (Z.to_nat (bytes_to_blocks size - 1)) (fs_free s)
    /\ fs_log s' = fs_log s ++ [bytes_to_blocks size - 1]
    /\ (forall j, (j < 12)%nat ->
          nth j (direct m') 0
          = if size >? 512 * Z.of_nat j then nth j (fs_free s) 0 else 0)
    /\ indirect m' = (if size >? 12 * 512 then nth 12 (fs_free s) 0 else 0)
    /\ (size > 12 * 512 ->
        forall j, (j < 128)%nat ->
          nth j (read_words (store s' (indirect m'))) 0
          = if size >? (12 + Z.of_nat j) * 512
            then nth (13 + j) (fs_free s) 0 else 0).
Proof.
  intros Hfree Hsize Hen.
  destruct (bytes_to_blocks_small size Hsize) as (Hd & Hb & Hn).
  set (dn := bytes_to_sectors size) in *.
  assert (Hr : 0 <= size < 2 ^ 31 - 511) by lia.
  set (n := bytes_to_blocks size - 1) in *.
  set (pool := firstn (Z.to_nat n) (fs_free s)).
  assert (Hn0 : 0 <= n) by (unfold n; rewrite Hb; destruct (dn <=? 12); lia).
  assert (Hplen : Z.of_nat (length pool) = n).
  { unfold pool. rewrite length_firstn. lia. }
  assert (Hp : Forall valid_sector pool) by (apply firstn_valid; exact Hfree).
  unfold inode_resize. rewrite run_fs_bind.
  cbn [p_free_map_allocate run_fs]. rewrite Hn.
  destruct (Z.leb_spec n (Z.of_nat (length (fs_free s)))); [|lia].
  fold pool.
  destruct (direct_loop_grow size pool Hp (direct fresh_inode_disk)
              (mk_fs (store s) (skipn (Z.to_nat n) (fs_free s)) (fs_log s ++ [n])))
    as (d' & k' & s1 & Hrun & Hl' & Hw' & Hk' & Hfr1 & Hlg1 & Hptr & Hcnt).
  { reflexivity. }
  { intros j. cbn [fresh_inode_disk direct].
    destruct (Nat.lt_ge_cases j 12) as [Hlt|Hge].
    - apply nth_repeat_lt. exact Hlt.
    - apply nth_overflow. rewrite repeat_length. exact Hge. }
  { intros i Hi Hgt.
    assert (Z.of_nat i < dn).
    { apply (covered_iff size (Z.of_nat i) Hr); lia. }
    assert (dn <= n) by (unfold n; rewrite Hb; destruct (dn <=? 12); lia).
    lia. }
  rewrite run_fs_bind, Hrun. cbv beta iota.
  cbn [fresh_inode_disk set_direct indirect indirect_double Z.eqb andb].
  unfold BLOCK_SECTOR_SIZE. cbn [fs_free fs_log] in Hfr1, Hlg1.
  assert (Hun : Forall word32 (repeat 0 112)).
  { apply Forall_forall. intros x Hx. apply repeat_spec in Hx. subst x.
    unfold word32. lia. }
  assert (Hdn_n : dn <= n) by (unfold n; rewrite Hb; destruct (dn <=? 12); lia).
  assert (Hptr' : forall j, (j < 12)%nat ->
            nth j d' 0
            = if size >? 512 * Z.of_nat j then nth j (fs_free s) 0 else 0).
  { intros j Hj. rewrite (Hptr j Hj).
    destruct (Z.gtb_spec size (512 * Z.of_nat j)) as [Hgt|]; [|reflexivity].
    assert (Z.of_nat j < dn) by (apply (covered_iff size (Z.of_nat j) Hr); lia).
    unfold pool. rewrite nth_firstn.
    destruct (Nat.ltb_spec j (Z.to_nat n)); [reflexivity|lia]. }
  destruct (Z.leb_spec size (12 * 512)) as [Hsmall|Hbig].
  - cbn [run_fs]. eexists _, s1. split; [reflexivity|].
    cbn [set_length set_direct fresh_inode_disk d_length magic indirect_double
         direct unused indirect].
    split.
    { unfold wf_inode_disk, INODE_MAGIC.
      cbn [set_length set_indirect set_direct fresh_inode_disk direct unused
           indirect indirect_double magic d_length].
      split; [exact Hl'|]. split; [apply repeat_length|].
      split; [exact Hw'|]. split; [exact Hun|].
      unfold word32, INODE_MAGIC. lia. }
    split; [reflexivity|]. split; [reflexivity|]. split; [reflexivity|].
    split; [assumption|]. split; [assumption|]. split; [exact Hptr'|].
    split; [|intros Hc; lia].
    destruct (Z.gtb_spec size (12 * 512)); [lia|reflexivity].
  - assert (Hdn : 12 < dn).
    { apply (covered_iff size 12 Hr); lia. }
    assert (Hnd : n = dn + 1).
    { unfold n. rewrite Hb. destruct (Z.leb_spec dn 12); lia. }
    rewrite run_fs_bind, run_fs_bind, array_get_at by lia. cbv beta.
    cbn [run_fs]. cbv beta iota.
    pose proof (pool_nth_valid pool k' Hp ltac:(lia)) as Hv.
    rewrite wrap_int_small by lia.
    destruct (slot_loop_grow size pool Hp 12 13 (k' + 1) s1)
      as (buf' & k2 & s2 & Hrun2 & Hw2 & -> & Hent); [lia|lia| |].
    { intros j Hj Hgt.
      assert (12 + Z.of_nat j < dn).
      { apply (covered_iff size (12 + Z.of_nat j) Hr); lia. }
      lia. }
    rewrite run_fs_bind, Hrun2. cbv beta iota.
    rewrite run_fs_bind. cbn [p_cache_write run_fs].
    cbn [set_indirect indirect_double Z.eqb andb].
    destruct (Z.leb_spec size (140 * 512)); [|lia].
    cbn [run_fs]. eexists _, _. split; [reflexivity|].
    cbn [set_length set_indirect set_direct fresh_inode_disk d_length magic
         indirect_double direct unused indirect fs_free fs_log].
    split.
    { unfold wf_inode_disk, INODE_MAGIC.
      cbn [set_length set_indirect set_direct fresh_inode_disk direct unused
           indirect indirect_double magic d_length].
      split; [exact Hl'|]. split; [apply repeat_length|].
      split; [exact Hw'|]. split; [exact Hun|].
      split; [apply valid_sector_word32; exact Hv|].
      unfold word32, INODE_MAGIC. lia. }
    split; [reflexivity|]. split; [reflexivity|]. split; [reflexivity|].
    split; [assumption|]. split; [assumption|]. split; [exact Hptr'|].
    split.
    { destruct (Z.gtb_spec size (12 * 512)); [|lia].
      rewrite (Hcnt ltac:(lia)). change (Z.to_nat 12) with 12%nat.
      unfold pool. rewrite nth_firstn.
      destruct (Nat.ltb_spec 12 (Z.to_nat n)); [reflexivity|lia]. }
    intros _ j Hj. cbn [store]. unfold upd. rewrite Z.eqb_refl.
    rewrite read_words_to_bytes by exact Hw2. rewrite (Hent j Hj).
    destruct (Z.gtb_spec size ((12 + Z.of_nat j) * 512)) as [Hgt|]; [|reflexivity].
    assert (12 + Z.of_nat j < dn).
    { apply (covered_iff size (12 + Z.of_nat j) Hr); lia. }
    rewrite (Hcnt ltac:(lia)).
    replace (Z.to_nat (12 + 1 + Z.of_nat j)) with (13 + j)%nat by lia.
    unfold pool. rewrite nth_firstn.
    destruct (Nat.ltb_spec (13 + j) (Z.to_nat n)); [reflexivity|lia].
Qed.

(** [inode_create] of a file of up to 140 sectors, on a free map that
    holds only valid sector numbers and enough of them.  Without the memory
    for the struct it returns failure and does nothing.  With it, it
    succeeds: it takes exactly [bytes_to_blocks size - 1] sectors off the
    front of the free map in one request, and the inode sector it writes
    holds a well-formed struct with the magic number and the length
    [size], whose direct pointers are the first sectors of the free map in
    order as far as [size] reaches, whose single-indirect table is the 13th
    of them once [size] exceeds 12 sectors, and which has no
    double-indirect table; the entries of the single-indirect table are
    the sectors that follow in the free map, again as far as [size]
    reaches. *)
Theorem inode_create_small (w : world) (sec size : Z) :
  cache_reachable w ->
  Forall valid_sector (free_map w) ->
  0 <= size <= 140 * 512 ->
  bytes_to_blocks size - 1 <= Z.of_nat (length (free_map w)) ->
  run_strict false (inode_create sec size) w = Some (false, w)
  /\ exists w',
       run_strict true (inode_create sec size) w = Some (true, w')
       /\ free_map w' = skipn (Z.to_nat (bytes_to_blocks size - 1)) (free_map w)
       /\ alloc_log w' = alloc_log w ++ [bytes_to_blocks size - 1]
       /\ wf_inode_disk (decode_inode_disk (view w' sec))
       /\ magic (decode_inode_disk (view w' sec)) = INODE_MAGIC
       /\ d_length (decode_inode_disk (view w' sec)) = size
       /\ (forall j, (j < 12)%nat ->
             nth j (direct (decode_inode_disk (view w' sec))) 0
             = if size >? 512 * Z.of_nat j then nth j (free_map w) 0 else 0)
       /\ indirect (decode_inode_disk (view w' sec))
          = (if size >? 12 * 512 then nth 12 (free_map w) 0 else 0)
       /\ indirect_double (decode_inode_disk (view w' sec)) = 0
       /\ (size > 12 * 512 -> sec <> nth 12 (free_map w) 0 ->
           forall j, (j < 128)%nat ->
             nth j (read_words (view w' (nth 12 (free_map w) 0))) 0
             = if size >? (12 + Z.of_nat j) * 512
               then nth (13 + j) (free_map w) 0 else 0).
Proof.
  intros Hreach Hfree Hsize Hen. pose proof (reachable_ok w Hreach) as Hok.
  split.
  { unfold inode_create. destruct (Z.ltb_spec size 0); [lia|]. reflexivity. }
  destruct (fs_resize_fresh size (abs w) Hfree Hsize Hen)
    as (m' & s1 & Hrun & Hwf & Hlen & Hmag & Hdbl & Hfr & Hlg & Hptr & Hind
        & Hent).
  assert (Hfs : run_fs (inode_create sec size) (abs w)
                = Some (true, mk_fs (upd (store s1) sec (encode_inode_disk m'))
                                (fs_free s1) (fs_log s1))).
  { unfold inode_create. destruct (Z.ltb_spec size 0); [lia|].
    rewrite run_fs_bind. cbn [p_malloc run_fs].
    rewrite run_fs_bind, Hrun. cbv beta iota. reflexivity. }
  destruct (run_of_fs _ _ w (abs w) _ _ Hok (fs_eq_refl _) Hfs)
    as (w' & Hrun' & Hok' & (Hst' & Hfr' & Hlg')).
  cbn [abs store fs_free fs_log] in *.
  assert (Hview : view w' sec = encode_inode_disk m').
  { rewrite Hst'. unfold upd. rewrite Z.eqb_refl. reflexivity. }
  destruct (inode_disk_round_trip_aux m' Hwf) as [_ Hrt].
  exists w'. rewrite (null_free_run _ _ (null_free_create sec size)).
  split; [exact Hrun'|]. split; [congruence|]. split; [congruence|].
  rewrite Hview, Hrt. split; [exact Hwf|]. split; [exact Hmag|].
  split; [exact Hlen|]. split; [exact Hptr|]. split; [exact Hind|].
  split; [exact Hdbl|].
  intros Hbig Hne j Hj. rewrite Hst'. unfold upd.
  destruct (Z.gtb_spec size (12 * 512)); [|lia].
  destruct (Z.eqb_spec (nth 12 (free_map w) 0) sec) as [Ec|_]; [congruence|].
  rewrite <- Hind. apply Hent; assumption.
Qed.

Lemma inode_create_small_witness :
  run_strict false (inode_create 2 (13 * 512)) stale_world
  = Some (false, stale_world)
  /\ exists w',
       run_strict true (inode_create 2 (13 * 512)) stale_world = Some (true, w')
       /\ free_map w'
          = skipn (Z.to_nat (bytes_to_blocks (13 * 512) - 1)) (free_map stale_world)
       /\ alloc_log w' = alloc_log stale_world ++ [bytes_to_blocks (13 * 512) - 1]
       /\ wf_inode_disk (decode_inode_disk (view w' 2))
       /\ magic (decode_inode_disk (view w' 2)) = INODE_MAGIC
       /\ d_length (decode_inode_disk (view w' 2)) = 13 * 512
       /\ (forall j, (j < 12)%nat ->
             nth j (direct (decode_inode_disk (view w' 2))) 0
             = if 13 * 512 >? 512 * Z.of_nat j
               then nth j (free_map stale_world) 0 else 0)
       /\ indirect (decode_inode_disk (view w' 2))
          = (if 13 * 512 >? 12 * 512 then nth 12 (free_map stale_world) 0 else 0)
       /\ indirect_double (decode_inode_disk (view w' 2)) = 0
       /\ (13 * 512 > 12 * 512 -> 2 <> nth 12 (free_map stale_world) 0 ->
           forall j, (j < 128)%nat ->
             nth j (read_words (view w' (nth 12 (free_map stale_world) 0))) 0
             = if 13 * 512 >? (12 + Z.of_nat j) * 512
               then nth (13 + j) (free_map stale_world) 0 else 0).
Proof.
  apply (inode_create_small stale_world 2 (13 * 512)).
  - apply reach_init.
  - apply valid_sectorb_sound. vm_compute. reflexivity.
  - lia.
  - vm_compute. discriminate.
Defined.

(** A create that the free map cannot serve returns failure and leaves no
    trace: the inode sector is not written, the cache and the device are
    as before, and the free map is intact.  A negative length stops at the
    assertion. *)
Theorem inode_create_refused (w : world) (sec size : Z) :
  0 <= size ->
  Z.of_nat (length (free_map w)) < new_alloc_num fresh_inode_disk size ->
  exists w',
    run (inode_create sec size) w = Some (false, w')
    /\ cache w' = cache w /\ disk w' = disk w /\ free_map w' = free_map w.
Proof.
  intros Hs Hfree. unfold inode_create.
  destruct (Z.ltb_spec size 0); [lia|].
  rewrite run_bind. cbn [p_malloc run].
  rewrite run_bind, (resize_fails_unchanged w fresh_inode_disk size Hfree).
  cbv beta iota. cbn [run]. eexists. split; [reflexivity|].
  cbn [cache disk free_map]. repeat split.
Qed.

Lemma inode_create_refused_witness :
  exists w',
    run (inode_create 2 (13 * 512)) (world0 (range 100 13)) = Some (false, w')
    /\ cache w' = cache (world0 (range 100 13))
    /\ disk w' = disk (world0 (range 100 13))
    /\ free_map w' = free_map (world0 (range 100 13)).
Proof.
  apply (inode_create_refused (world0 (range 100 13)) 2 (13 * 512)).
  - lia.
  - vm_compute. reflexivity.
Defined.

(** ** Sector and block counts *)

Lemma bytes_to_sectors_mono a b :
  0 <= a <= b -> b < 2 ^ 31 - 511 -> bytes_to_sectors a <= bytes_to_sectors b.
Proof.
  intros Hab Hb. rewrite !bytes_to_sectors_ceil by lia.
  unfold ceil_div, BLOCK_SECTOR_SIZE. apply Z.div_le_mono; lia.
Qed.

(** A longer file never needs fewer blocks, every file needs the block of
    its inode, and the block count exceeds the number of data sectors by at
    least that one block. *)
Theorem bytes_to_blocks_monotone (a b : Z) :
  0 <= a <= b -> b < 2 ^ 31 - 511 ->
  bytes_to_blocks a <= bytes_to_blocks b
  /\ bytes_to_sectors a + 1 <= bytes_to_blocks a.
Proof.
  intros Hab Hb.
  pose proof (bytes_to_sectors_mono a b Hab Hb) as Hm.
  pose proof (bytes_to_sectors_bound a ltac:(lia)) as Ba.
  pose proof (bytes_to_blocks_cases a ltac:(lia)) as Ca.
  pose proof (bytes_to_blocks_cases b ltac:(lia)) as Cb.
  cbv zeta in Ca, Cb. split.
  - destruct (Z.eq_dec (bytes_to_sectors a) (bytes_to_sectors b)) as [E|E].
    + rewrite Ca, Cb, E. lia.
    + pose proof (blocks_of_sectors_mono (bytes_to_sectors a)
                    (bytes_to_sectors b) ltac:(lia)) as Hlt.
      rewrite <- Ca, <- Cb in Hlt. lia.
  - rewrite Ca.
    destruct (Z.leb_spec (bytes_to_sectors a) 12); [lia|].
    destruct (Z.leb_spec (bytes_to_sectors a) 140); [lia|].
    assert (0 <= (bytes_to_sectors a - 140) / 128) by (apply Z.div_pos; lia).
    lia.
Qed.

Lemma bytes_to_blocks_monotone_witness :
  bytes_to_blocks 5000 <= bytes_to_blocks 1000000
  /\ bytes_to_sectors 5000 + 1 <= bytes_to_blocks 5000.
Proof.
  apply (bytes_to_blocks_monotone 5000 1000000); lia.
Defined.

(** ** Opening and closing handles *)


Lemma reopen_in_some sec l h l' :
  reopen_in sec l = Some (h, l') ->
  sector h = sec /\ In h l' /\ map sector l' = map sector l
  /\ exists old, In old l /\ sector old = sec /\ h = inode_reopen old.
Proof.
  revert h l'. induction l as [|ino l IH]; intros h l' H; simpl in H;
    [discriminate|].
  destruct (Z.eqb_spec (sector ino) sec) as [E|E].
  - some_inv H. simpl. repeat split; auto. exists ino. simpl. auto.
  - destruct (reopen_in sec l) as [[h0 r]|]; [|discriminate]. some_inv H.
    destruct (IH _ _ eq_refl) as (Hs & Hin & Hmap & old & Ho & Hos & Hh).
    simpl. repeat split; auto; [congruence|].
    exists old. auto.
Qed.



Lemma inode_close_not_last mem ino w :
  1 <= open_cnt ino < 2 ^ 31 - 1 ->
  run_strict mem (inode_close (inode_reopen ino)) w = Some (Some ino, w).
Proof.
  intros H. unfold inode_close, inode_reopen. cbn [open_cnt sector removed
    deny_write_cnt].
  rewrite (wrap_int_small (open_cnt ino + 1)) by lia.
  replace (open_cnt ino + 1 - 1) with (open_cnt ino) by lia.
  rewrite wrap_int_small by lia.
  destruct (Z.eqb_spec (open_cnt ino) 0); [lia|].
  destruct ino; reflexivity.
Qed.

Lemma strict_open_then_close mem malloc_ok sec open_inodes w :
  counts_ok open_inodes ->
  run_strict mem (close_opened (inode_open malloc_ok sec open_inodes)) w
  = Some (open_inodes, w).
Proof.
  intros Hc. unfold inode_open.
  destruct (reopen_in sec open_inodes) as [[h l']|] eqn:E.
  - cbn [close_opened].
    destruct (reopen_in_some _ _ _ _ E) as (Hs & _). rewrite Hs. clear Hs.
    revert h l' E.
    induction Hc as [|ino l Hino Hl IH]; intros h l' E; simpl in E;
      [discriminate|].
    destruct (Z.eqb_spec (sector ino) sec) as [Es|Es].
    + some_inv E. cbn [close_in inode_reopen sector].
      rewrite Z.eqb_refl, run_strict_bind.
      change (mk_inode (sector ino) (wrap_int (open_cnt ino + 1)) (removed ino)
                (deny_write_cnt ino)) with (inode_reopen ino).
      rewrite inode_close_not_last by exact Hino. reflexivity.
    + destruct (reopen_in sec l) as [[h0 r]|] eqn:E0; [|discriminate].
      some_inv E. cbn [close_in].
      destruct (Z.eqb_spec (sector ino) sec); [contradiction|].
      rewrite run_strict_bind, (IH _ _ eq_refl). reflexivity.
  - destruct malloc_ok; [|reflexivity].
    cbn [close_opened close_in sector]. rewrite Z.eqb_refl, run_strict_bind.
    unfold inode_close. cbn [open_cnt removed]. reflexivity.
Qed.

(** An open followed by a close of the pointer returned gives back the
    list of open inodes as it was and touches neither the cache, the
    device nor the free map: whether the sector was open before or not,
    and, when it was not, whether [malloc] returned memory for the handle
    or the pointer returned was null. *)
Theorem open_then_close (mem malloc_ok : bool) (sec : Z)
    (open_inodes : list inode) (w : world) :
  counts_ok open_inodes ->
  run_strict mem (close_opened (inode_open malloc_ok sec open_inodes)) w
  = Some (open_inodes, w)
  /\ run (close_opened (inode_open malloc_ok sec open_inodes)) w
     = Some (open_inodes, w).
Proof.
  intros Hc. split; [apply strict_open_then_close; exact Hc|].
  apply run_strict_run. apply strict_open_then_close. exact Hc.
Qed.

Lemma open_then_close_witness :
  run_strict false
    (close_opened
       (inode_open true 7 [mk_inode 3 1 false 0; mk_inode 7 2 false 0]))
    small_file
  = Some ([mk_inode 3 1 false 0; mk_inode 7 2 false 0], small_file)
  /\ run (close_opened
            (inode_open true 7 [mk_inode 3 1 false 0; mk_inode 7 2 false 0]))
       small_file
     = Some ([mk_inode 3 1 false 0; mk_inode 7 2 false 0], small_file).
Proof.
  apply (open_then_close false true 7
           [mk_inode 3 1 false 0; mk_inode 7 2 false 0] small_file).
  unfold counts_ok. repeat constructor; simpl; lia.
Defined.

Lemma direct_body_keeps size pool i d k s d' k' s' :
  length d = 12%nat -> (i < 12)%nat ->
  run_fs (resize_direct_body size pool (Z.of_nat i) (d, k)) s
  = Some ((d', k'), s') ->
  length d' = 12%nat
  /\ (forall j, j <> i -> nth j d' 0 = nth j d 0)
  /\ (nth i d 0 <> 0 -> size > 512 * Z.of_nat i -> nth i d' 0 = nth i d 0).
Proof.
  intros Hlen Hi H. unfold resize_direct_body in H.
  rewrite run_fs_bind, array_get_in in H by lia.
  unfold array_set in H. rewrite Nat2Z.id in H. unfold BLOCK_SECTOR_SIZE in H.
  destruct (Z.leb_spec size (512 * Z.of_nat i)) as [Hle|Hgt];
    destruct (Z.eqb_spec (nth i d 0) 0) as [Hz|Hnz]; cbn [andb negb] in H.
  - destruct (Z.gtb_spec size (512 * Z.of_nat i)); [lia|].
    cbn [andb] in H. simpl in H. some_inv H. repeat split; auto.
  - simpl in H. some_inv H. rewrite length_list_set.
    split; [exact Hlen|]. split; [|intros; lia].
    intros j Hj. apply nth_list_set_neq. exact Hj.
  - destruct (Z.gtb_spec size (512 * Z.of_nat i)); [|lia].
    cbn [andb] in H. apply run_fs_bind_inv in H as (n & s1 & Hn & H).
    apply array_get_inv in Hn as (-> & _ & _).
    apply run_fs_bind_inv in H as (z & s2 & Hzf & H).
    apply array_get_inv in Hzf as (-> & _ & _).
    simpl in H. some_inv H. rewrite length_list_set.
    split; [exact Hlen|]. split; [|intros; contradiction].
    intros j Hj. apply nth_list_set_neq. exact Hj.
  - destruct (Z.gtb_spec size (512 * Z.of_nat i)); [|lia].
    cbn [andb] in H. simpl in H. some_inv H. repeat split; auto.
Qed.

Lemma direct_loop_keeps size pool d k s d' k' s' :
  length d = 12%nat ->
  run_fs (for_loop 12 0 (resize_direct_body size pool) (d, k)) s
  = Some ((d', k'), s') ->
  forall i, (i < 12)%nat -> nth i d 0 <> 0 -> size > 512 * Z.of_nat i ->
            nth i d' 0 = nth i d 0.
Proof.
  intros Hlen H.
  pose (I := fun (n : nat) (st : list Z * Z) (t : fs_state) =>
               length (fst st) = 12%nat
               /\ (forall j, (n <= j)%nat -> nth j (fst st) 0 = nth j d 0)
               /\ (forall i, (i < n)%nat -> nth i d 0 <> 0 ->
                             size > 512 * Z.of_nat i ->
                             nth i (fst st) 0 = nth i d 0)).
  assert (HI : I (0 + 12)%nat (d', k') s').
  { apply (for_loop_inv (resize_direct_body size pool) I 12 0 (d, k) s).
    - unfold I. cbn [fst]. split; [exact Hlen|]. split; [reflexivity|].
      intros i Hi. lia.
    - intros n [d1 k1] t [d2 k2] t' Hn (Hl1 & Hrest & Hdone) Hrun.
      cbn [fst] in *.
      destruct (direct_body_keeps size pool n d1 k1 t d2 k2 t' Hl1 ltac:(lia) Hrun)
        as (Hl2 & Hframe & Hkeep).
      split; [exact Hl2|]. cbn [fst]. split.
      + intros j Hj. rewrite Hframe by lia. apply Hrest. lia.
      + intros i Hi Hnz Hcov. destruct (Nat.eq_dec i n) as [E|Hne].
        * subst i.
          assert (Hn0 : nth n d1 0 = nth n d 0) by (apply Hrest; lia).
          rewrite Hkeep; [exact Hn0|rewrite Hn0; exact Hnz|exact Hcov].
        * rewrite Hframe by exact Hne. apply Hdone; auto. lia.
    - exact H. }
  destruct HI as (_ & _ & Hdone). intros i Hi. apply Hdone. exact Hi.
Qed.

Lemma select_table_keeps pool (ptr : Z) (set : Z -> inode_disk)
    (m : inode_disk) k s r s' :
  set ptr = m ->
  run_fs (if ptr =? 0 then
            n <- array_get pool k ;;
            Ret (set n, zero_words, wrap_int (k + 1))
          else
            c <- p_cache_read ptr ;;
            Ret (m, read_words c, k)) s = Some (r, s') ->
  exists ptr', fst (fst r) = set ptr' /\ (ptr <> 0 -> ptr' = ptr).
Proof.
  intros Hset H. destruct (Z.eqb_spec ptr 0) as [E|E].
  - apply run_fs_bind_inv in H as (n & s1 & Hn & H).
    simpl in H. some_inv H. exists n. split; [reflexivity|].
    intros Hc. contradiction.
  - simpl in H. some_inv H. exists ptr. split; [reflexivity|]. auto.
Qed.

Lemma fs_resize_keeps m size s m1 s1 :
  length (direct m) = 12%nat ->
  run_fs (inode_resize m size) s = Some ((true, m1), s1) ->
  d_length m1 = size /\ magic m1 = magic m /\ unused m1 = unused m
  /\ (forall i, (i < 12)%nat -> nth i (direct m) 0 <> 0 ->
                size > 512 * Z.of_nat i ->
                nth i (direct m1) 0 = nth i (direct m) 0)
  /\ (indirect m <> 0 -> indirect m1 = indirect m)
  /\ (indirect_double m <> 0 -> indirect_double m1 = indirect_double m).
Proof.
  intros Hlen H. unfold inode_resize in H.
  rewrite run_fs_bind in H. cbn [p_free_map_allocate run_fs] in H.
  destruct (new_alloc_num m size <=? Z.of_nat (length (fs_free s)));
    [|simpl in H; discriminate].
  apply run_fs_bind_inv in H as ([d' k1] & sa & Hdirect & H).
  pose proof (direct_loop_keeps _ _ _ _ _ _ _ _ Hlen Hdirect) as Hkeep.
  cbv beta iota in H. cbn [set_direct indirect indirect_double] in H.
  destruct ((indirect m =? 0) && _).
  { simpl in H. some_inv H. simpl. repeat split; auto. }
  apply run_fs_bind_inv in H as ([[m2 buf0] k2] & sb & Hsel & H).
  apply (select_table_keeps _ (indirect m) (set_indirect (set_direct m d')))
    in Hsel; [|destruct m; reflexivity].
  destruct Hsel as (ind1 & Hm2 & Hind). cbn [fst] in Hm2. subst m2.
  apply run_fs_bind_inv in H as ([buf k3] & sc & _ & H).
  rewrite run_fs_bind in H. cbn [p_cache_write run_fs] in H.
  cbn [set_direct set_indirect indirect indirect_double] in H.
  destruct ((indirect_double m =? 0) && _).
  { simpl in H. some_inv H. simpl. repeat split; auto. }
  apply run_fs_bind_inv in H as ([[m3 buf10] k4] & se & Hsel & H).
  apply (select_table_keeps _ (indirect_double m)
           (set_indirect_double (set_indirect (set_direct m d') ind1)))
    in Hsel; [|destruct m; reflexivity].
  destruct Hsel as (dbl1 & Hm3 & Hdbl). cbn [fst] in Hm3. subst m3.
  apply run_fs_bind_inv in H as ([b1 k5] & sf & _ & H).
  simpl in H. some_inv H. simpl. repeat split; auto.
Qed.

(** A resize that succeeds sets the length and moves nothing: a direct
    pointer that was allocated and lies within the new length, and the
    pointers to the single- and double-indirect tables once allocated,
    keep their sector numbers; the magic number and the padding are
    untouched. *)
Theorem resize_keeps_pointers (w : world) (m : inode_disk) (size : Z)
    (m1 : inode_disk) (w1 : world) :
  cache_reachable w ->
  length (direct m) = 12%nat ->
  run (inode_resize m size) w = Some ((true, m1), w1) ->
  d_length m1 = size /\ magic m1 = magic m /\ unused m1 = unused m
  /\ (forall i, (i < 12)%nat -> nth i (direct m) 0 <> 0 ->
                size > 512 * Z.of_nat i ->
                nth i (direct m1) 0 = nth i (direct m) 0)
  /\ (indirect m <> 0 -> indirect m1 = indirect m)
  /\ (indirect_double m <> 0 -> indirect_double m1 = indirect_double m).
Proof.
  intros Hreach Hlen Hrun. pose proof (reachable_ok w Hreach) as Hok.
  destruct (run_to_fs _ _ _ _ _ Hok Hrun) as (s1 & Hfs & _).
  exact (fs_resize_keeps m size (abs w) m1 s1 Hlen Hfs).
Qed.

Lemma resize_keeps_pointers_witness :
  d_length grown_inode_disk = 13 * 512
  /\ magic grown_inode_disk = magic (decode_inode_disk (view small_file 2))
  /\ unused grown_inode_disk = unused (decode_inode_disk (view small_file 2))
  /\ (forall i, (i < 12)%nat ->
                nth i (direct (decode_inode_disk (view small_file 2))) 0 <> 0 ->
                13 * 512 > 512 * Z.of_nat i ->
                nth i (direct grown_inode_disk) 0
                = nth i (direct (decode_inode_disk (view small_file 2))) 0)
  /\ (indirect (decode_inode_disk (view small_file 2)) <> 0 ->
      indirect grown_inode_disk = indirect (decode_inode_disk (view small_file 2)))
  /\ (indirect_double (decode_inode_disk (view small_file 2)) <> 0 ->
      indirect_double grown_inode_disk
      = indirect_double (decode_inode_disk (view small_file 2))).
Proof.
  apply (resize_keeps_pointers small_file
           (decode_inode_disk (view small_file 2)) (13 * 512)
           grown_inode_disk grown_world).
  - apply (reach_run bool (inode_create 2 1024) (world0 (range 100 50)) true).
    + apply reach_init.
    + vm_compute. reflexivity.
  - vm_compute. reflexivity.
  - vm_compute. reflexivity.
Defined.

(** * The code as written: the null destinations *)

Lemma cache_read_null_strict (A : Type) mem sec (f : list Z -> prog A) w :
  run_strict mem (c <- p_cache_read_null sec ;; f c) w = None.
Proof.
  rewrite run_strict_bind. unfold p_cache_read_null. cbn [run_strict].
  destruct (cache_read sec w) as [[c w']|]; reflexivity.
Qed.

Lemma byte_to_sector_strict mem ino pos w :
  run_strict mem (byte_to_sector ino pos) w = None.
Proof. unfold byte_to_sector. apply cache_read_null_strict. Qed.

(** As written, the address translation and the length query return for
    no inode, no offset and no state of the cache: each hands
    [cache_read] a null destination (lines 210-211 and 596-597) before it
    looks at what was read. *)
Theorem byte_to_sector_null_destination (mem : bool) (ino : inode) (pos : Z)
    (w : world) :
  run_strict mem (byte_to_sector ino pos) w = None
  /\ run_strict mem (inode_length ino) w = None.
Proof.
  split; [apply byte_to_sector_strict|].
  unfold inode_length. apply cache_read_null_strict.
Qed.

(** As written, [inode_read_at] reads nothing: asked for no bytes it
    returns 0 and an empty buffer without touching the cache; asked for
    one byte or more it stops in the first call of [byte_to_sector]. *)
Theorem inode_read_at_null_destination (mem : bool) (ino : inode)
    (size offset : Z) (w : world) :
  run_strict mem (inode_read_at ino size offset) w
  = if size >? 0 then None else Some ((0, []), w).
Proof.
  unfold inode_read_at. destruct (Z.gtb_spec size 0) as [Hpos|Hle].
  - destruct (Z.to_nat size) as [|f] eqn:E; [lia|]. cbn [read_loop].
    destruct (Z.gtb_spec size 0); [|lia].
    rewrite run_strict_bind, byte_to_sector_strict. reflexivity.
  - replace (Z.to_nat size) with 0%nat by lia. reflexivity.
Qed.


(** As written, [inode_close] never gives a sector back: a close that
    returns leaves the cache, the device and the free map as they are,
    and frees the handle exactly when it was the last opener's; the last
    close of a removed inode does not return, since it reads the inode
    through a null pointer (lines 439-440) before [free_map_release]. *)
Theorem inode_close_never_releases (mem : bool) (ino : inode) (w : world) :
  (forall r w', run_strict mem (inode_close ino) w = Some (r, w') ->
     w' = w
     /\ (r = None <-> wrap_int (open_cnt ino - 1) = 0)
     /\ (r = None -> removed ino = false))
  /\ (wrap_int (open_cnt ino - 1) = 0 -> removed ino = true ->
      run_strict mem (inode_close ino) w = None).
Proof.
  unfold inode_close.
  destruct (Z.eqb_spec (wrap_int (open_cnt ino - 1)) 0) as [E|E].
  - destruct (removed ino).
    + rewrite run_strict_bind, cache_read_null_strict. split.
      * intros r w' H. discriminate.
      * reflexivity.
    + split.
      * intros r w' H. cbn in H. some_inv H.
        split; [reflexivity|]. split; [tauto|reflexivity].
      * intros _ H. discriminate.
  - split.
    + intros r w' H. cbn in H. some_inv H.
      split; [reflexivity|]. split; [|intros H; discriminate].
      split; [intros H; discriminate|intros H; contradiction].
    + intros H. contradiction.
Qed.
